(** * Analytics pipeline of the e-commerce dashboard ([app.py])

    A shallow embedding of the computations behind the dashboard pages:
    the revenue volatility and discount blocks, the RFM segmentation, the
    category / Pareto / return tables and the return block of the
    recommendations page.

    Conventions of the embedding.
    - A pandas frame of orders is a [list order]; every field of a row is
      present (the loader fills the only column it treats as optional).
    - Timestamps are integers counting nanoseconds, as pandas stores them;
      a timestamp or a time difference outside the signed 64-bit range is
      an [OutOfBoundsDatetime] error.
    - Floating-point columns are values of [Float.t]: rationals together
      with the special values [PInf], [NInf] and [NaN], combined with the
      IEEE rules for special values.  The operations of [Float] are exact;
      those of [Binary64] round every result to the nearest binary64
      number.  The return table, whose cells are stored after a rounding
      to one decimal, is computed with [Binary64]; sums, means and shares
      elsewhere are computed exactly.  The sign of zero is not modelled.
    - The quantiles behind [pd.qcut] are computed by numpy in floating
      point: the scoring is defined for any function computing the bin
      edges, and [quantile_edges] is the instance with exact
      interpolation.
    - A Python exception is the left injection of [result]. *)

From Stdlib Require Import Strings.String Numbers.DecimalString.
From Stdlib Require Import ZArith QArith Qround Qpower Qabs List Bool Lia Lqa.
From Stdlib Require Import Sorting.Permutation Sorting.Sorted.
Import ListNotations.

Set Implicit Arguments.

(** ** Exceptions *)

(** [OutOfBoundsDatetime] is pandas' error for a timestamp or a time
    difference that does not fit its 64-bit representation. *)
Inductive pyerr : Type :=
| ValueError (msg : string)
| KeyError (key : string)
| OutOfBoundsDatetime (msg : string).

Definition result (A : Type) : Type := (pyerr + A)%type.

Definition ret {A} (a : A) : result A := inr a.
Definition raise {A} (e : pyerr) : result A := inl e.

Definition bind {A B} (m : result A) (k : A -> result B) : result B :=
  match m with
  | inl e => inl e
  | inr a => k a
  end.

Declare Scope py_scope.
Delimit Scope py_scope with py.
Notation "x <- m ;; k" := (bind m (fun x => k))
  (at level 61, m at next level, right associativity) : py_scope.

(** ** Floating-point values with exact finite arithmetic *)

Inductive float : Type :=
| Fin (q : Q)
| PInf
| NInf
| NaN.

Module Float.

Local Open Scope Q_scope.

Definition t : Type := float.

Definition of_Z (z : Z) : t := Fin (inject_Z z).

Definition neg (a : t) : t :=
  match a with
  | Fin q => Fin (- q)
  | PInf => NInf
  | NInf => PInf
  | NaN => NaN
  end.

Definition add (a b : t) : t :=
  match a, b with
  | NaN, _ | _, NaN => NaN
  | Fin x, Fin y => Fin (x + y)
  | PInf, NInf | NInf, PInf => NaN
  | PInf, _ | _, PInf => PInf
  | NInf, _ | _, NInf => NInf
  end.

Definition sub (a b : t) : t := add a (neg b).

(** The infinity whose sign is the sign of [q]; [NaN] for zero. *)
Definition inf_signed (q : Q) : t :=
  match q ?= 0 with
  | Gt => PInf
  | Lt => NInf
  | Eq => NaN
  end.

Definition mul (a b : t) : t :=
  match a, b with
  | NaN, _ | _, NaN => NaN
  | Fin x, Fin y => Fin (x * y)
  | Fin x, PInf | PInf, Fin x => inf_signed x
  | Fin x, NInf | NInf, Fin x => inf_signed (- x)
  | PInf, PInf | NInf, NInf => PInf
  | PInf, NInf | NInf, PInf => NaN
  end.

(** Division never raises: a zero divisor gives an infinity or [NaN]. *)
Definition div (a b : t) : t :=
  match a, b with
  | NaN, _ | _, NaN => NaN
  | Fin x, Fin y => if Qeq_bool y 0 then inf_signed x else Fin (x / y)
  | Fin _, PInf | Fin _, NInf => Fin 0
  | PInf, Fin y => if Qle_bool 0 y then PInf else NInf
  | NInf, Fin y => if Qle_bool 0 y then NInf else PInf
  | PInf, PInf | PInf, NInf | NInf, PInf | NInf, NInf => NaN
  end.

(** Comparisons: every comparison with [NaN] is false. *)
Definition leb (a b : t) : bool :=
  match a, b with
  | NaN, _ | _, NaN => false
  | Fin x, Fin y => Qle_bool x y
  | NInf, _ => true
  | _, PInf => true
  | _, _ => false
  end.

Definition ltb (a b : t) : bool :=
  match a, b with
  | NaN, _ | _, NaN => false
  | Fin x, Fin y => negb (Qle_bool y x)
  | NInf, NInf => false
  | NInf, _ => true
  | PInf, _ => false
  | Fin _, PInf => true
  | Fin _, NInf => false
  end.

Definition gtb (a b : t) : bool := ltb b a.

Definition is_nan (a : t) : bool :=
  match a with NaN => true | _ => false end.

(** Equality up to the equality of rationals. *)
Definition eq (a b : t) : Prop :=
  match a, b with
  | Fin x, Fin y => x == y
  | PInf, PInf | NInf, NInf | NaN, NaN => True
  | _, _ => False
  end.

(** Nearest integer, ties to the even one (numpy's [rint]). *)
Definition round_half_even (x : Q) : Z :=
  let f := Qfloor x in
  match Qcompare (x - inject_Z f)%Q (1 # 2)%Q with
  | Lt => f
  | Gt => (f + 1)%Z
  | Eq => if Z.even f then f else (f + 1)%Z
  end.

(** [round_q d x]: the exact value [x] rounded to [d] decimals.
    [Binary64.round] is the rounding of a binary64 value. *)
Definition round_q (d : nat) (x : Q) : Q :=
  let s := inject_Z (10 ^ Z.of_nat d) in
  inject_Z (round_half_even (x * s)) / s.

Definition round (d : nat) (a : t) : t :=
  match a with
  | Fin q => Fin (round_q d q)
  | other => other
  end.

End Float.

(** ** Binary64 arithmetic *)

(** The operations of IEEE 754 double precision, as numpy performs them:
    the exact result rounded to the nearest number with a 53-bit
    significand, ties to the even one, with gradual underflow and with
    overflow to an infinity. *)
Module Binary64.

Local Open Scope Q_scope.

Definition pow2 (e : Z) : Q := Qpower 2 e.

(** The exponent of the binade of a non-zero [x]:
    [2 ^ ilog2 x <= |x| < 2 ^ (ilog2 x + 1)]. *)
Definition ilog2 (x : Q) : Z :=
  let e := (Z.log2 (Z.abs (Qnum x)) - Z.log2 (Zpos (Qden x)))%Z in
  if Qle_bool (pow2 e) (Qabs x) then e else (e - 1)%Z.

(** The spacing of the binary64 numbers around [x]. *)
Definition ulp (x : Q) : Q := pow2 (Z.max (ilog2 x - 52) (-1074)).

(** The multiple of [ulp x] nearest to [x], ties to even. *)
Definition nearest (x : Q) : Q :=
  if Qeq_bool x 0 then 0
  else Qred (inject_Z (Float.round_half_even (x / ulp x)) * ulp x).

Definition of_Q (x : Q) : float :=
  let y := nearest x in
  if Qle_bool (pow2 1024) (Qabs y)
  then (if Qle_bool 0 y then PInf else NInf)
  else Fin y.

Definition rounded (a : float) : float :=
  match a with
  | Fin q => of_Q q
  | other => other
  end.

Definition add (a b : float) : float := rounded (Float.add a b).
Definition sub (a b : float) : float := rounded (Float.sub a b).
Definition mul (a b : float) : float := rounded (Float.mul a b).
Definition div (a b : float) : float := rounded (Float.div a b).

(** [np.rint]: the nearest integer, ties to even; exact. *)
Definition rint (a : float) : float :=
  match a with
  | Fin q => Fin (inject_Z (Float.round_half_even q))
  | other => other
  end.

(** [np.round(a, d)] for [d >= 0]: [rint(a * 10 ** d) / 10 ** d], both
    the product and the quotient rounded to binary64. *)
Definition round (d : nat) (a : float) : float :=
  let s := Fin (inject_Z (10 ^ Z.of_nat d)) in
  div (rint (mul a s)) s.

End Binary64.

(** ** Series reductions *)

Definition Qsum (xs : list Q) : Q := fold_right Qplus 0 xs.

(** [Series.sum]: the empty sum is zero. *)
Definition series_sum (xs : list Q) : float := Fin (Qsum xs).

(** [Series.mean]: [NaN] on an empty series. *)
Definition series_mean (xs : list Q) : float :=
  match xs with
  | [] => NaN
  | _ => Fin (Qsum xs / inject_Z (Z.of_nat (length xs)))
  end.

(** [Series.sum] over a float column skips [NaN] entries. *)
Definition fsum_skipna (xs : list float) : float :=
  fold_right (fun x acc => if Float.is_nan x then acc else Float.add x acc)
             (Fin 0) xs.

(** [Series.sum] of an integer column. *)
Definition Zsum (xs : list Z) : Z := fold_right Z.add 0%Z xs.

(** [Series.max] of a timestamp or integer column: [None] is [NaT]. *)
Definition series_max (xs : list Z) : option Z :=
  match xs with
  | [] => None
  | x :: rest => Some (fold_left Z.max rest x)
  end.

(** Number of [True] entries of a boolean column. *)
Definition count_true {A} (p : A -> bool) (xs : list A) : Z :=
  Z.of_nat (length (filter p xs)).

(** ** Orders *)

Record order : Type := mkOrder {
  order_id : Z;
  customer_id : Z;
  order_date : Z;
  order_value : Q;
  discount_applied : Q;
  product_category : string;
  order_status : string
}.

Definition frame := list order.

(** The loader's treatment of the discount column: [fillna(0)]. *)
Definition fillna (default : Q) (cell : option Q) : Q :=
  match cell with
  | Some q => q
  | None => default
  end.

Definition load_discount (raw : list (option Q)) : list Q :=
  map (fillna 0) raw.

(** ** RFM segmentation: the rule cascade *)

Open Scope Z_scope.

Definition segment_customer (r f m : Z) : string :=
  if (r >=? 4) && (f >=? 4) && (m >=? 4) then "Champions"
  else if (r >=? 3) && (f >=? 4) && (m >=? 4) then "Loyal Customers"
  else if (r >=? 4) && (f >=? 3) && (m >=? 4) then "Potential Loyalists"
  else if (f >=? 3) && (m >=? 3) && (r <=? 2) then "At Risk"
  else if (r >=? 4) && ((f <=? 2) || (m <=? 2)) then "Need Attention"
  else if (r >=? 3) && ((f >=? 3) || (m >=? 3)) then "Promising"
  else if (r <=? 2) && (f <=? 2) then "Lost"
  else "Other".

(** The rule table in the words of the specification: an ordered list of
    predicate / label pairs, read top-down, the first match deciding. *)
Definition rule : Type := ((Z -> Z -> Z -> bool) * string)%type.

Definition spec_rules : list rule :=
  [ (fun r f m => (4 <=? r) && (4 <=? f) && (4 <=? m),
     "Champions"%string);
    (fun r f m => (3 <=? r) && (4 <=? f) && (4 <=? m),
     "Loyal Customers"%string);
    (fun r f m => (4 <=? r) && (3 <=? f) && (4 <=? m),
     "Potential Loyalists"%string);
    (fun r f m => (3 <=? f) && (3 <=? m) && (r <=? 2),
     "At Risk"%string);
    (fun r f m => (4 <=? r) && ((f <=? 2) || (m <=? 2)),
     "Need Attention"%string);
    (fun r f m => (3 <=? r) && ((3 <=? f) || (3 <=? m)),
     "Promising"%string);
    (fun r f m => (r <=? 2) && (f <=? 2),
     "Lost"%string) ].

Fixpoint first_match (rules : list rule) (otherwise : string) (r f m : Z)
  : string :=
  match rules with
  | [] => otherwise
  | (p, label) :: rest =>
      if p r f m then label else first_match rest otherwise r f m
  end.

Definition segment_labels : list string :=
  [ "Champions"%string; "Loyal Customers"%string;
    "Potential Loyalists"%string; "At Risk"%string;
    "Need Attention"%string; "Promising"%string;
    "Lost"%string; "Other"%string ].

Definition is_score (s : Z) : Prop := 1 <= s <= 5.

(** ** Sorting, distinct values and [groupby] *)

Section Keys.

Variable K : Type.
Variable key_eqb : K -> K -> bool.
Variable key_leb : K -> K -> bool.

Fixpoint insert_sorted (k : K) (ks : list K) : list K :=
  match ks with
  | [] => [k]
  | k' :: rest =>
      if key_leb k k' then k :: ks else k' :: insert_sorted k rest
  end.

(** Stable ascending sort. *)
Definition sort_keys (ks : list K) : list K :=
  fold_right insert_sorted [] ks.

(** Distinct values in order of first appearance ([unique]). *)
Fixpoint unique (ks : list K) : list K :=
  match ks with
  | [] => []
  | k :: rest => k :: filter (fun k' => negb (key_eqb k' k)) (unique rest)
  end.

Variable A : Type.

(** [DataFrame.groupby(key)]: one group per distinct key, groups in
    ascending key order, the rows of a group in their original order. *)
Definition groupby (key : A -> K) (df : list A) : list (K * list A) :=
  map (fun k => (k, filter (fun row => key_eqb (key row) k) df))
      (sort_keys (unique (map key df))).

End Keys.

(** ** RFM aggregation *)

(** One day in nanoseconds ([pd.Timedelta(days=1)]). *)
Definition one_day : Z := 86400000000000.

(** [Timestamp.max] and [Timedelta.max]: [2 ^ 63 - 1] nanoseconds.  The
    smallest values are their opposites. *)
Definition timestamp_max : Z := 9223372036854775807.
Definition timedelta_max : Z := 9223372036854775807.

Definition err_timestamp_bounds : pyerr :=
  OutOfBoundsDatetime "Out of bounds nanosecond timestamp".
Definition err_timedelta_bounds : pyerr :=
  OutOfBoundsDatetime "Result is too large for pandas.Timedelta".

(** [df["order_date"].max() + pd.Timedelta(days=1)]; [None] stands for
    [NaT], the maximum of an empty column.  The sum has to be a
    timestamp. *)
Definition reference_date (df : frame) : result (option Z) :=
  match series_max (map order_date df) with
  | None => ret None
  | Some latest =>
      if latest + one_day <=? timestamp_max
      then ret (Some (latest + one_day))
      else raise err_timestamp_bounds
  end.

(** [(reference_date - x.max()).days]: the difference has to be a
    [Timedelta]; its whole days, rounded towards minus infinity. *)
Definition recency_days (ref last : option Z) : result (option Z) :=
  match ref, last with
  | Some r, Some l =>
      if (- timedelta_max <=? r - l) && (r - l <=? timedelta_max)
      then ret (Some ((r - l) / one_day))
      else raise err_timedelta_bounds
  | _, _ => ret None
  end.

Record rfm_row : Type := mkRfm {
  rfm_customer : Z;
  Recency : option Z;
  Frequency : Z;
  Monetary : Q
}.

(** A function applied to the items of a list, up to the first
    exception. *)
Fixpoint mapM {A B} (f : A -> result B) (l : list A) : result (list B) :=
  match l with
  | [] => ret []
  | a :: rest =>
      bind (f a) (fun b => bind (mapM f rest) (fun bs => ret (b :: bs)))
  end.

(** The table [rfm]: [df.groupby("customer_id").agg(...)] with the
    recency, the number of orders and the sum of the order values of
    every customer, and the customer as a column again. *)
Definition rfm (df : frame) : result (list rfm_row) :=
  bind (reference_date df) (fun ref =>
  mapM (fun g : Z * frame =>
          let (c, rows) := g in
          bind (recency_days ref (series_max (map order_date rows)))
               (fun d =>
                  ret {| rfm_customer := c;
                         Recency := d;
                         Frequency := Z.of_nat (List.length rows);
                         Monetary := Qsum (map order_value rows) |}))
       (groupby Z.eqb Z.leb customer_id df)).

(** The order dates leave room for the reference date and for the
    difference between the reference date and any order date. *)
Definition dates_in_range (df : frame) : bool :=
  match series_max (map order_date df) with
  | None => true
  | Some latest =>
      (latest + one_day <=? timestamp_max)
      && forallb (fun o => latest + one_day - order_date o <=? timedelta_max)
                 df
  end.

(** The same table computed on the integers, without the range checks:
    the value of [rfm] whenever it returns. *)
Definition reference_value (df : frame) : option Z :=
  option_map (fun d => d + one_day) (series_max (map order_date df)).

Definition days_since (ref last : option Z) : option Z :=
  match ref, last with
  | Some r, Some l => Some ((r - l) / one_day)
  | _, _ => None
  end.

Definition rfm_aggregate (df : frame) : list rfm_row :=
  let ref := reference_value df in
  map (fun g : Z * frame =>
         let (c, rows) := g in
         {| rfm_customer := c;
            Recency := days_since ref (series_max (map order_date rows));
            Frequency := Z.of_nat (List.length rows);
            Monetary := Qsum (map order_value rows) |})
      (groupby Z.eqb Z.leb customer_id df).

(** ** Quantile binning ([pd.qcut]) *)

(** [pd.qcut] is a function of pandas; the definitions below follow its
    implementation ([qcut] and [_bins_to_cuts]): the edges are the
    quantiles of the present values, duplicate edges are dropped or
    rejected, the labels are checked against the edges that remain, and
    each value receives the label of its bin.  The messages of the
    exceptions are shortened.

    The quantiles themselves are computed by numpy, in floating point
    both for the levels ([np.linspace]) and for the interpolation.
    [qcut_with] takes the function that computes the edges as a
    parameter; [quantile_edges] computes them exactly, and [qcut] is
    [qcut_with] at that function. *)

Definition sort_Q : list Q -> list Q := sort_keys Qle_bool.

Definition dropna (xs : list (option Q)) : list Q :=
  flat_map (fun x => match x with Some q => [q] | None => [] end) xs.

(** [Series.quantile(k / q)] with linear interpolation on ascending,
    non-empty data: position [(n - 1) * k / q] between two neighbours. *)
Definition quantile (sorted : list Q) (k q : Z) : Q :=
  let pos := (Z.of_nat (List.length sorted) - 1) * k in
  let lo := pos / q in
  let a := nth (Z.to_nat lo) sorted 0%Q in
  let b := nth (Z.to_nat (lo + 1)) sorted a in
  (a + (b - a) * (inject_Z (pos mod q) / inject_Z q))%Q.

(** The [q + 1] bin edges at the levels [0, 1/q, ..., 1], interpolated
    exactly.  numpy's edges can differ from these in the last place (its
    level 3/5 is 0.6000000000000001), which separates edges that coincide
    here: statements about every scored table are made with [qcut_with]
    for an arbitrary edge function. *)
Definition quantile_edges (sorted : list Q) (q : nat) : list Q :=
  map (fun k => quantile sorted (Z.of_nat k) (Z.of_nat q)) (seq 0 (S q)).

Inductive duplicates_policy : Type := DupRaise | DupDrop.

(** [bins.searchsorted(x, side="left")] on ascending edges, as the
    quantiles of a column are: index of the first edge that is not below
    [x]. *)
Fixpoint searchsorted_left (bins : list Q) (x : Q) : nat :=
  match bins with
  | [] => O
  | b :: rest => if Qle_bool x b then O else S (searchsorted_left rest x)
  end.

(** Bin number of one value, with [include_lowest]; [None] when the value
    is missing or falls outside the edges. *)
Definition bin_id (bins : list Q) (x : option Q) : option nat :=
  match x with
  | None => None
  | Some v =>
      let id := match bins with
                | b0 :: _ => if Qeq_bool v b0 then 1%nat
                             else searchsorted_left bins v
                | [] => searchsorted_left bins v
                end in
      if (id =? 0)%nat || (id =? List.length bins)%nat then None else Some id
  end.

Definition label_of (labels : list Z) (id : option nat) : option Z :=
  match id with
  | Some i => nth_error labels (i - 1)
  | None => None
  end.

Definition err_dup_edges : pyerr :=
  ValueError "Bin edges must be unique".
Definition err_dup_labels : pyerr :=
  ValueError "labels must be unique if ordered=True".
Definition err_label_count : pyerr :=
  ValueError "Bin labels must be one fewer than the number of bin edges".
Definition err_nan_to_int : pyerr :=
  ValueError "Cannot convert float NaN to integer".

Open Scope py_scope.

(** [_bins_to_cuts]: duplicate edges are an error or are dropped; the
    labels must be distinct and one fewer than the edges that remain. *)
Definition bins_to_cuts (x : list (option Q)) (bins : list Q)
           (labels : list Z) (duplicates : duplicates_policy)
  : result (list (option Z)) :=
  let unique_bins := unique Qeq_bool bins in
  bins' <- (if (List.length unique_bins <? List.length bins)%nat
               && negb (List.length bins =? 2)%nat
            then match duplicates with
                 | DupRaise => raise err_dup_edges
                 | DupDrop => ret unique_bins
                 end
            else ret bins) ;;
  if negb (List.length (unique Z.eqb labels) =? List.length labels)%nat
  then raise err_dup_labels
  else if negb (List.length labels =? List.length bins' - 1)%nat
  then raise err_label_count
  else ret (map (fun v => label_of labels (bin_id bins' v)) x).

(** [pd.qcut(x, q, labels, duplicates)] with the edges
    [quantiles sorted q] of the ascending present values.  On a column
    without any value the edges are all [NaN] and collapse to one, so the
    label check raises. *)
Definition qcut_with (quantiles : list Q -> nat -> list Q)
           (x : list (option Q)) (q : nat) (labels : list Z)
           (duplicates : duplicates_policy) : result (list (option Z)) :=
  match sort_Q (dropna x) with
  | [] => raise err_label_count
  | sorted => bins_to_cuts x (quantiles sorted q) labels duplicates
  end.

Definition qcut (x : list (option Q)) (q : nat) (labels : list Z)
           (duplicates : duplicates_policy) : result (list (option Z)) :=
  qcut_with quantile_edges x q labels duplicates.

(** [.astype(int)] on the labelled column: a missing label cannot be
    converted. *)
Fixpoint astype_int (xs : list (option Z)) : result (list Z) :=
  match xs with
  | [] => ret []
  | None :: _ => raise err_nan_to_int
  | Some z :: rest => zs <- astype_int rest ;; ret (z :: zs)
  end.

(** [Series.rank(method="first")]: ascending ranks from 1, equal values
    ranked in order of appearance. *)
Fixpoint rank_from (all seen rest : list Q) : list Q :=
  match rest with
  | [] => []
  | x :: tl =>
      inject_Z (1 + count_true (fun y => negb (Qle_bool x y)) all
                  + count_true (fun y => Qeq_bool y x) seen)
      :: rank_from all (x :: seen) tl
  end.

Definition rank_first (xs : list Q) : list Q := rank_from xs [] xs.

(** ** RFM scoring and segments *)

Record scored_row : Type := mkScored {
  rfm_base : rfm_row;
  R_score : Z;
  F_score : Z;
  M_score : Z;
  Segment : string
}.

Fixpoint zip_scores (rows : list rfm_row) (rs fs ms : list Z)
  : list scored_row :=
  match rows, rs, fs, ms with
  | row :: rows', r :: rs', f :: fs', m :: ms' =>
      {| rfm_base := row; R_score := r; F_score := f; M_score := m;
         Segment := segment_customer r f m |}
      :: zip_scores rows' rs' fs' ms'
  | _, _, _, _ => []
  end.

Definition recency_column (rfm : list rfm_row) : list (option Q) :=
  map (fun row => option_map inject_Z (Recency row)) rfm.

Definition frequency_column (rfm : list rfm_row) : list Q :=
  map (fun row => inject_Z (Frequency row)) rfm.

Definition monetary_column (rfm : list rfm_row) : list Q :=
  map Monetary rfm.

Section Scoring.

(** The function computing the bin edges of [pd.qcut] from the ascending
    values of the column and the number of bins. *)
Variable quantiles : list Q -> nat -> list Q.

(** Recency is binned on its raw values with the labels reversed;
    frequency and monetary are binned on their first-seen ranks. *)
Definition score_recency_with (rows : list rfm_row) : result (list Z) :=
  cats <- qcut_with quantiles (recency_column rows) 5 [5; 4; 3; 2; 1]
                    DupDrop ;;
  astype_int cats.

Definition score_by_rank_with (col : list Q) : result (list Z) :=
  cats <- qcut_with quantiles (map Some (rank_first col)) 5 [1; 2; 3; 4; 5]
                    DupDrop ;;
  astype_int cats.

(** The three score columns and the segment added to the rows of the
    table [rfm]. *)
Definition score_rfm (rows : list rfm_row) : result (list scored_row) :=
  rs <- score_recency_with rows ;;
  fs <- score_by_rank_with (frequency_column rows) ;;
  ms <- score_by_rank_with (monetary_column rows) ;;
  ret (zip_scores rows rs fs ms).

(** The segmentation page from the reference date to the segments. *)
Definition rfm_scored (df : frame) : result (list scored_row) :=
  rows <- rfm df ;;
  score_rfm rows.

End Scoring.

(** A property of the quantiles that numpy's interpolation has: on a
    constant column the six edges of the quintiles coincide. *)
Definition constant_quantiles (quantiles : list Q -> nat -> list Q) : Prop :=
  forall (v : Q) (n : nat),
  exists h l,
    quantiles (repeat v (S n)) 5%nat = h :: l
    /\ List.length l = 5%nat
    /\ Forall (fun x => x == h)%Q l.

(** The scoring with exact quantiles, on the table computed without
    range checks. *)
Definition score_recency (rows : list rfm_row) : result (list Z) :=
  score_recency_with quantile_edges rows.

Definition score_by_rank (col : list Q) : result (list Z) :=
  score_by_rank_with quantile_edges col.

Definition rfm_table (df : frame) : result (list scored_row) :=
  score_rfm quantile_edges (rfm_aggregate df).

(** ** Revenue page: volatility *)

Section Volatility.

(** The square root of the floating-point library, left abstract: the
    sample standard deviation is irrational in general. *)
Variable sqrtQ : Q -> Q.

(** [Series.std()]: sample standard deviation (divisor [n - 1]),
    [NaN] with fewer than two values. *)
Definition series_std (xs : list Q) : float :=
  match series_mean xs with
  | Fin mu =>
      if (List.length xs <=? 1)%nat then NaN
      else Fin (sqrtQ (Qsum (map (fun x => (x - mu) * (x - mu))%Q xs)
                       / inject_Z (Z.of_nat (List.length xs) - 1)))
  | _ => NaN
  end.

Record volatility : Type := mkVolatility {
  mean_val : float;
  std_val : float;
  cov : float;
  best_case : float;
  worst_case : float;
  high_volatility : bool
}.

Definition revenue_volatility (df : frame) : volatility :=
  let mean_val := series_mean (map order_value df) in
  let std_val := series_std (map order_value df) in
  let cov := Float.mul (Float.div std_val mean_val) (Fin 100) in
  {| mean_val := mean_val;
     std_val := std_val;
     cov := cov;
     best_case := Float.add mean_val (Float.mul cov mean_val);
     worst_case := Float.sub mean_val (Float.mul cov mean_val);
     high_volatility := Float.gtb cov (Fin 50) |}.

End Volatility.

(** ** Revenue page: discount impact *)

Definition no_discount (df : frame) : frame :=
  filter (fun o => Qeq_bool (discount_applied o) 0) df.

Definition with_discount (df : frame) : frame :=
  filter (fun o => negb (Qle_bool (discount_applied o) 0)) df.

Definition no_discount_revenue (df : frame) : float :=
  series_sum (map order_value (no_discount df)).
Definition with_discount_revenue (df : frame) : float :=
  series_sum (map order_value (with_discount df)).
Definition no_discount_avg (df : frame) : float :=
  series_mean (map order_value (no_discount df)).
Definition with_discount_avg (df : frame) : float :=
  series_mean (map order_value (with_discount df)).

Definition percentage_diff (df : frame) : float :=
  Float.mul
    (Float.div (Float.sub (no_discount_avg df) (with_discount_avg df))
               (no_discount_avg df))
    (Fin 100).

(** The note on the page is shown when [percentage_diff > 0]. *)
Definition discount_note_shown (df : frame) : bool :=
  Float.gtb (percentage_diff df) (Fin 0).

(** ** Category page: the category table *)

Definition string_leb (a b : string) : bool := String.leb a b.

Definition by_category (df : frame) : list (string * frame) :=
  groupby String.eqb string_leb product_category df.

Record category_row : Type := mkCategory {
  category : string;
  Order_count : Z;
  Total_Revenue : Q;
  Avg_Revenue_per_Order : float;
  Unique_Customers : Z;
  Revenue_pct : float;
  Order_pct : float
}.

(** The aggregation, rounded to two decimals, before the share columns. *)
Definition category_aggregate (df : frame)
  : list (string * Z * Q * float * Z) :=
  map (fun g : string * frame =>
         let (c, rows) := g in
         (c,
          Z.of_nat (List.length rows),
          Float.round_q 2 (Qsum (map order_value rows)),
          Float.round 2 (series_mean (map order_value rows)),
          Z.of_nat (List.length (unique Z.eqb (map customer_id rows)))))
      (by_category df).

(** Share of a column total, in percent, rounded to one decimal. *)
Definition share_pct (x total : Q) : float :=
  Float.round 1 (Float.mul (Float.div (Fin x) (Fin total)) (Fin 100)).

Definition agg_count (a : string * Z * Q * float * Z) : Z :=
  snd (fst (fst (fst a))).
Definition agg_revenue (a : string * Z * Q * float * Z) : Q :=
  snd (fst (fst a)).

Definition with_shares (agg : list (string * Z * Q * float * Z))
  : list category_row :=
  let revenue_total := Qsum (map agg_revenue agg) in
  let order_total := Qsum (map (fun a => inject_Z (agg_count a)) agg) in
  map (fun a =>
         match a with
         | (c, n, rev, avg, uniq) =>
             {| category := c; Order_count := n; Total_Revenue := rev;
                Avg_Revenue_per_Order := avg; Unique_Customers := uniq;
                Revenue_pct := share_pct rev revenue_total;
                Order_pct := share_pct (inject_Z n) order_total |}
         end) agg.

(** [sort_values(by="Total_Revenue", ascending=False)]; rows with equal
    revenue keep their order. *)
Definition sort_by_revenue_desc (rows : list category_row)
  : list category_row :=
  sort_keys (fun a b => Qle_bool (Total_Revenue b) (Total_Revenue a)) rows.

Definition category_analysis (df : frame) : list category_row :=
  sort_by_revenue_desc (with_shares (category_aggregate df)).

(** ** Category page: Pareto cut *)

Fixpoint cumsum_from (acc : Q) (xs : list Q) : list Q :=
  match xs with
  | [] => []
  | x :: rest => (acc + x)%Q :: cumsum_from (acc + x)%Q rest
  end.

Definition cumsum (xs : list Q) : list Q := cumsum_from 0 xs.

(** [cumsum_revenue / Total_Revenue.sum() * 100] over the revenue column
    of the sorted category table. *)
Definition cumsum_revenue_pct (revenues : list Q) : list float :=
  map (fun c => Float.mul (Float.div (Fin c) (series_sum revenues)) (Fin 100))
      (cumsum revenues).

Definition num_categories_80 (revenues : list Q) : nat :=
  List.length (filter (fun p => Float.leb p (Fin 80))
                      (cumsum_revenue_pct revenues)).

Definition num_categories_20 (revenues : list Q) : nat :=
  (List.length revenues - num_categories_80 revenues)%nat.

Definition pareto (df : frame) : nat * nat :=
  let revenues := map Total_Revenue (category_analysis df) in
  (num_categories_80 revenues, num_categories_20 revenues).

(** ** Frames with named columns *)

(** The aggregated tables of the return analysis are frames whose columns
    are looked up by name; a row carries its index label and one cell per
    column. *)
Record dataframe : Type := mkDataFrame {
  df_columns : list string;
  df_rows : list (string * list float)
}.

(** A column taken out of a frame: index label and value. *)
Definition series : Type := list (string * float).

Fixpoint column_position (name : string) (cols : list string) : option nat :=
  match cols with
  | [] => None
  | c :: rest =>
      if String.eqb c name then Some O
      else option_map S (column_position name rest)
  end.

(** [d[name]]: a missing column raises [KeyError]. *)
Definition getitem (d : dataframe) (name : string) : result series :=
  match column_position name (df_columns d) with
  | Some p => ret (map (fun row => (fst row, nth p (snd row) NaN)) (df_rows d))
  | None => raise (KeyError name)
  end.

Fixpoint replace_nth (p : nat) (v : float) (cells : list float) : list float :=
  match p, cells with
  | _, [] => []
  | O, _ :: rest => v :: rest
  | S p', c :: rest => c :: replace_nth p' v rest
  end.

(** [d[name] = s]: replaces the column, or appends it when it is new.
    The series always comes from the same frame, so rows are matched by
    position. *)
Definition setitem (d : dataframe) (name : string) (s : series) : dataframe :=
  match column_position name (df_columns d) with
  | Some p =>
      {| df_columns := df_columns d;
         df_rows := map (fun rv : (string * list float) * (string * float) =>
                           (fst (fst rv), replace_nth p (snd (snd rv)) (snd (fst rv))))
                        (combine (df_rows d) s) |}
  | None =>
      {| df_columns := df_columns d ++ [name];
         df_rows := map (fun rv : (string * list float) * (string * float) =>
                           (fst (fst rv), snd (fst rv) ++ [snd (snd rv)]))
                        (combine (df_rows d) s) |}
  end.

(** [d.rename(columns=mapping)]. *)
Definition rename_one (mapping : list (string * string)) (c : string) : string :=
  match find (fun kv => String.eqb (fst kv) c) mapping with
  | Some kv => snd kv
  | None => c
  end.

Definition rename (mapping : list (string * string)) (d : dataframe) : dataframe :=
  {| df_columns := map (rename_one mapping) (df_columns d);
     df_rows := df_rows d |}.

Definition series_zip (op : float -> float -> float) (a b : series) : series :=
  map (fun xy : (string * float) * (string * float) =>
         (fst (fst xy), op (snd (fst xy)) (snd (snd xy))))
      (combine a b).

Definition series_map (f : float -> float) (a : series) : series :=
  map (fun x => (fst x, f (snd x))) a.

(** [x / y * 100] on two columns, in binary64. *)
Definition series_rate (x y : series) : series :=
  series_map (fun v => Binary64.mul v (Fin 100)) (series_zip Binary64.div x y).

Definition cell_desc_before (a b : float) : bool :=
  match a, b with
  | NaN, NaN => true
  | NaN, _ => false
  | _, NaN => true
  | _, _ => Float.leb b a
  end.

(** [d.sort_values(by=name, ascending=False)], missing values last. *)
Definition sort_values_desc (d : dataframe) (name : string) : result dataframe :=
  match column_position name (df_columns d) with
  | Some p =>
      ret {| df_columns := df_columns d;
             df_rows := sort_keys (fun a b : string * list float =>
                                     cell_desc_before (nth p (snd a) NaN)
                                                      (nth p (snd b) NaN))
                                  (df_rows d) |}
  | None => raise (KeyError name)
  end.

(** [s.idxmax()]: label of the first largest value, missing values
    skipped; raises on a column without any value. *)
Fixpoint idxmax_from (best : string * float) (s : series) : string :=
  match s with
  | [] => fst best
  | x :: rest =>
      if Float.ltb (snd best) (snd x) then idxmax_from x rest
      else idxmax_from best rest
  end.

Definition idxmax (s : series) : result string :=
  match filter (fun x => negb (Float.is_nan (snd x))) s with
  | [] => raise (ValueError "attempt to get argmax of an empty sequence")
  | x :: rest => ret (idxmax_from x rest)
  end.

(** [d.loc[label, name]]. *)
Definition loc (d : dataframe) (label name : string) : result float :=
  match find (fun row => String.eqb (fst row) label) (df_rows d) with
  | None => raise (KeyError label)
  | Some row =>
      match column_position name (df_columns d) with
      | Some p => ret (nth p (snd row) NaN)
      | None => raise (KeyError name)
      end
  end.

(** ** Return analysis *)

Definition is_cancelled_or_returned (o : order) : bool :=
  String.eqb (order_status o) "cancelled"
  || String.eqb (order_status o) "returned".

Definition is_cancelled_or_refunded (o : order) : bool :=
  String.eqb (order_status o) "cancelled"
  || String.eqb (order_status o) "refunded".

(** [df.groupby("product_category").agg({"order_id": "count",
    "order_status": <count of cancelled or returned>})]: the columns keep
    the names of the aggregated columns. *)
Definition agg_orders_returns (df : frame) : dataframe :=
  {| df_columns := ["order_id"%string; "order_status"%string];
     df_rows :=
       map (fun g : string * frame =>
              (fst g,
               [Float.of_Z (Z.of_nat (List.length (snd g)));
                Float.of_Z (count_true is_cancelled_or_returned (snd g))]))
           (by_category df) |}.

(** Category page. *)
Definition return_analysis (df : frame) : result dataframe :=
  let ra := rename [("order_id"%string, "Total_Orders"%string);
                    ("order_status"%string, "Returns_Refunds"%string)]
                   (agg_orders_returns df) in
  returns <- getitem ra "Returns_Refunds" ;;
  totals <- getitem ra "Total_Orders" ;;
  let ra := setitem ra "Return_Rate[%]"
                    (series_map (Binary64.round 1)
                                (series_rate returns totals)) in
  totals <- getitem ra "Total_Orders" ;;
  returns <- getitem ra "Returns_Refunds" ;;
  let ra := setitem ra "Completed_Orders" (series_zip Float.sub totals returns) in
  completed <- getitem ra "Completed_Orders" ;;
  totals <- getitem ra "Total_Orders" ;;
  let ra := setitem ra "Completion_Rate[%]"
                    (series_map (Binary64.round 1)
                                (series_rate completed totals)) in
  sort_values_desc ra "Return_Rate[%]".

(** Overall metrics of the category page. *)
Definition total_orders (df : frame) : Z := Z.of_nat (List.length df).

Definition total_returns (df : frame) : Z :=
  count_true is_cancelled_or_refunded df.

Definition overall_return_rate (df : frame) : float :=
  Float.mul (Float.div (Float.of_Z (total_returns df))
                       (Float.of_Z (total_orders df)))
            (Fin 100).

Definition total_lost_revenue (df : frame) : float :=
  series_sum (map order_value (filter is_cancelled_or_refunded df)).

(** Recommendations page: the same aggregation, without the renaming. *)
Definition recommendations_return (df : frame) : result (string * float) :=
  let ra := agg_orders_returns df in
  returns <- getitem ra "Returns_Refunds" ;;
  totals <- getitem ra "Total_Orders" ;;
  let ra := setitem ra "Return_Rate[%]" (series_rate returns totals) in
  rates <- getitem ra "Return_Rate[%]" ;;
  high_return_cat <- idxmax rates ;;
  high_return_rate <- loc ra high_return_cat "Return_Rate[%]" ;;
  ret (high_return_cat, high_return_rate).

(** ** Loader: seasons *)

Definition get_season (month : Z) : string :=
  if existsb (Z.eqb month) [12; 1; 2] then "Winter"
  else if existsb (Z.eqb month) [3; 4; 5] then "Spring"
  else if existsb (Z.eqb month) [6; 7; 8] then "Summer"
  else "Fall".

Definition season_order : list string :=
  [ "Winter"%string; "Spring"%string; "Summer"%string; "Fall"%string ].

(** [df.groupby(key)["order_value"].sum()]. *)
Definition revenue_by (key : order -> string) (df : frame) : series :=
  map (fun g : string * frame =>
         (fst g, series_sum (map order_value (snd g))))
      (groupby String.eqb string_leb key df).

Definition in_index (s : series) (label : string) : bool :=
  existsb (String.eqb label) (map fst s).

(** [s.reindex(labels)]: the values in the order of [labels], [NaN] for a
    label the series does not have. *)
Definition reindex (labels : list string) (s : series) : series :=
  map (fun l => (l, match find (fun x => String.eqb (fst x) l) s with
                    | Some x => snd x
                    | None => NaN
                    end))
      labels.

(** A series all of whose values are numbers. *)
Definition finite_series (s : series) : Prop :=
  Forall (fun x => exists q, snd x = Fin q) s.

Section Calendar.

(** [Series.dt.month] of the calendar library: the month of a timestamp. *)
Variable month_of : Z -> Z.

Definition order_month (o : order) : Z := month_of (order_date o).

Definition Season (o : order) : string := get_season (order_month o).

(** Seasonal page: revenue per season, in the order of [season_order],
    without the seasons that have no order. *)
Definition seasonal_rev (df : frame) : series :=
  let by_season := revenue_by Season df in
  reindex (filter (in_index by_season) season_order) by_season.

Definition peak_season (df : frame) : result string :=
  idxmax (seasonal_rev df).

(** The revenue of one season and the seasons that have orders. *)
Definition season_sum (df : frame) (s : string) : Q :=
  Qsum (map order_value (filter (fun o => String.eqb (Season o) s) df)).

Definition season_keys (df : frame) : list string :=
  sort_keys string_leb (unique String.eqb (map Season df)).

End Calendar.

(** ** Segmentation page: composite code and segment counts *)

(** [str] of an integer: its decimal digits. *)
Definition str_of_int (z : Z) : string :=
  NilZero.string_of_int (Z.to_int z).

(** [R_score.astype(str) + F_score.astype(str) + M_score.astype(str)]. *)
Definition RFM_Score (s : scored_row) : string :=
  ((str_of_int (R_score s) ++ str_of_int (F_score s))
   ++ str_of_int (M_score s))%string.

(** [Series.value_counts()]: each distinct value with the number of its
    occurrences, larger counts first. *)
Definition value_counts (values : list string) : list (string * Z) :=
  sort_keys (fun a b : string * Z => snd b <=? snd a)
            (map (fun v => (v, count_true (String.eqb v) values))
                 (unique String.eqb values)).

(** [rfm["Segment"].value_counts().sort_values(ascending=False)]. *)
Definition segment_counts (table : list scored_row) : list (string * Z) :=
  sort_keys (fun a b : string * Z => snd b <=? snd a)
            (value_counts (map Segment table)).

(** The two counts a first-seen rank is made of. *)
Definition count_below (x : Q) (l : list Q) : Z :=
  count_true (fun y => negb (Qle_bool x y)) l.

Definition count_equal (x : Q) (l : list Q) : Z :=
  count_true (fun y => Qeq_bool y x) l.

(** ** Revenue page: descriptive statistics *)

(** [Series.quantile(k / q)]: [NaN] on an empty column. *)
Definition series_quantile (xs : list Q) (k q : Z) : float :=
  match sort_Q xs with
  | [] => NaN
  | sorted => Fin (quantile sorted k q)
  end.

Definition Qmin2 (a b : Q) : Q := if Qle_bool a b then a else b.
Definition Qmax2 (a b : Q) : Q := if Qle_bool a b then b else a.

(** [Series.min] and [Series.max]: [NaN] on an empty column. *)
Definition series_min (xs : list Q) : float :=
  match xs with
  | [] => NaN
  | x :: rest => Fin (fold_left Qmin2 rest x)
  end.

Definition series_max_value (xs : list Q) : float :=
  match xs with
  | [] => NaN
  | x :: rest => Fin (fold_left Qmax2 rest x)
  end.

Record revenue_summary : Type := mkSummary {
  stat_total : float;
  stat_mean : float;
  stat_median : float;
  stat_min : float;
  stat_max : float;
  stat_q1 : float;
  stat_q3 : float;
  stat_iqr : float
}.

Definition revenue_stats (df : frame) : revenue_summary :=
  let values := map order_value df in
  {| stat_total := series_sum values;
     stat_mean := series_mean values;
     stat_median := series_quantile values 1 2;
     stat_min := series_min values;
     stat_max := series_max_value values;
     stat_q1 := series_quantile values 1 4;
     stat_q3 := series_quantile values 3 4;
     stat_iqr := Float.sub (series_quantile values 3 4)
                           (series_quantile values 1 4) |}.

(** ** Category page: status of the overall return rate *)

Definition overall_status (df : frame) : string :=
  if Float.gtb (overall_return_rate df) (Fin 25) then "Above Average"
  else "Good".

Inductive alert : Type := AlertError | AlertWarning | AlertSuccess.

Definition overall_alert (df : frame) : alert :=
  if Float.gtb (overall_return_rate df) (Fin 30) then AlertError
  else if Float.gtb (overall_return_rate df) (Fin 20) then AlertWarning
  else AlertSuccess.

(** ** The formulas of the specification *)

(** Coefficient of variation and the two projections, in the words of the
    specification, for a finite standard deviation and mean. *)
Definition spec_cov (std mean : Q) : Q := (std / mean * 100)%Q.
Definition spec_best_case (mean c : Q) : Q := (mean + c * mean)%Q.
Definition spec_worst_case (mean c : Q) : Q := (mean - c * mean)%Q.

(** The sample variance: the sum of the squared deviations from the
    arithmetic mean, divided by the number of values minus one. *)
Definition spec_sample_variance (xs : list Q) : Q :=
  let n := inject_Z (Z.of_nat (List.length xs)) in
  let mean := (Qsum xs / n)%Q in
  (Qsum (map (fun x => (x - mean) * (x - mean)) xs) / (n - 1))%Q.

(** Membership of an order's status in a set of statuses. *)
Definition status_in (statuses : list string) (o : order) : bool :=
  existsb (String.eqb (order_status o)) statuses.

Definition orders_in_category (df : frame) (c : string) : frame :=
  filter (fun o => String.eqb (product_category o) c) df.

(** Per-category counts and rate, and the rows of the return table they
    give. *)
Definition spec_category_total (df : frame) (c : string) : Z :=
  Z.of_nat (List.length (orders_in_category df c)).

Definition spec_category_returns (df : frame) (c : string) : Z :=
  count_true (status_in ["cancelled"%string; "returned"%string])
             (orders_in_category df c).

Definition spec_return_rate (df : frame) (c : string) : float :=
  Float.mul (Float.div (Float.of_Z (spec_category_returns df c))
                       (Float.of_Z (spec_category_total df c)))
            (Fin 100).

(** [(part / whole * 100).round(1)] as the return table stores it: the
    quotient, the product and the rounding to one decimal are those of
    binary64. *)
Definition rate_pct (part whole : float) : float :=
  Binary64.round 1 (Binary64.mul (Binary64.div part whole) (Fin 100)).

(** The five cells of a row of the return table, from the two counts. *)
Definition return_cells (total returns : float) : list float :=
  [ total; returns;
    rate_pct returns total;
    Float.sub total returns;
    rate_pct (Float.sub total returns) total ].

Definition return_row (g : string * frame) : string * list float :=
  (fst g,
   return_cells (Float.of_Z (Z.of_nat (List.length (snd g))))
                (Float.of_Z (count_true is_cancelled_or_returned (snd g)))).

(** The return rate of a row of the return table. *)
Definition rate_cell (row : string * list float) : float :=
  nth 2 (snd row) NaN.

Definition return_columns : list string :=
  [ "Total_Orders"%string; "Returns_Refunds"%string; "Return_Rate[%]"%string;
    "Completed_Orders"%string; "Completion_Rate[%]"%string ].

(** Invariants of the rows of the RFM tables. *)
Definition scored_ok (s : scored_row) : Prop :=
  is_score (R_score s) /\ is_score (F_score s) /\ is_score (M_score s)
  /\ Segment s = segment_customer (R_score s) (F_score s) (M_score s).

Definition rfm_row_ok (df : frame) (row : rfm_row) : Prop :=
  (exists d, Recency row = Some d /\ 0 <= d)
  /\ 1 <= Frequency row
  /\ exists o, In o df /\ customer_id o = rfm_customer row.

(** ** Sample tables *)

Definition day (n : Z) : Z := n * one_day.

Definition undiscounted_order : order :=
  mkOrder 1 1 0 100 0 "X" "completed".

(** Six orders of five customers in three categories. *)
Definition sample_orders : frame :=
  [ mkOrder 1 1 (day 10) 100 0 "X" "completed";
    mkOrder 2 2 (day 9) 50 0 "X" "returned";
    mkOrder 3 3 (day 8) 5 0 "Y" "cancelled";
    mkOrder 4 4 (day 7 + 5) 5 5 "Y" "cancelled";
    mkOrder 5 5 (day 6) 5 0 "Y" "refunded";
    mkOrder 6 5 (day 2) 5 0 "Z" "refunded" ].

(** Five customers whose last orders fall on the same day. *)
Definition same_day_orders : frame :=
  [ mkOrder 1 1 (day 10) 100 0 "X" "completed";
    mkOrder 2 2 (day 10) 50 0 "X" "returned";
    mkOrder 3 3 (day 10) 5 0 "Y" "cancelled";
    mkOrder 4 4 (day 10) 5 0 "Y" "cancelled";
    mkOrder 5 5 (day 10) 5 0 "Y" "refunded" ].

(** One category, three orders, one of them cancelled. *)
Definition one_in_three : frame :=
  [ mkOrder 1 1 (day 1) 10 0 "X" "cancelled";
    mkOrder 2 2 (day 2) 10 0 "X" "completed";
    mkOrder 3 3 (day 3) 10 0 "X" "completed" ].

(** A single order of value zero. *)
Definition free_order : frame :=
  [ mkOrder 1 1 (day 1) 0 0 "X" "completed" ].

(** A square root that is exact on squares of integers, for examples. *)
Definition sqrt_exact (q : Q) : Q :=
  let r := Qred q in
  Qmake (Z.sqrt (Qnum r)) (Pos.sqrt (Qden r)).

(** * Properties *)

(** ** Segment cascade *)

Lemma segment_in_labels (r f m : Z) :
  In (segment_customer r f m) segment_labels.
Proof.
  unfold segment_customer, segment_labels.
  repeat match goal with
         | |- context [if ?c then _ else _] => destruct c
         end; simpl; tauto.
Qed.

(** C1. For scores r, f, m in 1..5 the label computed by
    [segment_customer] is the label of the first rule that matches in the
    specification's ordered table (Champions, Loyal Customers, Potential
    Loyalists, At Risk, Need Attention, Promising, Lost), "Other" when
    none matches, and it is one of the eight segment labels. *)
Theorem segment_customer_first_match (r f m : Z) :
  is_score r -> is_score f -> is_score m ->
  segment_customer r f m = first_match spec_rules "Other" r f m
  /\ In (segment_customer r f m) segment_labels.
Proof.
  intros _ _ _. split; [| apply segment_in_labels].
  unfold segment_customer, spec_rules; simpl.
  rewrite !Z.geb_leb. reflexivity.
Qed.

Lemma segment_customer_first_match_witness :
  segment_customer 5 2 4 = "Need Attention"%string
  /\ In (segment_customer 5 2 4) segment_labels.
Proof.
  destruct (@segment_customer_first_match 5 2 4) as [H1 H2];
    try (unfold is_score; lia).
  split; [rewrite H1; reflexivity | exact H2].
Defined.

(** ** Recommendations page *)

(** C9. On the recommendations page the aggregation keeps the column
    names [order_id] and [order_status]; looking up [Returns_Refunds] or
    [Total_Orders] in it raises [KeyError] for every order table, so the
    block raises at its first lookup and never yields a category with the
    highest return rate. *)
Theorem recommendations_return_raises (df : frame) :
  df_columns (agg_orders_returns df) = ["order_id"%string; "order_status"%string]
  /\ getitem (agg_orders_returns df) "Returns_Refunds"
     = raise (KeyError "Returns_Refunds")
  /\ getitem (agg_orders_returns df) "Total_Orders"
     = raise (KeyError "Total_Orders")
  /\ recommendations_return df = raise (KeyError "Returns_Refunds")
  /\ forall found, recommendations_return df <> ret found.
Proof.
  repeat split; try reflexivity.
  intros found H. discriminate H.
Qed.

(** ** Discount impact *)

Lemma with_discount_none (df : frame) :
  (forall o, In o df -> (discount_applied o == 0)%Q) ->
  with_discount df = [].
Proof.
  intros Hzero. unfold with_discount.
  induction df as [| o rest IH]; simpl; [reflexivity |].
  assert (Ho : Qle_bool (discount_applied o) 0 = true).
  { apply Qle_bool_iff. rewrite (Hzero o) by (left; reflexivity).
    apply Qle_refl. }
  rewrite Ho. simpl. apply IH. intros o' Hin. apply Hzero. right; exact Hin.
Qed.

Lemma float_sub_nan (a : float) : Float.sub a NaN = NaN.
Proof. destruct a; reflexivity. Qed.

(** C4, as amended. When every order has a zero discount, the total
    revenue of the discounted partition is the empty sum, zero; its mean
    order value is [NaN]; the percentage difference of the two means is
    [NaN], and the note guarded by [percentage_diff > 0] is not shown. *)
Theorem discount_all_zero (df : frame) :
  (forall o, In o df -> (discount_applied o == 0)%Q) ->
  with_discount_revenue df = Fin 0
  /\ with_discount_avg df = NaN
  /\ percentage_diff df = NaN
  /\ discount_note_shown df = false.
Proof.
  intros Hzero.
  assert (Hpct : percentage_diff df = NaN).
  { unfold percentage_diff, with_discount_avg.
    rewrite (with_discount_none df Hzero). simpl.
    rewrite float_sub_nan. reflexivity. }
  unfold with_discount_revenue, with_discount_avg, discount_note_shown.
  rewrite Hpct, (with_discount_none df Hzero). repeat split.
Qed.

Lemma discount_all_zero_witness :
  with_discount_revenue [undiscounted_order] = Fin 0
  /\ with_discount_avg [undiscounted_order] = NaN
  /\ percentage_diff [undiscounted_order] = NaN
  /\ discount_note_shown [undiscounted_order] = false.
Proof.
  apply (@discount_all_zero [undiscounted_order]).
  intros o [<- | []]. reflexivity.
Defined.

(** C4, as stated, fails: with a single undiscounted order the revenue of
    the discounted partition is the number zero, not an undefined value. *)
Lemma discount_revenue_is_zero_not_undefined :
  (forall o, In o [undiscounted_order] -> (discount_applied o == 0)%Q)
  /\ with_discount_revenue [undiscounted_order] = Fin 0
  /\ Float.is_nan (with_discount_revenue [undiscounted_order]) = false.
Proof.
  split; [intros o [<- | []]; reflexivity | split; reflexivity].
Qed.

(** ** Volatility *)

Lemma div_finite (x y : Q) :
  ~ (y == 0)%Q -> Float.div (Fin x) (Fin y) = Fin (x / y).
Proof.
  intros Hy. unfold Float.div.
  destruct (Qeq_bool y 0) eqn:E; [| reflexivity].
  apply Qeq_bool_iff in E. contradiction.
Qed.

Lemma squared_deviations (m : Q) (xs : list Q) :
  (Qsum (map (fun x => (x - m) * (x - m)) xs)
   == Qsum (map (fun x => x * x) xs) - 2 * m * Qsum xs
      + inject_Z (Z.of_nat (List.length xs)) * (m * m))%Q.
Proof.
  induction xs as [| x rest IH].
  - simpl. ring.
  - cbn [map List.length]. unfold Qsum in *. cbn [fold_right].
    rewrite IH, Nat2Z.inj_succ, <- Z.add_1_r, inject_Z_plus.
    change (inject_Z 1) with 1%Q. ring.
Qed.

Lemma squared_deviations_nonneg (m : Q) (xs : list Q) :
  (0 <= Qsum (map (fun x => (x - m) * (x - m)) xs))%Q.
Proof.
  induction xs as [| x rest IH]; [apply Qle_refl |].
  cbn [map]. unfold Qsum in *. cbn [fold_right].
  pose proof (Qsqr_nonneg (x - m)) as Hsq.
  assert (Heq : ((x - m) ^ 2 == (x - m) * (x - m))%Q) by ring.
  rewrite Heq in Hsq. lra.
Qed.

(** C8. For an order table whose mean order value [m] is a non-zero
    number, [m] is the arithmetic mean.  With at least two orders the
    standard deviation is the square root, as the floating-point library
    computes it, of the sample variance: the sum of the squared
    deviations from the mean over n - 1, which is non-negative and
    satisfies (n - 1) * variance = sum of squares - n * mean ^ 2; where
    that square root is exact, the square of the standard deviation is
    the sample variance.  With a single order the standard deviation is
    [NaN].  The coefficient of variation is (std / mean) * 100; the best
    and worst case are mean + cov * mean and mean - cov * mean with cov
    at its percentage value (so they are mean +/- 100 * std); the
    volatility flag is raised exactly when cov > 50.  With a standard
    deviation of [NaN] so is cov, and the flag is down. *)
Theorem volatility_formulas (sqrtQ : Q -> Q) (df : frame) (m : Q) :
  series_mean (map order_value df) = Fin m ->
  ~ (m == 0)%Q ->
  let v := revenue_volatility sqrtQ df in
  let xs := map order_value df in
  let n := inject_Z (Z.of_nat (List.length df)) in
  mean_val v = Fin m
  /\ (m * n == Qsum xs)%Q
  /\ ((2 <= List.length df)%nat ->
      exists var,
        std_val v = Fin (sqrtQ var)
        /\ (var == spec_sample_variance xs)%Q
        /\ (var * (n - 1) == Qsum (map (fun x => x * x) xs) - n * (m * m))%Q
        /\ (0 <= var)%Q
        /\ ((sqrtQ var * sqrtQ var == var)%Q ->
            forall s, std_val v = Fin s ->
                      (s * s == spec_sample_variance xs)%Q))
  /\ ((List.length df <= 1)%nat -> std_val v = NaN)
  /\ (forall s, std_val v = Fin s ->
        cov v = Fin (spec_cov s m)
        /\ best_case v = Fin (spec_best_case m (spec_cov s m))
        /\ worst_case v = Fin (spec_worst_case m (spec_cov s m))
        /\ (spec_best_case m (spec_cov s m) == m + 100 * s)%Q
        /\ (spec_worst_case m (spec_cov s m) == m - 100 * s)%Q
        /\ (high_volatility v = true <-> (50 < spec_cov s m)%Q))
  /\ (std_val v = NaN -> cov v = NaN /\ high_volatility v = false).
Proof.
  intros Hmean Hm v xs n.
  assert (Hlen : List.length xs = List.length df)
    by (subst xs; apply length_map).
  assert (Hdef : m = (Qsum xs / n)%Q /\ (0 < n)%Q).
  { fold xs in Hmean. unfold series_mean in Hmean. subst n.
    rewrite <- Hlen.
    destruct xs as [| x rest]; [discriminate |].
    inversion Hmean. split; [reflexivity |].
    change 0%Q with (inject_Z 0). rewrite <- Zlt_Qlt.
    simpl List.length. lia. }
  destruct Hdef as [Hdef Hn].
  assert (Hmn : (m * n == Qsum xs)%Q).
  { rewrite Hdef. field. intros H. rewrite H in Hn. discriminate Hn. }
  assert (Hstd : std_val v
                 = if (List.length df <=? 1)%nat then NaN
                   else Fin (sqrtQ (Qsum (map (fun x => (x - m) * (x - m)) xs)
                                    / inject_Z (Z.of_nat (List.length df) - 1))%Q)).
  { subst v. unfold revenue_volatility. cbn [std_val]. unfold series_std.
    fold xs. fold xs in Hmean. rewrite Hmean, Hlen. reflexivity. }
  split; [subst v; unfold revenue_volatility; cbn [mean_val]; exact Hmean |].
  split; [exact Hmn |].
  split; [| split; [| split]].
  - intros H2. rewrite Hstd.
    destruct (List.length df <=? 1)%nat eqn:E;
      [apply Nat.leb_le in E; lia |].
    assert (Hn1 : (0 < n - 1)%Q).
    { subst n. apply Nat.leb_gt in E.
      assert (H1 : (inject_Z 2 <= inject_Z (Z.of_nat (List.length df)))%Q)
        by (rewrite <- Zle_Qle; lia).
      change (inject_Z 2) with 2%Q in H1. lra. }
    assert (Hdiv : (inject_Z (Z.of_nat (List.length df) - 1) == n - 1)%Q).
    { subst n. unfold Z.sub. rewrite inject_Z_plus. reflexivity. }
    eexists. split; [reflexivity |].
    assert (Hvar : (Qsum (map (fun x => (x - m) * (x - m)) xs)
                    / inject_Z (Z.of_nat (List.length df) - 1)
                    == spec_sample_variance xs)%Q).
    { unfold spec_sample_variance. rewrite Hlen. fold n. rewrite <- Hdef.
      rewrite Hdiv. reflexivity. }
    split; [exact Hvar |]. split; [| split].
    + rewrite Hdiv, squared_deviations, Hlen. fold n.
      rewrite <- Hmn. field. intros H. rewrite H in Hn1. discriminate Hn1.
    + rewrite Hdiv. apply Qle_shift_div_l; [exact Hn1 |].
      rewrite Qmult_0_l. apply squared_deviations_nonneg.
    + intros Hexact s Hs. inversion Hs as [Hs']. rewrite Hexact.
      exact Hvar.
  - intros H1. rewrite Hstd.
    apply Nat.leb_le in H1. rewrite H1. reflexivity.
  - intros s Hs. subst v. unfold revenue_volatility in *.
    cbn [std_val cov best_case worst_case high_volatility] in *.
    rewrite Hs, Hmean, (div_finite s Hm).
    cbn [Float.mul Float.add Float.sub Float.neg Float.gtb Float.ltb].
    split; [reflexivity |]. split; [reflexivity |]. split; [reflexivity |].
    split; [unfold spec_best_case, spec_cov; field; exact Hm |].
    split; [unfold spec_worst_case, spec_cov; field; exact Hm |].
    unfold spec_cov. split.
    + intros Hflag. apply negb_true_iff in Hflag.
      apply Qnot_le_lt. intros Hle. apply Qle_bool_iff in Hle. congruence.
    + intros Hlt. apply negb_true_iff.
      destruct (Qle_bool (s / m * 100) 50) eqn:E; [| reflexivity].
      apply Qle_bool_iff in E. exfalso. apply (Qlt_not_le _ _ Hlt E).
  - intros Hs. subst v. unfold revenue_volatility in *.
    cbn [std_val cov high_volatility] in *. rewrite Hs. split; reflexivity.
Qed.

Lemma volatility_formulas_witness :
  std_val (revenue_volatility sqrt_exact
             [mkOrder 1 1 0 1 0 "X" "completed";
              mkOrder 2 1 0 3 0 "X" "completed";
              mkOrder 3 2 0 5 0 "Y" "completed"])
  = Fin (2 # 1)
  /\ cov (revenue_volatility sqrt_exact
            [mkOrder 1 1 0 1 0 "X" "completed";
             mkOrder 2 1 0 3 0 "X" "completed";
             mkOrder 3 2 0 5 0 "Y" "completed"])
     = Fin (spec_cov (2 # 1) (9 # 3)).
Proof.
  pose (df := [mkOrder 1 1 0 1 0 "X" "completed";
               mkOrder 2 1 0 3 0 "X" "completed";
               mkOrder 3 2 0 5 0 "Y" "completed"]).
  assert (Hmean : series_mean (map order_value df) = Fin (9 # 3))
    by reflexivity.
  assert (Hm : ~ ((9 # 3) == 0)%Q) by (intros H; discriminate H).
  destruct (volatility_formulas sqrt_exact df Hmean Hm)
    as (_ & _ & _ & _ & Hfin & _).
  split; [reflexivity |].
  destruct (Hfin (2 # 1) eq_refl) as (Hcov & _).
  exact Hcov.
Defined.

(** ** Sorting and grouping *)

Section KeysFacts.

Variable K : Type.
Variable key_eqb : K -> K -> bool.
Variable key_leb : K -> K -> bool.
Hypothesis key_eqb_eq : forall a b, key_eqb a b = true <-> a = b.

Lemma insert_sorted_perm (k : K) (ks : list K) :
  Permutation (insert_sorted key_leb k ks) (k :: ks).
Proof.
  induction ks as [| k' rest IH]; simpl; [apply Permutation_refl |].
  destruct (key_leb k k'); [apply Permutation_refl |].
  eapply perm_trans; [apply perm_skip, IH | apply perm_swap].
Qed.

Lemma sort_keys_perm (ks : list K) :
  Permutation (sort_keys key_leb ks) ks.
Proof.
  induction ks as [| k rest IH]; simpl; [constructor |].
  eapply perm_trans; [apply insert_sorted_perm | apply perm_skip, IH].
Qed.

Lemma key_eqb_refl (a : K) : key_eqb a a = true.
Proof. apply key_eqb_eq. reflexivity. Qed.

Lemma key_eqb_neq (a b : K) : key_eqb a b = false <-> a <> b.
Proof.
  split.
  - intros E H. apply key_eqb_eq in H. congruence.
  - intros H. destruct (key_eqb a b) eqn:E; [| reflexivity].
    apply key_eqb_eq in E. contradiction.
Qed.

Lemma unique_In (k : K) (ks : list K) :
  In k (unique key_eqb ks) <-> In k ks.
Proof.
  induction ks as [| k' rest IH]; simpl; [tauto |].
  rewrite filter_In, IH. split.
  - intros [H | [H _]]; auto.
  - intros [H | H]; auto.
    destruct (key_eqb k k') eqn:E.
    + left. symmetry. apply key_eqb_eq. exact E.
    + right. split; [exact H | reflexivity].
Qed.

Lemma unique_NoDup (ks : list K) : NoDup (unique key_eqb ks).
Proof.
  induction ks as [| k rest IH]; simpl; constructor.
  - rewrite filter_In. intros [_ H].
    rewrite key_eqb_refl in H. discriminate H.
  - apply NoDup_filter. exact IH.
Qed.

Variable A : Type.
Variable key : A -> K.

Lemma groupby_keys (df : list A) :
  map fst (groupby key_eqb key_leb key df)
  = sort_keys key_leb (unique key_eqb (map key df)).
Proof.
  unfold groupby. rewrite map_map. simpl. apply map_id.
Qed.

Lemma groupby_keys_NoDup (df : list A) :
  NoDup (map fst (groupby key_eqb key_leb key df)).
Proof.
  rewrite groupby_keys.
  eapply Permutation_NoDup;
    [apply Permutation_sym, sort_keys_perm | apply unique_NoDup].
Qed.

Lemma groupby_In (df : list A) (k : K) (rows : list A) :
  In (k, rows) (groupby key_eqb key_leb key df) ->
  rows = filter (fun row => key_eqb (key row) k) df
  /\ In k (map key df).
Proof.
  unfold groupby. rewrite in_map_iff. intros (k' & Heq & Hin).
  inversion Heq; subst. split; [reflexivity |].
  apply unique_In.
  eapply Permutation_in; [apply sort_keys_perm | exact Hin].
Qed.

Lemma groupby_nonempty (df : list A) (k : K) (rows : list A) :
  In (k, rows) (groupby key_eqb key_leb key df) -> rows <> [].
Proof.
  intros Hin. destruct (groupby_In _ _ _ Hin) as [-> Hk].
  apply in_map_iff in Hk. destruct Hk as (o & Ho & Hin').
  intros Hnil.
  assert (Hmem : In o (filter (fun row => key_eqb (key row) k) df)).
  { apply filter_In. split; [exact Hin' |]. apply key_eqb_eq. exact Ho. }
  rewrite Hnil in Hmem. exact Hmem.
Qed.

Lemma groupby_covers (df : list A) (o : A) :
  In o df ->
  In (key o, filter (fun row => key_eqb (key row) (key o)) df)
     (groupby key_eqb key_leb key df).
Proof.
  intros Hin. unfold groupby. apply in_map_iff.
  exists (key o). split; [reflexivity |].
  eapply Permutation_in; [apply Permutation_sym, sort_keys_perm |].
  apply unique_In. apply in_map. exact Hin.
Qed.

(** Each row is counted in exactly one group. *)
Lemma indicator_absent (a : K) (ks : list K) :
  ~ In a ks ->
  list_sum (map (fun k => if key_eqb a k then 1 else 0)%nat ks) = 0%nat.
Proof.
  induction ks as [| k rest IH]; simpl; [reflexivity |].
  intros Hnot. destruct (key_eqb a k) eqn:E.
  - apply key_eqb_eq in E. exfalso. apply Hnot. left. congruence.
  - apply IH. intros H. apply Hnot. right. exact H.
Qed.

Lemma indicator_present (a : K) (ks : list K) :
  NoDup ks -> In a ks ->
  list_sum (map (fun k => if key_eqb a k then 1 else 0)%nat ks) = 1%nat.
Proof.
  induction 1 as [| k rest Hnot Hnd IH]; simpl; [intros [] |].
  intros [-> | Hin].
  - rewrite key_eqb_refl, indicator_absent by exact Hnot. reflexivity.
  - destruct (key_eqb a k) eqn:E.
    + apply key_eqb_eq in E. subst. contradiction.
    + apply IH. exact Hin.
Qed.

Lemma group_sizes_cons (ks : list K) (o : A) (rest : list A) :
  list_sum (map (fun k => List.length
                   (filter (fun row => key_eqb (key row) k) (o :: rest))) ks)
  = (list_sum (map (fun k => if key_eqb (key o) k then 1 else 0) ks)
     + list_sum (map (fun k => List.length
                        (filter (fun row => key_eqb (key row) k) rest)) ks))%nat.
Proof.
  induction ks as [| k ks' IHk]; simpl; [reflexivity |].
  simpl in IHk. rewrite IHk.
  destruct (key_eqb (key o) k); simpl; lia.
Qed.

Lemma group_sizes (ks : list K) (df : list A) :
  NoDup ks ->
  (forall o, In o df -> In (key o) ks) ->
  list_sum (map (fun k => List.length
                            (filter (fun row => key_eqb (key row) k) df)) ks)
  = List.length df.
Proof.
  intros Hnd. induction df as [| o rest IH]; intros Hall.
  - simpl. clear Hnd Hall.
    induction ks as [| k ks' IHk]; simpl; [reflexivity | exact IHk].
  - rewrite group_sizes_cons.
    rewrite IH by (intros o' H; apply Hall; right; exact H).
    rewrite (@indicator_present (key o) ks Hnd)
      by (apply Hall; left; reflexivity).
    reflexivity.
Qed.

Lemma groupby_sizes (df : list A) :
  list_sum (map (fun g => List.length (snd g))
                (groupby key_eqb key_leb key df))
  = List.length df.
Proof.
  unfold groupby. rewrite map_map. simpl.
  apply group_sizes.
  - eapply Permutation_NoDup;
      [apply Permutation_sym, sort_keys_perm | apply unique_NoDup].
  - intros o Hin.
    eapply Permutation_in; [apply Permutation_sym, sort_keys_perm |].
    apply unique_In. apply in_map. exact Hin.
Qed.

End KeysFacts.

(** ** RFM aggregation *)

Lemma fold_max_spec (l : list Z) (x : Z) :
  x <= fold_left Z.max l x
  /\ Forall (fun y => y <= fold_left Z.max l x) l
  /\ (fold_left Z.max l x = x \/ In (fold_left Z.max l x) l).
Proof.
  revert x. induction l as [| a l IH]; intros x; simpl.
  - repeat split; [lia | constructor | left; reflexivity].
  - destruct (IH (Z.max x a)) as (Hge & Hall & Hmem).
    split; [lia |]. split.
    + constructor; [lia | exact Hall].
    + destruct Hmem as [Hmem | Hmem]; [| right; right; exact Hmem].
      rewrite Hmem.
      destruct (Z.max_spec x a) as [[_ ->] | [_ ->]]; [right; left |left];
        reflexivity.
Qed.

Lemma series_max_spec (xs : list Z) (m : Z) :
  series_max xs = Some m -> In m xs /\ Forall (fun y => y <= m) xs.
Proof.
  destruct xs as [| x rest]; simpl; [discriminate |].
  intros H. inversion H as [Hm]. clear H.
  destruct (fold_max_spec rest x) as (Hge & Hall & Hmem).
  split.
  - destruct Hmem as [-> | Hmem]; [left; reflexivity | right; exact Hmem].
  - constructor; assumption.
Qed.

Lemma series_max_some (xs : list Z) :
  xs <> [] -> exists m, series_max xs = Some m.
Proof.
  destruct xs as [| x rest]; [congruence |].
  intros _. simpl. eexists. reflexivity.
Qed.

Lemma one_day_pos : 0 < one_day.
Proof. reflexivity. Qed.

Lemma customer_group (df : frame) (c : Z) (rows : frame) :
  In (c, rows) (groupby Z.eqb Z.leb customer_id df) ->
  rows <> []
  /\ forall o, In o rows -> In o df /\ customer_id o = c.
Proof.
  intros Hin. split.
  - eapply groupby_nonempty; [apply Z.eqb_eq | exact Hin].
  - destruct (groupby_In Z.eqb Z.leb Z.eqb_eq customer_id df c rows Hin)
      as [-> _].
    intros o Ho. apply filter_In in Ho. destruct Ho as [Ho Hc].
    split; [exact Ho | apply Z.eqb_eq; exact Hc].
Qed.

Lemma rfm_aggregate_In (df : frame) (row : rfm_row) :
  In row (rfm_aggregate df) ->
  exists c rows,
    In (c, rows) (groupby Z.eqb Z.leb customer_id df)
    /\ row = {| rfm_customer := c;
                Recency := days_since (reference_value df)
                                      (series_max (map order_date rows));
                Frequency := Z.of_nat (List.length rows);
                Monetary := Qsum (map order_value rows) |}.
Proof.
  unfold rfm_aggregate. rewrite in_map_iff.
  intros ([c rows] & Heq & Hin). exists c, rows. split; [exact Hin |].
  symmetry. exact Heq.
Qed.

Lemma group_recency (df : frame) (c : Z) (rows : frame) :
  In (c, rows) (groupby Z.eqb Z.leb customer_id df) ->
  exists d,
    days_since (reference_value df) (series_max (map order_date rows)) = Some d
    /\ 1 <= d.
Proof.
  intros Hin. destruct (customer_group df c rows Hin) as [Hne Hsub].
  destruct (series_max_some (xs := map order_date rows)) as [l Hl].
  { destruct rows; [congruence | discriminate]. }
  destruct (series_max_spec _ Hl) as [Hlin _].
  apply in_map_iff in Hlin. destruct Hlin as (o & Hdate & Ho).
  destruct (Hsub o Ho) as [Hodf _].
  destruct (series_max_some (xs := map order_date df)) as [latest Hlatest].
  { destruct df; [contradiction | discriminate]. }
  destruct (series_max_spec _ Hlatest) as [_ Hall].
  rewrite Forall_forall in Hall.
  assert (Hle : l <= latest).
  { apply Hall. rewrite <- Hdate. apply in_map. exact Hodf. }
  unfold reference_value. rewrite Hlatest, Hl. simpl.
  eexists. split; [reflexivity |].
  apply Z.div_le_lower_bound; [apply one_day_pos | lia].
Qed.

Lemma rfm_aggregate_nonempty (df : frame) :
  df <> [] -> rfm_aggregate df <> [].
Proof.
  destruct df as [| o rest]; [congruence |]. intros _ Hnil.
  assert (Hin : In (customer_id o,
                    filter (fun row => Z.eqb (customer_id row) (customer_id o))
                           (o :: rest))
                   (groupby Z.eqb Z.leb customer_id (o :: rest))).
  { apply groupby_covers; [apply Z.eqb_eq | left; reflexivity]. }
  unfold rfm_aggregate in Hnil. apply map_eq_nil in Hnil.
  rewrite Hnil in Hin. exact Hin.
Qed.

(** The checked table against the table computed on the integers. *)

Lemma mapM_ret (A B : Type) (f : A -> result B) (g : A -> B) (l : list A) :
  (forall a, In a l -> f a = ret (g a)) -> mapM f l = ret (map g l).
Proof.
  induction l as [| a rest IH]; intros H; simpl; [reflexivity |].
  rewrite (H a) by (left; reflexivity). simpl.
  rewrite IH by (intros a' Ha'; apply H; right; exact Ha').
  reflexivity.
Qed.

Lemma mapM_inv (A B : Type) (f : A -> result B) (g : A -> B) (l : list A)
      (bs : list B) :
  (forall a b, In a l -> f a = ret b -> b = g a) ->
  mapM f l = ret bs -> bs = map g l.
Proof.
  revert bs. induction l as [| a rest IH]; intros bs H; simpl.
  - intros E. inversion E. reflexivity.
  - destruct (f a) as [e | b] eqn:Ea; simpl; [discriminate |].
    destruct (mapM f rest) as [e | bs'] eqn:Er; simpl; [discriminate |].
    intros E. inversion E. subst bs. f_equal.
    + apply H; [left; reflexivity | exact Ea].
    + apply IH; [| reflexivity].
      intros a' b' Ha'. apply H. right. exact Ha'.
Qed.

Lemma reference_date_inv (df : frame) (ref : option Z) :
  reference_date df = ret ref -> ref = reference_value df.
Proof.
  unfold reference_date, reference_value.
  destruct (series_max (map order_date df)) as [latest |]; simpl.
  - destruct (latest + one_day <=? timestamp_max); [| discriminate].
    intros H. inversion H. reflexivity.
  - intros H. inversion H. reflexivity.
Qed.

Lemma recency_days_inv (ref last d : option Z) :
  recency_days ref last = ret d -> d = days_since ref last.
Proof.
  unfold recency_days, days_since.
  destruct ref as [r |], last as [l |];
    try (intros H; inversion H; reflexivity).
  destruct ((- timedelta_max <=? r - l) && (r - l <=? timedelta_max));
    [| discriminate].
  intros H. inversion H. reflexivity.
Qed.

Lemma rfm_inv (df : frame) (rows : list rfm_row) :
  rfm df = ret rows -> rows = rfm_aggregate df.
Proof.
  unfold rfm, rfm_aggregate.
  destruct (reference_date df) as [e | ref] eqn:Eref; simpl; [discriminate |].
  apply reference_date_inv in Eref. subst ref.
  apply mapM_inv. intros [c group] row _.
  destruct (recency_days (reference_value df)
                         (series_max (map order_date group)))
    as [e | d] eqn:Ed; simpl; [discriminate |].
  apply recency_days_inv in Ed. subst d.
  intros H. inversion H. reflexivity.
Qed.

Lemma reference_date_overflow (df : frame) (latest : Z) :
  series_max (map order_date df) = Some latest ->
  timestamp_max < latest + one_day ->
  reference_date df = raise err_timestamp_bounds
  /\ rfm df = raise err_timestamp_bounds.
Proof.
  intros Hlatest Hlate.
  assert (Href : reference_date df = raise err_timestamp_bounds).
  { unfold reference_date. rewrite Hlatest.
    destruct (latest + one_day <=? timestamp_max) eqn:E; [| reflexivity].
    apply Z.leb_le in E. lia. }
  split; [exact Href |]. unfold rfm. rewrite Href. reflexivity.
Qed.

Lemma rfm_in_range (df : frame) :
  dates_in_range df = true -> rfm df = ret (rfm_aggregate df).
Proof.
  unfold dates_in_range, rfm, rfm_aggregate, reference_date, reference_value.
  destruct (series_max (map order_date df)) as [latest |] eqn:Hlatest.
  - intros H. apply andb_true_iff in H. destruct H as [Href Hall].
    rewrite Href. cbn [bind ret option_map].
    rewrite forallb_forall in Hall.
    destruct (series_max_spec _ Hlatest) as [_ Hmax].
    rewrite Forall_forall in Hmax.
    apply mapM_ret. intros [c group] Hin.
    destruct (customer_group df c group Hin) as [Hne Hsub].
    destruct (series_max_some (xs := map order_date group)) as [l Hl].
    { destruct group; [congruence | discriminate]. }
    destruct (series_max_spec _ Hl) as [Hlin _].
    apply in_map_iff in Hlin. destruct Hlin as (o & Hdate & Ho).
    destruct (Hsub o Ho) as [Hodf _].
    pose proof (Hall o Hodf) as Hspan. apply Z.leb_le in Hspan.
    assert (Hle : l <= latest).
    { apply Hmax. rewrite <- Hdate. apply in_map. exact Hodf. }
    rewrite Hl. unfold recency_days, days_since.
    assert (Hin_range : (- timedelta_max <=? latest + one_day - l)
                        && (latest + one_day - l <=? timedelta_max) = true).
    { apply andb_true_iff. split; apply Z.leb_le.
      - pose proof one_day_pos. unfold timedelta_max. lia.
      - rewrite <- Hdate. exact Hspan. }
    rewrite Hin_range. reflexivity.
  - intros _. cbn [bind ret option_map].
    apply mapM_ret. intros [c group] Hin.
    destruct (series_max (map order_date group)); reflexivity.
Qed.

(** C10. For a non-empty order table no order is later than the latest
    order date.  Line 291 returns that date plus one day as the reference
    date when the sum is a timestamp, and raises otherwise, in which case
    there is no RFM table.  The RFM table is computed whenever the order
    dates leave room for the reference date and the differences, and in
    every RFM table that is computed the recency of every customer is a
    number of days that is at least 1. *)
Theorem recency_at_least_one_day (df : frame) :
  df <> [] ->
  (exists latest,
      series_max (map order_date df) = Some latest
      /\ Forall (fun o => order_date o <= latest) df
      /\ (latest + one_day <= timestamp_max ->
          reference_date df = ret (Some (latest + one_day)))
      /\ (timestamp_max < latest + one_day ->
          reference_date df = raise err_timestamp_bounds
          /\ rfm df = raise err_timestamp_bounds))
  /\ (dates_in_range df = true -> exists rows, rfm df = ret rows)
  /\ (forall rows,
        rfm df = ret rows ->
        rows <> []
        /\ Forall (fun row => exists d, Recency row = Some d /\ 1 <= d) rows).
Proof.
  intros Hne. split; [| split].
  - destruct (series_max_some (xs := map order_date df)) as [latest Hlatest].
    { destruct df; [congruence | discriminate]. }
    exists latest. split; [exact Hlatest |]. split; [| split].
    + destruct (series_max_spec _ Hlatest) as [_ Hall].
      rewrite Forall_forall in *. intros o Ho. apply Hall.
      apply in_map. exact Ho.
    + intros Hfit. unfold reference_date. rewrite Hlatest.
      apply Z.leb_le in Hfit. rewrite Hfit. reflexivity.
    + apply reference_date_overflow. exact Hlatest.
  - intros Hrange. eexists. apply rfm_in_range. exact Hrange.
  - intros rows Hrows. apply rfm_inv in Hrows. subst rows. split.
    + apply rfm_aggregate_nonempty. exact Hne.
    + apply Forall_forall. intros row Hrow.
      destruct (rfm_aggregate_In df row Hrow) as (c & group & Hin & ->).
      simpl. eapply group_recency. exact Hin.
Qed.

Lemma recency_at_least_one_day_witness :
  exists rows,
    rfm sample_orders = ret rows
    /\ Forall (fun row => exists d, Recency row = Some d /\ 1 <= d) rows.
Proof.
  assert (Hne : sample_orders <> []) by discriminate.
  destruct (recency_at_least_one_day Hne) as (_ & Hreturns & Hrows).
  destruct (Hreturns eq_refl) as [rows Hrfm].
  exists rows. split; [exact Hrfm |].
  exact (proj2 (Hrows rows Hrfm)).
Defined.

(** ** Quantile scores *)

Lemma astype_int_spec (xs : list (option Z)) (zs : list Z) :
  astype_int xs = ret zs -> xs = map Some zs.
Proof.
  revert zs. induction xs as [| [z |] rest IH]; intros zs; simpl.
  - intros H. inversion H. reflexivity.
  - destruct (astype_int rest) as [e | zs'] eqn:E; simpl; [discriminate |].
    intros H. inversion H. subst. simpl. f_equal. apply IH. reflexivity.
  - discriminate.
Qed.

Lemma label_of_In (labels : list Z) (id : option nat) (z : Z) :
  label_of labels id = Some z -> In z labels.
Proof.
  destruct id as [i |]; simpl; [| discriminate].
  apply nth_error_In.
Qed.

Lemma bins_to_cuts_labels (x : list (option Q)) (bins : list Q)
      (labels : list Z) (dup : duplicates_policy) (cats : list (option Z)) :
  bins_to_cuts x bins labels dup = ret cats ->
  List.length cats = List.length x
  /\ forall z, In (Some z) cats -> In z labels.
Proof.
  unfold bins_to_cuts.
  match goal with
  | |- bind ?m _ = _ -> _ => destruct m as [e | bins']
  end; simpl; [discriminate |].
  destruct (negb _); [discriminate |].
  destruct (negb _); [discriminate |].
  intros H. inversion H. subst. clear H. split.
  - apply length_map.
  - intros z Hz. apply in_map_iff in Hz. destruct Hz as (v & Hv & _).
    eapply label_of_In. exact Hv.
Qed.

Section ScoringFacts.

Variable quantiles : list Q -> nat -> list Q.

Lemma qcut_labels (x : list (option Q)) (q : nat) (labels : list Z)
      (dup : duplicates_policy) (cats : list (option Z)) :
  qcut_with quantiles x q labels dup = ret cats ->
  List.length cats = List.length x
  /\ forall z, In (Some z) cats -> In z labels.
Proof.
  unfold qcut_with. destruct (sort_Q (dropna x)); [discriminate |].
  apply bins_to_cuts_labels.
Qed.

Lemma scores_from_labels (x : list (option Q)) (labels : list Z)
      (scores : list Z) :
  (cats <- qcut_with quantiles x 5 labels DupDrop ;; astype_int cats)
  = ret scores ->
  List.length scores = List.length x
  /\ Forall (fun z => In z labels) scores.
Proof.
  destruct (qcut_with quantiles x 5 labels DupDrop) as [e | cats] eqn:E;
    simpl; [discriminate |].
  intros H. apply astype_int_spec in H. subst cats.
  destruct (qcut_labels _ _ _ _ E) as [Hlen Hin].
  rewrite length_map in Hlen. split; [exact Hlen |].
  apply Forall_forall. intros z Hz. apply Hin. apply in_map. exact Hz.
Qed.

Lemma rank_from_length (all seen rest : list Q) :
  List.length (rank_from all seen rest) = List.length rest.
Proof.
  revert seen. induction rest as [| x tl IH]; intros seen; simpl;
    [reflexivity | f_equal; apply IH].
Qed.

Lemma score_recency_spec (rows : list rfm_row) (rs : list Z) :
  score_recency_with quantiles rows = ret rs ->
  List.length rs = List.length rows /\ Forall is_score rs.
Proof.
  intros H. apply scores_from_labels in H. destruct H as [Hlen Hall].
  unfold recency_column in Hlen. rewrite length_map in Hlen.
  split; [exact Hlen |].
  eapply Forall_impl; [| exact Hall].
  unfold is_score. simpl. intros z Hz. lia.
Qed.

Lemma score_by_rank_spec (col : list Q) (scores : list Z) :
  score_by_rank_with quantiles col = ret scores ->
  List.length scores = List.length col /\ Forall is_score scores.
Proof.
  intros H. apply scores_from_labels in H. destruct H as [Hlen Hall].
  rewrite length_map in Hlen. unfold rank_first in Hlen.
  rewrite rank_from_length in Hlen.
  split; [exact Hlen |].
  eapply Forall_impl; [| exact Hall].
  unfold is_score. simpl. intros z Hz. lia.
Qed.

Lemma zip_scores_spec (rows : list rfm_row) :
  forall rs fs ms,
    List.length rs = List.length rows ->
    List.length fs = List.length rows ->
    List.length ms = List.length rows ->
    Forall is_score rs -> Forall is_score fs -> Forall is_score ms ->
    map rfm_base (zip_scores rows rs fs ms) = rows
    /\ Forall scored_ok (zip_scores rows rs fs ms).
Proof.
  induction rows as [| row rows' IH];
    intros [| r rs] [| f fs] [| m ms]; simpl; try discriminate.
  - intros. split; [reflexivity | constructor].
  - intros Hr Hf Hm Hrs Hfs Hms.
    inversion Hrs; inversion Hfs; inversion Hms; subst.
    destruct (IH rs fs ms) as [Hbase Hok]; try lia; try assumption.
    split; [f_equal; exact Hbase |].
    constructor; [| exact Hok].
    unfold scored_ok; simpl.
    split; [assumption | split; [assumption | split; [assumption |]]].
    reflexivity.
Qed.

Lemma score_rfm_spec (rows : list rfm_row) (table : list scored_row) :
  score_rfm quantiles rows = ret table ->
  map rfm_base table = rows /\ Forall scored_ok table.
Proof.
  unfold score_rfm.
  destruct (score_recency_with quantiles rows) as [e | rs] eqn:Er; simpl;
    [discriminate |].
  destruct (score_by_rank_with quantiles (frequency_column rows))
    as [e | fs] eqn:Ef; simpl; [discriminate |].
  destruct (score_by_rank_with quantiles (monetary_column rows))
    as [e | ms] eqn:Em; simpl; [discriminate |].
  intros H. inversion H. subst table. clear H.
  destruct (score_recency_spec _ Er) as [Hlr Hr].
  destruct (score_by_rank_spec _ Ef) as [Hlf Hf].
  destruct (score_by_rank_spec _ Em) as [Hlm Hm].
  unfold frequency_column in Hlf. unfold monetary_column in Hlm.
  rewrite length_map in Hlf, Hlm.
  apply zip_scores_spec; assumption.
Qed.

End ScoringFacts.

Lemma rfm_scored_inv (quantiles : list Q -> nat -> list Q) (df : frame)
      (table : list scored_row) :
  rfm_scored quantiles df = ret table ->
  exists rows, rfm df = ret rows /\ score_rfm quantiles rows = ret table.
Proof.
  unfold rfm_scored. destruct (rfm df) as [e | rows]; simpl; [discriminate |].
  intros H. exists rows. split; [reflexivity | exact H].
Qed.

(** C5. For a non-empty order table the RFM table is computed whenever
    the order dates leave room for the reference date.  Every RFM table
    that is computed has one row per distinct customer of the orders, and
    at least one row; every row has a recency of at least 0 days and a
    frequency of at least 1, and belongs to a customer with an order in
    the table, so that customers without orders do not appear.  Whenever
    the quantile scoring of a table returns, whatever the function that
    computes the bin edges, the rows are those of the table and each of
    the three scores is an integer from 1 to 5; and a scored table of the
    page is the scoring of the RFM table. *)
Theorem rfm_rows_invariants (df : frame) :
  df <> [] ->
  (dates_in_range df = true -> exists rows, rfm df = ret rows)
  /\ (forall rows,
        rfm df = ret rows ->
        rows <> []
        /\ Forall (rfm_row_ok df) rows
        /\ NoDup (map rfm_customer rows)
        /\ (forall o, In o df -> In (customer_id o) (map rfm_customer rows)))
  /\ (forall quantiles rows table,
        score_rfm quantiles rows = ret table ->
        map rfm_base table = rows
        /\ Forall (fun s => is_score (R_score s) /\ is_score (F_score s)
                            /\ is_score (M_score s)) table)
  /\ (forall quantiles table,
        rfm_scored quantiles df = ret table ->
        exists rows, rfm df = ret rows /\ score_rfm quantiles rows = ret table).
Proof.
  intros Hne.
  assert (Hcust : map rfm_customer (rfm_aggregate df)
                  = map fst (groupby Z.eqb Z.leb customer_id df)).
  { unfold rfm_aggregate. rewrite map_map. apply map_ext.
    intros [c rows]. reflexivity. }
  split; [| split; [| split]].
  - intros Hrange. eexists. apply rfm_in_range. exact Hrange.
  - intros rows Hrows. apply rfm_inv in Hrows. subst rows.
    split; [apply rfm_aggregate_nonempty; exact Hne |].
    split; [| split].
    + apply Forall_forall. intros row Hrow.
      destruct (rfm_aggregate_In df row Hrow) as (c & rows & Hin & ->).
      destruct (customer_group df c rows Hin) as [Hrows Hsub].
      unfold rfm_row_ok; simpl. split; [| split].
      * destruct (group_recency df c rows Hin) as (d & Hd & Hpos).
        exists d. split; [exact Hd | lia].
      * destruct rows as [| o rows']; [congruence | simpl List.length; lia].
      * destruct rows as [| o rows']; [congruence |].
        exists o. apply Hsub. left. reflexivity.
    + rewrite Hcust. apply groupby_keys_NoDup. apply Z.eqb_eq.
    + intros o Ho. rewrite Hcust.
      change (customer_id o)
        with (fst (customer_id o,
                   filter (fun row => Z.eqb (customer_id row) (customer_id o))
                          df)).
      apply in_map. apply groupby_covers; [apply Z.eqb_eq | exact Ho].
  - intros quantiles rows table Htable.
    destruct (score_rfm_spec _ _ Htable) as [Hbase Hok].
    split; [exact Hbase |].
    eapply Forall_impl; [| exact Hok].
    intros s (Hr & Hf & Hm & _).
    split; [exact Hr | split; [exact Hf | exact Hm]].
  - intros quantiles table. apply rfm_scored_inv.
Qed.

Lemma rfm_rows_invariants_witness :
  exists rows table,
    rfm sample_orders = ret rows
    /\ score_rfm quantile_edges rows = ret table
    /\ Forall (rfm_row_ok sample_orders) rows
    /\ Forall (fun s => is_score (R_score s) /\ is_score (F_score s)
                        /\ is_score (M_score s)) table.
Proof.
  assert (Hne : sample_orders <> []) by discriminate.
  destruct (rfm_rows_invariants Hne) as (Hreturns & Hrows & Hscored & _).
  destruct (Hreturns eq_refl) as [rows Hrfm].
  destruct (score_rfm quantile_edges rows) as [e | table] eqn:Etable.
  - exfalso. apply rfm_inv in Hrfm. subst rows.
    vm_compute in Etable. discriminate Etable.
  - exists rows, table. split; [exact Hrfm |]. split; [exact Etable |].
    split; [exact (proj1 (proj2 (Hrows rows Hrfm))) |].
    exact (proj2 (Hscored quantile_edges rows table Etable)).
Defined.

(** C2. The quantile scoring can raise.  With five customers whose last
    orders fall on the same day every recency is one day, the six
    quantile edges coincide, dropping the duplicates leaves a single edge,
    and the five labels no longer fit: the recency scoring raises
    [ValueError] and the whole scored table is lost, the frequency and
    monetary scores included, which on their own are computed. *)
Theorem same_day_scoring_raises :
  map Recency (rfm_aggregate same_day_orders)
  = [Some 1; Some 1; Some 1; Some 1; Some 1]
  /\ score_recency (rfm_aggregate same_day_orders) = raise err_label_count
  /\ score_by_rank (frequency_column (rfm_aggregate same_day_orders))
     = ret [1; 2; 3; 4; 5]
  /\ rfm_table same_day_orders = raise err_label_count.
Proof.
  repeat split; vm_compute; reflexivity.
Qed.

(** ** Pareto cut *)

Lemma cumsum_from_lower (acc : Q) (xs : list Q) :
  Forall (fun r => 0 <= r)%Q xs ->
  Forall (fun c => acc <= c)%Q (cumsum_from acc xs).
Proof.
  revert acc. induction xs as [| x rest IH]; intros acc Hpos; simpl;
    [constructor |].
  inversion Hpos as [| ? ? Hx Hrest]; subst.
  constructor; [lra |].
  eapply Forall_impl; [| apply IH; exact Hrest].
  simpl. intros c Hc. lra.
Qed.

Lemma cumsum_from_sorted (acc : Q) (xs : list Q) :
  Forall (fun r => 0 <= r)%Q xs ->
  StronglySorted Qle (cumsum_from acc xs).
Proof.
  revert acc. induction xs as [| x rest IH]; intros acc Hpos; simpl;
    [constructor |].
  inversion Hpos as [| ? ? Hx Hrest]; subst.
  constructor; [apply IH; exact Hrest |].
  apply cumsum_from_lower. exact Hrest.
Qed.

Lemma cumsum_from_total (acc : Q) (xs : list Q) :
  xs <> [] ->
  exists c, In c (cumsum_from acc xs) /\ (c == acc + Qsum xs)%Q.
Proof.
  revert acc. induction xs as [| x rest IH]; intros acc Hne; [congruence |].
  destruct rest as [| y rest'].
  - exists (acc + x)%Q. split; [left; reflexivity |]. simpl. lra.
  - destruct (IH (acc + x)%Q) as (c & Hin & Hc); [discriminate |].
    exists c. split; [right; exact Hin |].
    rewrite Hc. simpl. lra.
Qed.

Lemma cumsum_length (xs : list Q) :
  List.length (cumsum xs) = List.length xs.
Proof.
  unfold cumsum. generalize 0%Q.
  induction xs as [| x rest IH]; intros acc; simpl;
    [reflexivity | f_equal; apply IH].
Qed.

Lemma share_monotone (total c c' : Q) :
  (0 < total)%Q -> (c <= c')%Q -> (c / total * 100 <= c' / total * 100)%Q.
Proof.
  intros Hpos Hle.
  apply Qmult_le_compat_r; [| discriminate].
  unfold Qdiv. apply Qmult_le_compat_r; [exact Hle |].
  apply Qlt_le_weak. apply Qinv_lt_0_compat. exact Hpos.
Qed.

Lemma sorted_threshold_split (p : Q -> bool) (l : list Q) :
  (forall c c', (c <= c')%Q -> p c' = true -> p c = true) ->
  StronglySorted Qle l ->
  exists l1 l2,
    l = l1 ++ l2
    /\ Forall (fun c => p c = true) l1
    /\ Forall (fun c => p c = false) l2.
Proof.
  intros Hanti. induction 1 as [| h t Hsorted IH Hall].
  - exists [], []. split; [reflexivity | split; constructor].
  - destruct (p h) eqn:Eh.
    + destruct IH as (l1 & l2 & -> & H1 & H2).
      exists (h :: l1), l2.
      split; [reflexivity | split; [| exact H2]].
      apply Forall_cons; assumption.
    + exists [], (h :: t).
      split; [reflexivity | split; [apply Forall_nil |]].
      apply Forall_cons; [exact Eh |].
      eapply Forall_impl; [| exact Hall].
      simpl. intros c Hc. destruct (p c) eqn:Ec; [| reflexivity].
      rewrite (Hanti h c Hc Ec) in Eh. discriminate Eh.
Qed.

Lemma filter_all (A : Type) (p : A -> bool) (l : list A) :
  Forall (fun a => p a = true) l -> filter p l = l.
Proof.
  induction 1 as [| a l Ha _ IH]; simpl; [reflexivity |].
  rewrite Ha, IH. reflexivity.
Qed.

Lemma filter_none (A : Type) (p : A -> bool) (l : list A) :
  Forall (fun a => p a = false) l -> filter p l = [].
Proof.
  induction 1 as [| a l Ha _ IH]; simpl; [reflexivity |].
  rewrite Ha, IH. reflexivity.
Qed.

Lemma firstn_exact (A : Type) (l1 l2 : list A) :
  firstn (List.length l1) (l1 ++ l2) = l1.
Proof.
  induction l1 as [| a l1 IH]; simpl; [reflexivity | f_equal; exact IH].
Qed.

Lemma skipn_exact (A : Type) (l1 l2 : list A) :
  skipn (List.length l1) (l1 ++ l2) = l2.
Proof.
  induction l1 as [| a l1 IH]; simpl; [reflexivity | exact IH].
Qed.

(** C3, as amended. For category revenues that are non-negative and have
    a positive total, the size k of the 80% set, the number of cumulative
    shares that are at most 80, is smaller than the number of categories;
    the first k cumulative shares are at most 80 and every later one,
    beginning with the share at position k, exceeds 80; the 20% set has
    the remaining categories, at least one. *)
Theorem pareto_cut_is_first_exceeding (revenues : list Q) :
  Forall (fun r => 0 <= r)%Q revenues ->
  (0 < Qsum revenues)%Q ->
  let pct := cumsum_revenue_pct revenues in
  let k := num_categories_80 revenues in
  (k < List.length revenues)%nat
  /\ List.length pct = List.length revenues
  /\ Forall (fun p => Float.leb p (Fin 80) = true) (firstn k pct)
  /\ Forall (fun p => Float.gtb p (Fin 80) = true) (skipn k pct)
  /\ (num_categories_20 revenues = List.length revenues - k)%nat.
Proof.
  intros Hpos Htotal pct k.
  assert (Hne : revenues <> []).
  { intros ->. simpl in Htotal. apply (Qlt_irrefl 0). exact Htotal. }
  assert (Hnz : ~ (Qsum revenues == 0)%Q).
  { intros H. rewrite H in Htotal. apply (Qlt_irrefl 0). exact Htotal. }
  set (share := fun c : Q => (c / Qsum revenues * 100)%Q).
  assert (Hpct : pct = map (fun c => Fin (share c)) (cumsum revenues)).
  { subst pct. unfold cumsum_revenue_pct, series_sum. apply map_ext.
    intros c. rewrite (div_finite c Hnz). reflexivity. }
  destruct (sorted_threshold_split (fun c => Qle_bool (share c) 80)
              (l := cumsum revenues)) as (l1 & l2 & Hsplit & H1 & H2).
  { intros c c' Hle Hc'. apply Qle_bool_iff. apply Qle_bool_iff in Hc'.
    eapply Qle_trans; [apply share_monotone; eassumption | exact Hc']. }
  { apply cumsum_from_sorted. exact Hpos. }
  assert (Hk : k = List.length l1).
  { subst k. unfold num_categories_80. fold pct. rewrite Hpct, Hsplit.
    rewrite map_app, filter_app, !length_app.
    rewrite (filter_all (fun p => Float.leb p (Fin 80)))
      by (apply Forall_map; exact H1).
    rewrite (filter_none (fun p => Float.leb p (Fin 80)))
      by (apply Forall_map; exact H2).
    rewrite length_map. simpl. lia. }
  assert (Hl2 : l2 <> []).
  { destruct (cumsum_from_total 0 Hne) as (c & Hin & Hc).
    fold (cumsum revenues) in Hin. rewrite Hsplit in Hin.
    apply in_app_or in Hin. destruct Hin as [Hin | Hin].
    - exfalso. rewrite Forall_forall in H1. specialize (H1 c Hin).
      apply Qle_bool_iff in H1. unfold share in H1. rewrite Hc in H1.
      assert (Hfull : ((0 + Qsum revenues) / Qsum revenues * 100 == 100)%Q)
        by (field; exact Hnz).
      rewrite Hfull in H1. apply (Qlt_not_le 80 100); [reflexivity | exact H1].
    - intros ->. exact Hin. }
  assert (Hlen : List.length pct = List.length revenues).
  { subst pct. unfold cumsum_revenue_pct. rewrite length_map.
    apply cumsum_length. }
  split; [| split; [exact Hlen | split; [| split]]].
  - rewrite <- Hlen, Hpct, Hsplit, length_map, length_app, Hk.
    destruct l2; [congruence | simpl; lia].
  - rewrite Hk, Hpct, Hsplit, map_app.
    rewrite <- (length_map (fun c => Fin (share c)) l1), firstn_exact.
    apply Forall_map. exact H1.
  - rewrite Hk, Hpct, Hsplit, map_app.
    rewrite <- (length_map (fun c => Fin (share c)) l1), skipn_exact.
    apply Forall_map. eapply Forall_impl; [| exact H2].
    simpl. intros c Hc. unfold Float.gtb. simpl. rewrite Hc. reflexivity.
  - reflexivity.
Qed.

Lemma pareto_cut_is_first_exceeding_witness :
  (num_categories_80 [50; 30; 20]%Q < 3)%nat
  /\ Forall (fun p => Float.gtb p (Fin 80) = true)
            (skipn (num_categories_80 [50; 30; 20]%Q)
                   (cumsum_revenue_pct [50; 30; 20]%Q)).
Proof.
  assert (Hpos : Forall (fun r => 0 <= r)%Q [50; 30; 20]%Q)
    by (repeat constructor; discriminate).
  assert (Htotal : (0 < Qsum [50; 30; 20])%Q) by reflexivity.
  destruct (pareto_cut_is_first_exceeding Hpos Htotal)
    as (Hk & _ & _ & Hlater & _).
  split; [exact Hk | exact Hlater].
Defined.

(** C3, as stated, fails when the revenues are all zero: every cumulative
    share is [NaN], the 80% set is empty although not all categories are
    included, and the share of the next category does not exceed 80. *)
Lemma pareto_zero_total_counterexample :
  Forall (fun r => 0 <= r)%Q [0%Q]
  /\ num_categories_80 [0%Q] = 0%nat
  /\ (num_categories_80 [0%Q] < List.length [0%Q])%nat
  /\ nth (num_categories_80 [0%Q]) (cumsum_revenue_pct [0%Q]) (Fin 0) = NaN
  /\ Float.gtb (nth (num_categories_80 [0%Q]) (cumsum_revenue_pct [0%Q]) (Fin 0))
               (Fin 80) = false.
Proof.
  repeat split; try reflexivity.
  - constructor; [discriminate | constructor].
  - vm_compute. lia.
Qed.

(** ** Rounding *)

Lemma round_half_even_near (x : Q) :
  (x - (1 # 2) <= inject_Z (Float.round_half_even x) <= x + (1 # 2))%Q.
Proof.
  unfold Float.round_half_even.
  pose proof (Qfloor_le x) as Hlo.
  pose proof (Qlt_floor x) as Hhi.
  rewrite inject_Z_plus in Hhi.
  change (inject_Z 1) with 1%Q in Hhi.
  destruct (Qcompare_spec (x - inject_Z (Qfloor x)) (1 # 2)) as [E | E | E].
  - destruct (Z.even (Qfloor x)).
    + lra.
    + rewrite inject_Z_plus. change (inject_Z 1) with 1%Q. lra.
  - lra.
  - rewrite inject_Z_plus. change (inject_Z 1) with 1%Q. lra.
Qed.

Lemma round_q_1_near (x : Q) :
  (x - (1 # 20) <= Float.round_q 1 x <= x + (1 # 20))%Q.
Proof.
  unfold Float.round_q.
  change (inject_Z (10 ^ Z.of_nat 1)) with 10%Q.
  pose proof (round_half_even_near (x * 10)) as H.
  set (r := inject_Z (Float.round_half_even (x * 10))) in *.
  assert (Hdiv : (r / 10 == r * (1 # 10))%Q) by (field; discriminate).
  rewrite Hdiv. lra.
Qed.

Lemma inject_nat_succ (n : nat) :
  (inject_Z (Z.of_nat (S n)) == inject_Z (Z.of_nat n) + 1)%Q.
Proof.
  rewrite Nat2Z.inj_succ. unfold Z.succ. rewrite inject_Z_plus. reflexivity.
Qed.

Lemma rounded_sum_near (xs : list Q) :
  (Qsum xs - inject_Z (Z.of_nat (List.length xs)) * (1 # 20)
   <= Qsum (map (Float.round_q 1) xs)
   <= Qsum xs + inject_Z (Z.of_nat (List.length xs)) * (1 # 20))%Q.
Proof.
  induction xs as [| x rest IH].
  - simpl. change (inject_Z 0) with 0%Q. lra.
  - cbn [map List.length]. rewrite inject_nat_succ.
    unfold Qsum in *. cbn [fold_right].
    pose proof (round_q_1_near x). lra.
Qed.

Lemma Qsum_perm (l l' : list Q) :
  Permutation l l' -> (Qsum l == Qsum l')%Q.
Proof.
  induction 1 as [| x l l' _ IH | x y l | l l' l'' _ IH1 _ IH2]; simpl.
  - reflexivity.
  - rewrite IH. reflexivity.
  - ring.
  - rewrite IH1. exact IH2.
Qed.

Lemma Zsum_perm (l l' : list Z) :
  Permutation l l' -> Zsum l = Zsum l'.
Proof.
  induction 1 as [| x l l' _ IH | x y l | l l' l'' _ IH1 _ IH2]; simpl; lia.
Qed.

Lemma Qsum_shares (total : Q) (xs : list Q) :
  ~ (total == 0)%Q ->
  (Qsum (map (fun x => x / total * 100) xs) == Qsum xs / total * 100)%Q.
Proof.
  intros Hnz. induction xs as [| x rest IH]; simpl.
  - field. exact Hnz.
  - rewrite IH. field. exact Hnz.
Qed.

Lemma fsum_finite (qs : list Q) :
  fsum_skipna (map Fin qs) = Fin (Qsum qs).
Proof.
  induction qs as [| q rest IH]; [reflexivity |].
  unfold fsum_skipna in *. cbn [map fold_right Float.is_nan].
  rewrite IH. reflexivity.
Qed.

Lemma Zsum_sizes (A : Type) (size : A -> nat) (l : list A) :
  Zsum (map (fun a => Z.of_nat (size a)) l)
  = Z.of_nat (list_sum (map size l)).
Proof.
  induction l as [| a rest IH]; simpl; [reflexivity |].
  rewrite IH. lia.
Qed.

(** ** Category table *)

Lemma with_shares_revenue (agg : list (string * Z * Q * float * Z)) :
  map Total_Revenue (with_shares agg) = map agg_revenue agg.
Proof.
  unfold with_shares. rewrite map_map. apply map_ext.
  intros [[[[c n] rev] avg] uniq]. reflexivity.
Qed.

Lemma with_shares_count (agg : list (string * Z * Q * float * Z)) :
  map Order_count (with_shares agg) = map agg_count agg.
Proof.
  unfold with_shares. rewrite map_map. apply map_ext.
  intros [[[[c n] rev] avg] uniq]. reflexivity.
Qed.

Lemma with_shares_pct (agg : list (string * Z * Q * float * Z)) :
  Forall (fun row => Revenue_pct row
                     = share_pct (Total_Revenue row)
                                 (Qsum (map agg_revenue agg)))
         (with_shares agg).
Proof.
  unfold with_shares. apply Forall_map. apply Forall_forall.
  intros [[[[c n] rev] avg] uniq] _. reflexivity.
Qed.

Lemma category_aggregate_count (df : frame) :
  map agg_count (category_aggregate df)
  = map (fun g => Z.of_nat (List.length (snd g))) (by_category df).
Proof.
  unfold category_aggregate. rewrite map_map. apply map_ext.
  intros [c rows]. reflexivity.
Qed.

Lemma category_analysis_perm (df : frame) :
  Permutation (category_analysis df) (with_shares (category_aggregate df)).
Proof. apply sort_keys_perm. Qed.

Lemma share_pct_finite (x total : Q) :
  ~ (total == 0)%Q ->
  share_pct x total = Fin (Float.round_q 1 (x / total * 100)).
Proof.
  intros Hnz. unfold share_pct. rewrite (div_finite x Hnz). reflexivity.
Qed.

Lemma order_counts_total (df : frame) :
  Zsum (map Order_count (category_analysis df)) = Z.of_nat (List.length df).
Proof.
  rewrite (Zsum_perm (Permutation_map Order_count (category_analysis_perm df))).
  rewrite with_shares_count, category_aggregate_count.
  rewrite (Zsum_sizes (fun g : string * frame => List.length (snd g))).
  f_equal. apply groupby_sizes. apply String.eqb_eq.
Qed.

(** C7, as amended. The order counts of the category table add up to the
    number of orders, for every order table.  When the category revenue
    totals do not add up to zero, every Revenue[%] entry is a number and
    their sum differs from 100 by at most 0.05 per category, the error of
    rounding each entry to one decimal. *)
Theorem category_shares_and_counts (df : frame) :
  Zsum (map Order_count (category_analysis df)) = Z.of_nat (List.length df)
  /\ (~ (Qsum (map Total_Revenue (category_analysis df)) == 0)%Q ->
      exists total_pct,
        fsum_skipna (map Revenue_pct (category_analysis df)) = Fin total_pct
        /\ Forall (fun p => Float.is_nan p = false)
                  (map Revenue_pct (category_analysis df))
        /\ (100 - inject_Z (Z.of_nat (List.length (category_analysis df)))
                  * (1 # 20)
            <= total_pct
            <= 100 + inject_Z (Z.of_nat (List.length (category_analysis df)))
                     * (1 # 20))%Q).
Proof.
  split; [apply order_counts_total |].
  intros Hnz.
  pose proof (category_analysis_perm df) as Hperm.
  set (table := category_analysis df) in *.
  set (agg := category_aggregate df) in *.
  set (total := Qsum (map agg_revenue agg)).
  assert (Htotal : (Qsum (map Total_Revenue table) == total)%Q).
  { rewrite (Qsum_perm (Permutation_map Total_Revenue Hperm)).
    rewrite with_shares_revenue. reflexivity. }
  assert (Htnz : ~ (total == 0)%Q).
  { intros H. apply Hnz. rewrite Htotal. exact H. }
  assert (Hpct : map Revenue_pct table
                 = map Fin (map (Float.round_q 1)
                              (map (fun x => x / total * 100)%Q
                                   (map Total_Revenue table)))).
  { rewrite !map_map. apply map_ext_in. intros row Hrow.
    pose proof (with_shares_pct agg) as Hall. rewrite Forall_forall in Hall.
    rewrite (Hall row) by (eapply Permutation_in; eassumption).
    apply share_pct_finite. exact Htnz. }
  eexists. split; [rewrite Hpct; apply fsum_finite |]. split.
  - rewrite Hpct. apply Forall_map. apply Forall_forall.
    intros q _. reflexivity.
  - pose proof (rounded_sum_near
                  (map (fun x => x / total * 100)%Q (map Total_Revenue table)))
      as Hnear.
    rewrite !length_map in Hnear.
    rewrite (Qsum_shares (map Total_Revenue table) Htnz) in Hnear.
    rewrite Htotal in Hnear.
    assert (Hfull : (total / total * 100 == 100)%Q) by (field; exact Htnz).
    rewrite Hfull in Hnear. exact Hnear.
Qed.

Lemma category_shares_and_counts_witness :
  exists total_pct,
    fsum_skipna (map Revenue_pct (category_analysis sample_orders))
    = Fin total_pct
    /\ (100 - 3 * (1 # 20) <= total_pct <= 100 + 3 * (1 # 20))%Q.
Proof.
  destruct (category_shares_and_counts sample_orders) as [_ Hshares].
  destruct Hshares as (total_pct & Hsum & _ & Hnear).
  { vm_compute. discriminate. }
  exists total_pct. split; [exact Hsum | exact Hnear].
Defined.

(** C7, as stated, fails on a table whose only order has value zero: the
    single Revenue[%] entry is [NaN] and the column sums to zero. *)
Lemma zero_revenue_shares_counterexample :
  free_order <> []
  /\ map Revenue_pct (category_analysis free_order) = [NaN]
  /\ fsum_skipna (map Revenue_pct (category_analysis free_order)) = Fin 0.
Proof.
  split; [discriminate | split; reflexivity].
Qed.

(** ** Return analysis *)

Lemma status_pair_returned (o : order) :
  is_cancelled_or_returned o
  = status_in ["cancelled"%string; "returned"%string] o.
Proof.
  unfold is_cancelled_or_returned, status_in. simpl.
  rewrite orb_false_r. reflexivity.
Qed.

Lemma status_pair_refunded (o : order) :
  is_cancelled_or_refunded o
  = status_in ["cancelled"%string; "refunded"%string] o.
Proof.
  unfold is_cancelled_or_refunded, status_in. simpl.
  rewrite orb_false_r. reflexivity.
Qed.

Lemma count_true_ext (A : Type) (p q : A -> bool) (l : list A) :
  (forall a, p a = q a) -> count_true p l = count_true q l.
Proof.
  intros H. unfold count_true. rewrite (filter_ext p q H). reflexivity.
Qed.

(** The chain of column assignments of the category page never raises and
    builds, for each group, the five cells of [return_row]. *)
Lemma return_analysis_rows (df : frame) :
  return_analysis df
  = ret {| df_columns := return_columns;
           df_rows :=
             sort_keys (fun a b : string * list float =>
                          cell_desc_before (nth 2 (snd a) NaN)
                                           (nth 2 (snd b) NaN))
                       (map return_row (by_category df)) |}.
Proof.
  unfold return_analysis, agg_orders_returns, rename, getitem, setitem,
    sort_values_desc, bind, ret, sort_keys, return_columns.
  generalize (by_category df). intros gs.
  cbn -[Binary64.round Binary64.mul Binary64.div Float.sub Float.of_Z
        count_true insert_sorted].
  do 3 f_equal.
  induction gs as [| g gs IH]; [reflexivity |].
  cbn -[Binary64.round Binary64.mul Binary64.div Float.sub Float.of_Z
        count_true].
  f_equal. exact IH.
Qed.

Lemma category_group (df : frame) (c : string) (rows : frame) :
  In (c, rows) (by_category df) ->
  rows = orders_in_category df c /\ rows <> [].
Proof.
  intros Hin. split.
  - apply (groupby_In String.eqb string_leb String.eqb_eq
                      product_category df c rows Hin).
  - eapply groupby_nonempty; [apply String.eqb_eq | exact Hin].
Qed.

Lemma of_Z_div_finite (a b : Z) :
  1 <= b ->
  Float.div (Float.of_Z a) (Float.of_Z b) = Fin (inject_Z a / inject_Z b).
Proof.
  intros Hb. unfold Float.of_Z. apply div_finite.
  intros H. unfold Qeq in H. simpl in H. lia.
Qed.

(** C6, as amended. The return table of the category page has a row for
    every category of the orders; the row of category c holds the number
    of orders of c, the number of those whose status is cancelled or
    returned, and as return rate the second divided by the first times
    100, rounded to one decimal, the three operations being those of
    binary64.  The overall return rate is the number of
    orders whose status is cancelled or refunded divided by the number of
    orders times 100, not rounded, and the lost revenue is the sum of the
    order values over that same set.  The two status pairs differ: a
    returned order counts only per category, a refunded order only
    overall. *)
Theorem return_rates_use_distinct_status_pairs (df : frame) :
  (exists table,
      return_analysis df = ret table
      /\ df_columns table = return_columns
      /\ (forall o, In o df ->
            exists cells, In (product_category o, cells) (df_rows table))
      /\ (forall c cells,
            In (c, cells) (df_rows table) ->
            1 <= spec_category_total df c
            /\ cells = return_cells (Float.of_Z (spec_category_total df c))
                                    (Float.of_Z (spec_category_returns df c))
            /\ nth 2 cells NaN
               = Binary64.round 1
                   (Binary64.mul
                      (Binary64.div (Float.of_Z (spec_category_returns df c))
                                    (Float.of_Z (spec_category_total df c)))
                      (Fin 100))))
  /\ total_returns df
     = count_true (status_in ["cancelled"%string; "refunded"%string]) df
  /\ overall_return_rate df
     = Float.mul (Float.div (Float.of_Z (total_returns df))
                            (Float.of_Z (Z.of_nat (List.length df))))
                 (Fin 100)
  /\ total_lost_revenue df
     = series_sum
         (map order_value
              (filter (status_in ["cancelled"%string; "refunded"%string]) df))
  /\ (forall o, order_status o = "returned"%string ->
        is_cancelled_or_returned o = true
        /\ is_cancelled_or_refunded o = false)
  /\ (forall o, order_status o = "refunded"%string ->
        is_cancelled_or_returned o = false
        /\ is_cancelled_or_refunded o = true).
Proof.
  split; [| split; [| split; [| split; [| split]]]].
  - eexists. split; [apply return_analysis_rows |]. simpl.
    split; [reflexivity |]. split.
    + intros o Ho.
      pose proof (groupby_covers String.eqb string_leb String.eqb_eq
                                 product_category df o Ho) as Hg.
      apply (in_map return_row) in Hg.
      eexists.
      eapply Permutation_in; [apply Permutation_sym, sort_keys_perm |].
      exact Hg.
    + intros c cells Hin.
      apply (Permutation_in (l' := map return_row (by_category df))) in Hin;
        [| apply sort_keys_perm].
      apply in_map_iff in Hin. destruct Hin as ([c' rows] & Heq & Hg).
      unfold return_row in Heq. simpl in Heq. inversion Heq. subst c'.
      destruct (category_group df c rows Hg) as [-> Hne].
      assert (Htotal : 1 <= spec_category_total df c).
      { unfold spec_category_total.
        destruct (orders_in_category df c); [congruence |].
        simpl List.length. lia. }
      assert (Hcells :
                return_cells
                  (Float.of_Z (Z.of_nat (List.length (orders_in_category df c))))
                  (Float.of_Z (count_true is_cancelled_or_returned
                                          (orders_in_category df c)))
                = return_cells (Float.of_Z (spec_category_total df c))
                               (Float.of_Z (spec_category_returns df c))).
      { unfold spec_category_total, spec_category_returns.
        rewrite (count_true_ext _ _ _ status_pair_returned). reflexivity. }
      split; [exact Htotal |]. split; [exact Hcells |].
      rewrite Hcells. reflexivity.
  - apply count_true_ext. apply status_pair_refunded.
  - reflexivity.
  - unfold total_lost_revenue.
    rewrite (filter_ext _ _ status_pair_refunded). reflexivity.
  - intros o Ho. unfold is_cancelled_or_returned, is_cancelled_or_refunded.
    rewrite Ho. split; reflexivity.
  - intros o Ho. unfold is_cancelled_or_returned, is_cancelled_or_refunded.
    rewrite Ho. split; reflexivity.
Qed.

Lemma return_rates_use_distinct_status_pairs_witness :
  exists table cells,
    return_analysis sample_orders = ret table
    /\ In ("Y"%string, cells) (df_rows table)
    /\ nth 2 cells NaN
       = Binary64.round 1
           (Binary64.mul (Binary64.div (Float.of_Z 2) (Float.of_Z 3))
                         (Fin 100))
    /\ nth 2 cells NaN = Binary64.of_Q 66.7.
Proof.
  destruct (return_rates_use_distinct_status_pairs sample_orders)
    as ((table & Htable & _ & Hcover & Hrows) & _).
  destruct (Hcover (mkOrder 3 3 (day 8) 5 0 "Y" "cancelled")) as [cells Hin].
  { right. right. left. reflexivity. }
  exists table, cells. split; [exact Htable |]. split; [exact Hin |].
  pose proof (proj2 (proj2 (Hrows _ _ Hin))) as Hrate.
  split; [exact Hrate |].
  rewrite Hrate. vm_compute. reflexivity.
Defined.

(** C6, as stated, fails on the return rate itself: with one cancelled
    order among the three of a category the table holds 33.3 (the
    binary64 number nearest to it), not 1 / 3 * 100. *)
Lemma return_rate_rounded_counterexample :
  (table <- return_analysis one_in_three ;; loc table "X" "Return_Rate[%]")
  = ret (Binary64.of_Q 33.3)
  /\ spec_return_rate one_in_three "X" = Fin (inject_Z 1 / inject_Z 3 * 100)
  /\ ~ Float.eq (Binary64.of_Q 33.3) (spec_return_rate one_in_three "X").
Proof.
  split; [vm_compute; reflexivity | split; [reflexivity |]].
  vm_compute. discriminate.
Qed.

(** ** Scoring a constant recency column *)

Lemma unique_subset (A : Type) (eqb : A -> A -> bool) (l : list A) (x : A) :
  In x (unique eqb l) -> In x l.
Proof.
  induction l as [| a rest IH]; simpl; [tauto |].
  intros [H | H]; [left; exact H |].
  apply filter_In in H. right. apply IH. apply H.
Qed.

Lemma unique_all_equal (h : Q) (l : list Q) :
  Forall (fun x => x == h)%Q l -> unique Qeq_bool (h :: l) = [h].
Proof.
  intros Hall. simpl. f_equal. apply filter_none.
  apply Forall_forall. intros x Hx. apply unique_subset in Hx.
  rewrite Forall_forall in Hall.
  apply negb_false_iff. apply Qeq_bool_iff. apply Hall. exact Hx.
Qed.

Lemma nth_repeat_inside (v d : Q) (n i : nat) :
  (i < n)%nat -> nth i (repeat v n) d = v.
Proof.
  revert i. induction n as [| n IH]; intros i Hi; [lia |].
  destruct i as [| i]; simpl; [reflexivity |]. apply IH. lia.
Qed.

Lemma nth_repeat_default (v : Q) (n i : nat) : nth i (repeat v n) v = v.
Proof.
  revert i. induction n as [| n IH]; intros [| i]; simpl;
    try reflexivity. apply IH.
Qed.

Lemma quantile_constant (v : Q) (n : nat) (k : Z) :
  (1 <= n)%nat -> 0 <= k <= 5 ->
  (quantile (repeat v n) k 5 == v)%Q.
Proof.
  intros Hn Hk. unfold quantile. rewrite repeat_length.
  set (pos := (Z.of_nat n - 1) * k).
  assert (Hlo : 0 <= pos / 5 <= Z.of_nat n - 1).
  { split.
    - apply Z.div_pos; [subst pos; nia | lia].
    - apply Z.div_le_upper_bound; [lia | subst pos; nia]. }
  rewrite (nth_repeat_inside v 0%Q (n := n) (i := Z.to_nat (pos / 5)))
    by lia.
  rewrite nth_repeat_default. ring.
Qed.

Lemma sort_Q_repeat (v : Q) (n : nat) : sort_Q (repeat v n) = repeat v n.
Proof.
  unfold sort_Q, sort_keys.
  induction n as [| n IH]; simpl; [reflexivity |].
  rewrite IH. destruct n as [| n]; simpl; [reflexivity |].
  assert (H : Qle_bool v v = true) by (apply Qle_bool_iff, Qle_refl).
  rewrite H. reflexivity.
Qed.

Lemma dropna_some (v : Q) (n : nat) :
  dropna (repeat (Some v) n) = repeat v n.
Proof.
  induction n as [| n IH]; simpl; [reflexivity | f_equal; exact IH].
Qed.

Lemma constant_column (A B : Type) (f : A -> B) (b : B) (l : list A) :
  Forall (fun a => f a = b) l -> map f l = repeat b (List.length l).
Proof.
  induction 1 as [| a l Ha _ IH]; simpl; [reflexivity |].
  rewrite Ha, IH. reflexivity.
Qed.

Lemma quantile_edges_constant : constant_quantiles quantile_edges.
Proof.
  intros v n. unfold quantile_edges. cbn [seq map].
  eexists. eexists. split; [reflexivity |]. split; [reflexivity |].
  cbn [Z.of_nat Pos.of_succ_nat Pos.succ].
  repeat (apply Forall_cons;
          [rewrite !quantile_constant by lia; reflexivity |]).
  apply Forall_nil.
Qed.

(** Whenever all customers share one recency and the six quantile edges
    of a constant column coincide, the edges collapse to one and the
    recency scoring raises. *)
Lemma constant_recency_raises_with (quantiles : list Q -> nat -> list Q)
      (rows : list rfm_row) (d : Z) :
  constant_quantiles quantiles ->
  rows <> [] ->
  Forall (fun row => Recency row = Some d) rows ->
  score_recency_with quantiles rows = raise err_label_count.
Proof.
  intros Hconst Hne Hall. unfold score_recency_with, recency_column.
  rewrite (constant_column (fun row => option_map inject_Z (Recency row))
                           (b := Some (inject_Z d)))
    by (eapply Forall_impl; [| exact Hall]; simpl; intros row ->; reflexivity).
  assert (Hn : (1 <= List.length rows)%nat)
    by (destruct rows; [congruence | simpl; lia]).
  set (n := List.length rows) in *. set (v := inject_Z d).
  destruct n as [| n]; [lia |].
  destruct (Hconst v n) as (h & l & Hedges & Hlen & Hsame).
  unfold qcut_with. rewrite dropna_some, sort_Q_repeat.
  cbn [repeat]. change (v :: repeat v n) with (repeat v (S n)).
  rewrite Hedges. unfold bins_to_cuts.
  rewrite (unique_all_equal Hsame). cbn [List.length]. rewrite Hlen.
  reflexivity.
Qed.

Lemma constant_recency_raises (rfm : list rfm_row) (d : Z) :
  rfm <> [] ->
  Forall (fun row => Recency row = Some d) rfm ->
  score_recency rfm = raise err_label_count.
Proof.
  apply constant_recency_raises_with. exact quantile_edges_constant.
Qed.

Lemma shared_timestamp_max (t : Z) (l : frame) :
  l <> [] ->
  (forall o, In o l -> order_date o = t) ->
  series_max (map order_date l) = Some t.
Proof.
  intros Hl Hdates.
  destruct (series_max_some (xs := map order_date l)) as [m Hm].
  { destruct l; [congruence | discriminate]. }
  destruct (series_max_spec _ Hm) as [Hin' _].
  apply in_map_iff in Hin'. destruct Hin' as (o & Ho & Hol).
  rewrite Hm, <- Ho, (Hdates o Hol). reflexivity.
Qed.

Lemma shared_timestamp_recency (df : frame) (t : Z) :
  df <> [] ->
  Forall (fun o => order_date o = t) df ->
  Forall (fun row => Recency row = Some 1) (rfm_aggregate df).
Proof.
  intros Hne Hall. apply Forall_forall. intros row Hrow.
  destruct (rfm_aggregate_In df row Hrow) as (c & rows & Hin & ->).
  simpl.
  destruct (customer_group df c rows Hin) as [Hrows Hsub].
  rewrite Forall_forall in Hall.
  unfold reference_value.
  rewrite (shared_timestamp_max Hne) by (intros o Ho; apply Hall; exact Ho).
  rewrite (shared_timestamp_max Hrows)
    by (intros o Ho; apply Hall; apply (Hsub o Ho)).
  simpl. f_equal.
  replace (t + one_day - t) with one_day by lia. reflexivity.
Qed.

(** An order table whose orders all carry the same timestamp gives every
    customer a recency of one day, and the scored table is never
    produced. *)
Lemma single_timestamp_raises (df : frame) (t : Z) :
  df <> [] ->
  Forall (fun o => order_date o = t) df ->
  rfm_table df = raise err_label_count.
Proof.
  intros Hne Hall. unfold rfm_table, score_rfm.
  rewrite (@constant_recency_raises_with quantile_edges (rfm_aggregate df) 1);
    [reflexivity | exact quantile_edges_constant | |].
  - apply rfm_aggregate_nonempty. exact Hne.
  - eapply shared_timestamp_recency; eassumption.
Qed.

(** * Further properties of the pages *)

(** ** Regions of the segment cascade *)

Ltac decide_scores :=
  repeat match goal with
         | |- context [?a >=? ?b] => rewrite (Z.geb_leb a b)
         end;
  repeat match goal with
         | |- context [?a <=? ?b] =>
             destruct (Z.leb_spec a b); try (exfalso; lia)
         end;
  cbn [andb orb].

Ltac label_iff :=
  split;
  [ intros Hlabel; try discriminate Hlabel; lia
  | intros Hregion; try reflexivity; exfalso; lia ].

(** The region of scores that each label ends up with, once the order of
    the rules is taken into account: Loyal Customers is reached only with
    a recency score of exactly 3, Potential Loyalists only with a
    frequency score of exactly 3, and Other is what remains of recency 3
    with low frequency and monetary scores and of low recency with a
    frequency score of at least 3 and a low monetary score. *)
Theorem segment_regions (r f m : Z) :
  (segment_customer r f m = "Champions"%string
   <-> 4 <= r /\ 4 <= f /\ 4 <= m)
  /\ (segment_customer r f m = "Loyal Customers"%string
      <-> r = 3 /\ 4 <= f /\ 4 <= m)
  /\ (segment_customer r f m = "Potential Loyalists"%string
      <-> 4 <= r /\ f = 3 /\ 4 <= m)
  /\ (segment_customer r f m = "At Risk"%string
      <-> r <= 2 /\ 3 <= f /\ 3 <= m)
  /\ (segment_customer r f m = "Need Attention"%string
      <-> 4 <= r /\ (f <= 2 \/ m <= 2))
  /\ (segment_customer r f m = "Promising"%string
      <-> (r = 3 /\ (3 <= f \/ 3 <= m) /\ ~ (4 <= f /\ 4 <= m))
          \/ (4 <= r /\ 3 <= f /\ m = 3))
  /\ (segment_customer r f m = "Lost"%string
      <-> r <= 2 /\ f <= 2)
  /\ (segment_customer r f m = "Other"%string
      <-> (r = 3 /\ f <= 2 /\ m <= 2) \/ (r <= 2 /\ 3 <= f /\ m <= 2)).
Proof.
  unfold segment_customer. decide_scores.
  all: repeat (split; [label_iff |]); label_iff.
Qed.

(** Each of the eight labels is reached by some scores between 1 and 5. *)
Theorem segment_labels_reached :
  Forall (fun label =>
            exists r f m,
              is_score r /\ is_score f /\ is_score m
              /\ segment_customer r f m = label)
         segment_labels.
Proof.
  unfold segment_labels, is_score.
  repeat apply Forall_cons; [| | | | | | | | apply Forall_nil].
  - exists 5, 5, 5. repeat split; lia.
  - exists 3, 5, 5. repeat split; lia.
  - exists 5, 3, 5. repeat split; lia.
  - exists 1, 3, 3. repeat split; lia.
  - exists 5, 1, 1. repeat split; lia.
  - exists 3, 3, 1. repeat split; lia.
  - exists 1, 1, 1. repeat split; lia.
  - exists 3, 1, 1. repeat split; lia.
Qed.

(** ** Sortedness of the stable sort *)

Section SortFacts.

Variable K : Type.
Variable key_leb : K -> K -> bool.
Hypothesis key_leb_total :
  forall a b, key_leb a b = false -> key_leb b a = true.

Lemma insert_sorted_HdRel (k a : K) (ks : list K) :
  key_leb a k = true ->
  HdRel (fun x y => key_leb x y = true) a ks ->
  HdRel (fun x y => key_leb x y = true) a (insert_sorted key_leb k ks).
Proof.
  intros Hak Hhd. destruct ks as [| k' rest]; simpl.
  - constructor. exact Hak.
  - destruct (key_leb k k'); constructor; [exact Hak |].
    inversion Hhd. assumption.
Qed.

Lemma insert_sorted_Sorted (k : K) (ks : list K) :
  Sorted (fun x y => key_leb x y = true) ks ->
  Sorted (fun x y => key_leb x y = true) (insert_sorted key_leb k ks).
Proof.
  induction 1 as [| a rest Hrest IH Hhd]; simpl.
  - constructor; constructor.
  - destruct (key_leb k a) eqn:E.
    + constructor; [constructor; assumption | constructor; exact E].
    + constructor; [exact IH |].
      apply insert_sorted_HdRel; [apply key_leb_total; exact E | exact Hhd].
Qed.

Lemma sort_keys_Sorted (ks : list K) :
  Sorted (fun x y => key_leb x y = true) (sort_keys key_leb ks).
Proof.
  induction ks as [| k rest IH]; simpl; [constructor |].
  apply insert_sorted_Sorted. exact IH.
Qed.

End SortFacts.

(** ** Sums over groups *)

Section GroupSums.

Variable K : Type.
Variable key_eqb : K -> K -> bool.
Hypothesis key_eqb_eq : forall a b, key_eqb a b = true <-> a = b.
Variable A : Type.
Variable key : A -> K.
Variable value : A -> Q.

Lemma weight_absent (a : K) (w : Q) (ks : list K) :
  ~ In a ks ->
  (Qsum (map (fun k => if key_eqb a k then w else 0) ks) == 0)%Q.
Proof.
  induction ks as [| k rest IH]; simpl; intros Hnot; [reflexivity |].
  destruct (key_eqb a k) eqn:E.
  - apply key_eqb_eq in E. exfalso. apply Hnot. left. congruence.
  - rewrite IH by (intros H; apply Hnot; right; exact H). ring.
Qed.

Lemma weight_present (a : K) (w : Q) (ks : list K) :
  NoDup ks -> In a ks ->
  (Qsum (map (fun k => if key_eqb a k then w else 0) ks) == w)%Q.
Proof.
  induction 1 as [| k rest Hnot Hnd IH]; simpl; [intros [] |].
  intros [-> | Hin].
  - rewrite (key_eqb_refl key_eqb key_eqb_eq).
    rewrite weight_absent by exact Hnot. ring.
  - destruct (key_eqb a k) eqn:E.
    + apply key_eqb_eq in E. subst. contradiction.
    + rewrite IH by exact Hin. ring.
Qed.

Lemma Qsum_cons (x : Q) (l : list Q) : Qsum (x :: l) = (x + Qsum l)%Q.
Proof. reflexivity. Qed.

Lemma group_sums_cons (ks : list K) (o : A) (rest : list A) :
  (Qsum (map (fun k => Qsum (map value
                 (filter (fun row => key_eqb (key row) k) (o :: rest)))) ks)
   == Qsum (map (fun k => if key_eqb (key o) k then value o else 0) ks)
      + Qsum (map (fun k => Qsum (map value
                    (filter (fun row => key_eqb (key row) k) rest))) ks))%Q.
Proof.
  induction ks as [| k ks' IHk]; [reflexivity |].
  cbn [map]. rewrite !Qsum_cons, IHk. cbn [filter].
  destruct (key_eqb (key o) k); cbn [map]; rewrite ?Qsum_cons; ring.
Qed.

Lemma group_sums (ks : list K) (df : list A) :
  NoDup ks ->
  (forall o, In o df -> In (key o) ks) ->
  (Qsum (map (fun k => Qsum (map value
                 (filter (fun row => key_eqb (key row) k) df))) ks)
   == Qsum (map value df))%Q.
Proof.
  intros Hnd. induction df as [| o rest IH]; intros Hall.
  - clear Hnd Hall. induction ks as [| k ks' IHk]; [reflexivity |].
    cbn [map filter] in *. rewrite Qsum_cons, IHk. reflexivity.
  - rewrite group_sums_cons.
    rewrite IH by (intros o' H; apply Hall; right; exact H).
    rewrite (@weight_present (key o) (value o) ks Hnd)
      by (apply Hall; left; reflexivity).
    reflexivity.
Qed.

Variable key_leb : K -> K -> bool.

Lemma groupby_sums (df : list A) :
  (Qsum (map (fun g => Qsum (map value (snd g)))
             (groupby key_eqb key_leb key df))
   == Qsum (map value df))%Q.
Proof.
  unfold groupby. rewrite map_map. cbn [snd].
  apply group_sums.
  - eapply Permutation_NoDup;
      [apply Permutation_sym, sort_keys_perm
      | apply (unique_NoDup key_eqb key_eqb_eq)].
  - intros o Hin.
    eapply Permutation_in; [apply Permutation_sym, sort_keys_perm |].
    apply (unique_In key_eqb key_leb key_eqb_eq). apply in_map. exact Hin.
Qed.

End GroupSums.

(** ** Conservation in the RFM table *)

(** The frequencies of the RFM table add up to the number of orders and
    the monetary values to the total order value: every order is counted
    for exactly one customer. *)
Theorem rfm_conserves_orders_and_revenue (df : frame) :
  Zsum (map Frequency (rfm_aggregate df)) = Z.of_nat (List.length df)
  /\ (Qsum (map Monetary (rfm_aggregate df))
      == Qsum (map order_value df))%Q.
Proof.
  unfold rfm_aggregate. rewrite !map_map. split.
  - erewrite map_ext
      with (g := fun g : Z * frame => Z.of_nat (List.length (snd g)))
      by (intros [c rows]; reflexivity).
    rewrite (Zsum_sizes (fun g : Z * frame => List.length (snd g))).
    f_equal. apply groupby_sizes. apply Z.eqb_eq.
  - erewrite map_ext
      with (g := fun g : Z * frame => Qsum (map order_value (snd g)))
      by (intros [c rows]; reflexivity).
    apply groupby_sums. apply Z.eqb_eq.
Qed.

(** ** Tables that cannot be scored *)


Lemma NoDup_constant (A : Type) (c : A) (l : list A) :
  NoDup l -> (forall x, In x l -> x = c) -> (List.length l <= 1)%nat.
Proof.
  intros Hnd Hall. destruct l as [| a [| b rest]]; simpl; try lia.
  exfalso. inversion Hnd as [| ? ? Hnot _]; subst. apply Hnot.
  rewrite (Hall a) by (left; reflexivity).
  rewrite <- (Hall b) by (right; left; reflexivity).
  left. reflexivity.
Qed.


(** ** The composite RFM code *)

Lemma str_of_score (z : Z) :
  is_score z ->
  str_of_int z
  = String (Ascii.ascii_of_nat (48 + Z.to_nat z)) EmptyString.
Proof.
  unfold is_score. intros Hz.
  assert (Hcases : z = 1 \/ z = 2 \/ z = 3 \/ z = 4 \/ z = 5) by lia.
  destruct Hcases as [-> | [-> | [-> | [-> | ->]]]]; reflexivity.
Qed.

Lemma score_digit_inj (a b : Z) :
  is_score a -> is_score b ->
  Ascii.ascii_of_nat (48 + Z.to_nat a) = Ascii.ascii_of_nat (48 + Z.to_nat b) ->
  a = b.
Proof.
  unfold is_score. intros Ha Hb H.
  apply (f_equal Ascii.nat_of_ascii) in H.
  rewrite !Ascii.nat_ascii_embedding in H by lia. lia.
Qed.

(** In a scored table, whatever the rows that were scored and whatever
    the function that computes the bin edges, the composite code has
    exactly three characters, one digit per score; two customers with the
    same code have the same three scores and therefore the same
    segment. *)
Theorem rfm_code_determines_segment (quantiles : list Q -> nat -> list Q)
        (rows : list rfm_row) (table : list scored_row) :
  score_rfm quantiles rows = ret table ->
  Forall (fun s => String.length (RFM_Score s) = 3%nat) table
  /\ forall s1 s2,
       In s1 table -> In s2 table ->
       RFM_Score s1 = RFM_Score s2 ->
       R_score s1 = R_score s2 /\ F_score s1 = F_score s2
       /\ M_score s1 = M_score s2 /\ Segment s1 = Segment s2.
Proof.
  intros Htable. destruct (score_rfm_spec _ _ Htable) as [_ Hok].
  rewrite Forall_forall in Hok. split.
  - apply Forall_forall. intros s Hs.
    destruct (Hok s Hs) as (Hr & Hf & Hm & _).
    unfold RFM_Score.
    rewrite (str_of_score Hr), (str_of_score Hf), (str_of_score Hm).
    reflexivity.
  - intros s1 s2 H1 H2 Hcode.
    destruct (Hok s1 H1) as (Hr1 & Hf1 & Hm1 & Hseg1).
    destruct (Hok s2 H2) as (Hr2 & Hf2 & Hm2 & Hseg2).
    unfold RFM_Score in Hcode.
    rewrite (str_of_score Hr1), (str_of_score Hf1), (str_of_score Hm1),
      (str_of_score Hr2), (str_of_score Hf2), (str_of_score Hm2) in Hcode.
    simpl in Hcode. inversion Hcode as [[Hr Hf Hm]].
    apply (score_digit_inj Hr1 Hr2) in Hr.
    apply (score_digit_inj Hf1 Hf2) in Hf.
    apply (score_digit_inj Hm1 Hm2) in Hm.
    rewrite Hseg1, Hseg2, Hr, Hf, Hm. repeat split; reflexivity.
Qed.

Lemma rfm_code_determines_segment_witness :
  exists table,
    rfm_scored quantile_edges sample_orders = ret table
    /\ Forall (fun s => String.length (RFM_Score s) = 3%nat) table.
Proof.
  eexists. split; [vm_compute; reflexivity |].
  refine (proj1 (@rfm_code_determines_segment
                   quantile_edges (rfm_aggregate sample_orders) _ _)).
  vm_compute. reflexivity.
Defined.

(** Without the bound on the scores the concatenation is ambiguous:
    different score triples can give the same code. *)
Lemma rfm_code_ambiguous_beyond_digits :
  RFM_Score (mkScored (mkRfm 1 None 1 0) 1 23 4 "Other")
  = RFM_Score (mkScored (mkRfm 1 None 1 0) 12 3 4 "Other").
Proof. reflexivity. Qed.

(** ** The discount partitions *)

(** When no discount is negative the two partitions split the table:
    their sizes add up to the number of orders and their revenues to the
    total revenue.  An order with a negative discount is in neither. *)
Theorem discount_partitions_cover (df : frame) :
  (forall o, In o df -> (0 <= discount_applied o)%Q) ->
  (List.length (no_discount df) + List.length (with_discount df)
   = List.length df)%nat
  /\ (Qsum (map order_value (no_discount df))
      + Qsum (map order_value (with_discount df))
      == Qsum (map order_value df))%Q.
Proof.
  unfold no_discount, with_discount.
  induction df as [| o rest IH]; intros Hpos.
  - split; reflexivity.
  - destruct IH as [IHlen IHsum];
      [intros o' H; apply Hpos; right; exact H |].
    specialize (Hpos o (or_introl eq_refl)).
    cbn [filter].
    destruct (Qeq_bool (discount_applied o) 0) eqn:Ez;
      destruct (Qle_bool (discount_applied o) 0) eqn:El; cbn [negb].
    + cbn [map List.length]. rewrite !Qsum_cons. split; [lia |].
      rewrite <- IHsum. ring.
    + apply Qeq_bool_iff in Ez. rewrite Ez in El. discriminate El.
    + exfalso. apply Qle_bool_iff in El.
      assert (Hz : (discount_applied o == 0)%Q) by (apply Qle_antisym; assumption).
      apply Qeq_bool_iff in Hz. congruence.
    + cbn [map List.length]. rewrite !Qsum_cons. split; [lia |].
      rewrite <- IHsum. ring.
Qed.

Lemma discount_partitions_cover_witness :
  (Qsum (map order_value (no_discount sample_orders))
   + Qsum (map order_value (with_discount sample_orders))
   == Qsum (map order_value sample_orders))%Q.
Proof.
  refine (proj2 (@discount_partitions_cover sample_orders _)).
  intros o Ho. simpl in Ho.
  repeat (destruct Ho as [<- | Ho]; [discriminate |]). destruct Ho.
Defined.

Theorem negative_discount_in_no_partition (df : frame) (o : order) :
  (discount_applied o < 0)%Q ->
  ~ In o (no_discount df) /\ ~ In o (with_discount df).
Proof.
  intros Hneg. unfold no_discount, with_discount. split; intros Hin;
    apply filter_In in Hin; destruct Hin as [_ H].
  - apply Qeq_bool_iff in H. rewrite H in Hneg.
    apply (Qlt_irrefl 0). exact Hneg.
  - apply negb_true_iff in H.
    assert (Hle : Qle_bool (discount_applied o) 0 = true)
      by (apply Qle_bool_iff, Qlt_le_weak; exact Hneg).
    congruence.
Qed.

(** When both partitions have orders and the mean of the undiscounted
    orders is positive, the note on the page is shown exactly when the
    mean of the discounted orders is lower. *)
Theorem discount_note_meaning (df : frame) (a b : Q) :
  no_discount_avg df = Fin a ->
  with_discount_avg df = Fin b ->
  (0 < a)%Q ->
  (exists p, percentage_diff df = Fin p /\ (p == (a - b) / a * 100)%Q)
  /\ (discount_note_shown df = true <-> (b < a)%Q).
Proof.
  intros Ha Hb Hpos.
  assert (Hnz : ~ (a == 0)%Q).
  { intros H. rewrite H in Hpos. apply (Qlt_irrefl 0). exact Hpos. }
  assert (Hpct : percentage_diff df = Fin ((a + - b) / a * 100)).
  { unfold percentage_diff. rewrite Ha, Hb.
    unfold Float.sub. cbn [Float.add Float.neg].
    rewrite (div_finite (a + - b) Hnz). reflexivity. }
  split.
  - eexists. split; [exact Hpct | reflexivity].
  - unfold discount_note_shown. rewrite Hpct. simpl.
    rewrite negb_true_iff.
    assert (Hinv : (0 < / a)%Q) by (apply Qinv_lt_0_compat; exact Hpos).
    unfold Qdiv. split.
    + intros H.
      destruct (Qlt_le_dec b a) as [Hlt | Hge]; [exact Hlt | exfalso].
      assert (Hle : ((a + - b) * / a * 100 <= 0)%Q) by nra.
      apply Qle_bool_iff in Hle. congruence.
    + intros Hlt.
      destruct (Qle_bool ((a + - b) * / a * 100) 0) eqn:E; [| reflexivity].
      apply Qle_bool_iff in E. exfalso. nra.
Qed.

Lemma discount_note_meaning_witness :
  discount_note_shown sample_orders = true <-> (5 < 165 # 5)%Q.
Proof.
  refine (proj2 (@discount_note_meaning sample_orders (165 # 5) 5 _ _ _));
    reflexivity.
Defined.

(** The mirror image of a table without discounts: when every order is
    discounted, the undiscounted revenue is zero, the undiscounted mean
    is [NaN], and so is the percentage difference; no note is shown. *)
Theorem discount_everywhere (df : frame) :
  (forall o, In o df -> (0 < discount_applied o)%Q) ->
  no_discount_revenue df = Fin 0
  /\ no_discount_avg df = NaN
  /\ percentage_diff df = NaN
  /\ discount_note_shown df = false
  /\ with_discount df = df.
Proof.
  intros Hpos.
  assert (Hnone : no_discount df = []).
  { unfold no_discount. apply filter_none. apply Forall_forall.
    intros o Ho. destruct (Qeq_bool (discount_applied o) 0) eqn:E;
      [| reflexivity].
    apply Qeq_bool_iff in E. specialize (Hpos o Ho). rewrite E in Hpos.
    exfalso. apply (Qlt_irrefl 0). exact Hpos. }
  assert (Hall : with_discount df = df).
  { unfold with_discount. apply filter_all. apply Forall_forall.
    intros o Ho. apply negb_true_iff.
    destruct (Qle_bool (discount_applied o) 0) eqn:E; [| reflexivity].
    apply Qle_bool_iff in E. exfalso.
    apply (Qlt_not_le _ _ (Hpos o Ho)). exact E. }
  assert (Hpct : percentage_diff df = NaN).
  { unfold percentage_diff, no_discount_avg. rewrite Hnone. reflexivity. }
  unfold no_discount_revenue, no_discount_avg, discount_note_shown.
  rewrite Hpct, Hnone. repeat split. exact Hall.
Qed.

Lemma discount_everywhere_witness :
  percentage_diff [mkOrder 1 1 0 100 5 "X" "completed"] = NaN.
Proof.
  refine (proj1 (proj2 (proj2
            (@discount_everywhere [mkOrder 1 1 0 100 5 "X" "completed"] _)))).
  intros o [<- | []]. reflexivity.
Defined.

(** ** Overall return metrics *)

Lemma count_true_bounds (A : Type) (p : A -> bool) (l : list A) :
  0 <= count_true p l <= Z.of_nat (List.length l).
Proof.
  unfold count_true. pose proof (filter_length_le p l). lia.
Qed.

Lemma ratio_pct_bounds (a b : Z) :
  0 <= a <= b -> 1 <= b ->
  (0 <= inject_Z a / inject_Z b * 100 <= 100)%Q.
Proof.
  intros Ha Hb.
  assert (Hbq : (0 < inject_Z b)%Q).
  { change 0%Q with (inject_Z 0). rewrite <- Zlt_Qlt. lia. }
  assert (Haq : (0 <= inject_Z a)%Q).
  { change 0%Q with (inject_Z 0). rewrite <- Zle_Qle. lia. }
  assert (Hab : (inject_Z a <= inject_Z b)%Q) by (rewrite <- Zle_Qle; lia).
  assert (Hinv : (0 < / inject_Z b)%Q) by (apply Qinv_lt_0_compat; exact Hbq).
  assert (Hone : (inject_Z b * / inject_Z b == 1)%Q).
  { apply Qmult_inv_r. intros H. rewrite H in Hbq.
    apply (Qlt_irrefl 0). exact Hbq. }
  unfold Qdiv. split; nra.
Qed.

(** For a non-empty table the overall return rate is a number between 0
    and 100, and the number of orders at risk is at most the number of
    orders. *)
Theorem overall_return_rate_bounds (df : frame) :
  df <> [] ->
  0 <= total_returns df <= total_orders df
  /\ exists q, overall_return_rate df = Fin q /\ (0 <= q <= 100)%Q.
Proof.
  intros Hne.
  assert (Hcount : 0 <= total_returns df <= total_orders df)
    by apply count_true_bounds.
  assert (Htotal : 1 <= total_orders df).
  { unfold total_orders. destruct df; [congruence | simpl List.length; lia]. }
  split; [exact Hcount |].
  unfold overall_return_rate. rewrite (of_Z_div_finite _ Htotal).
  eexists. split; [reflexivity |]. apply ratio_pct_bounds; assumption.
Qed.

Lemma overall_return_rate_bounds_witness :
  exists q, overall_return_rate sample_orders = Fin q /\ (0 <= q <= 100)%Q.
Proof.
  refine (proj2 (@overall_return_rate_bounds sample_orders _)). discriminate.
Defined.

Lemma gtb_weaken (x : float) (a b : Q) :
  (a <= b)%Q -> Float.gtb x (Fin b) = true -> Float.gtb x (Fin a) = true.
Proof.
  intros Hab. destruct x as [q | | |]; simpl; try discriminate; auto.
  rewrite !negb_true_iff. intros Hb.
  destruct (Qle_bool q a) eqn:E; [| reflexivity].
  apply Qle_bool_iff in E.
  assert (Hqb : Qle_bool q b = true)
    by (apply Qle_bool_iff; eapply Qle_trans; eassumption).
  congruence.
Qed.

(** The status label and the message of the overall block agree in one
    direction only: the error message comes with the status Above Average
    and that status never comes with the success message, but a rate
    above 20 and at most 25 shows the warning under the status Good.  On
    an empty table the rate is [NaN], every comparison fails, and the
    page reports the status Good with the success message. *)
Theorem overall_status_and_alert (df : frame) :
  (overall_alert df = AlertError ->
   overall_status df = "Above Average"%string)
  /\ (overall_status df = "Above Average"%string ->
      overall_alert df <> AlertSuccess)
  /\ (forall q, overall_return_rate df = Fin q ->
                (20 < q <= 25)%Q ->
                overall_status df = "Good"%string
                /\ overall_alert df = AlertWarning)
  /\ (df = [] ->
      overall_return_rate df = NaN
      /\ overall_status df = "Good"%string
      /\ overall_alert df = AlertSuccess).
Proof.
  unfold overall_alert, overall_status.
  split; [| split; [| split]].
  - destruct (Float.gtb (overall_return_rate df) (Fin 30)) eqn:E30.
    + intros _.
      rewrite (gtb_weaken (overall_return_rate df) (a := 25) (b := 30));
        [reflexivity | discriminate | exact E30].
    + destruct (Float.gtb (overall_return_rate df) (Fin 20)); discriminate.
  - destruct (Float.gtb (overall_return_rate df) (Fin 25)) eqn:E25;
      [| discriminate].
    intros _.
    rewrite (gtb_weaken (overall_return_rate df) (a := 20) (b := 25))
      by (try discriminate; exact E25).
    destruct (Float.gtb (overall_return_rate df) (Fin 30)); discriminate.
  - intros q Hrate [Hlt Hle]. rewrite Hrate. simpl.
    assert (H25 : Qle_bool q 25 = true) by (apply Qle_bool_iff; exact Hle).
    assert (H30 : Qle_bool q 30 = true).
    { apply Qle_bool_iff. eapply Qle_trans; [exact Hle | discriminate]. }
    rewrite H25, H30. simpl.
    destruct (Qle_bool q 20) eqn:E; [| split; reflexivity].
    apply Qle_bool_iff in E. exfalso. apply (Qlt_not_le _ _ Hlt E).
  - intros ->. repeat split.
Qed.

Lemma overall_status_and_alert_witness :
  overall_status
    [mkOrder 1 1 0 1 0 "X" "cancelled"; mkOrder 2 1 0 1 0 "X" "completed";
     mkOrder 3 1 0 1 0 "X" "completed"; mkOrder 4 1 0 1 0 "X" "completed"]
  = "Good"%string
  /\ overall_alert
       [mkOrder 1 1 0 1 0 "X" "cancelled"; mkOrder 2 1 0 1 0 "X" "completed";
        mkOrder 3 1 0 1 0 "X" "completed"; mkOrder 4 1 0 1 0 "X" "completed"]
     = AlertWarning.
Proof.
  pose (df := [mkOrder 1 1 0 1 0 "X" "cancelled";
               mkOrder 2 1 0 1 0 "X" "completed";
               mkOrder 3 1 0 1 0 "X" "completed";
               mkOrder 4 1 0 1 0 "X" "completed"]).
  destruct (overall_status_and_alert df) as (_ & _ & Hband & _).
  apply (Hband (100 # 4)); [reflexivity |].
  split; [reflexivity | unfold Qle; simpl; lia].
Defined.

Lemma Qsum_filter_le (A : Type) (value : A -> Q) (p : A -> bool) (l : list A) :
  (forall a, In a l -> (0 <= value a)%Q) ->
  (0 <= Qsum (map value (filter p l)) <= Qsum (map value l))%Q.
Proof.
  induction l as [| a rest IH]; intros Hpos.
  - simpl. split; apply Qle_refl.
  - destruct IH as [IH0 IH1]; [intros a' H; apply Hpos; right; exact H |].
    specialize (Hpos a (or_introl eq_refl)).
    cbn [filter map]. destruct (p a); cbn [map]; rewrite ?Qsum_cons;
      split; lra.
Qed.

(** With non-negative order values the lost revenue is between zero and
    the total revenue. *)
Theorem lost_revenue_bounds (df : frame) :
  (forall o, In o df -> (0 <= order_value o)%Q) ->
  exists lost,
    total_lost_revenue df = Fin lost
    /\ (0 <= lost <= Qsum (map order_value df))%Q.
Proof.
  intros Hpos. unfold total_lost_revenue, series_sum.
  eexists. split; [reflexivity |]. apply Qsum_filter_le. exact Hpos.
Qed.

Lemma lost_revenue_bounds_witness :
  exists lost,
    total_lost_revenue sample_orders = Fin lost
    /\ (0 <= lost <= Qsum (map order_value sample_orders))%Q.
Proof.
  apply (@lost_revenue_bounds sample_orders).
  intros o Ho. simpl in Ho.
  repeat (destruct Ho as [<- | Ho]; [discriminate |]). destruct Ho.
Defined.

(** ** Worst case of the volatility block *)

(** With a positive mean the worst-case figure is mean - 100 * std, so it
    is negative as soon as the coefficient of variation exceeds one
    percent. *)
Theorem worst_case_negative (sqrtQ : Q -> Q) (df : frame) (m s : Q) :
  series_mean (map order_value df) = Fin m ->
  series_std sqrtQ (map order_value df) = Fin s ->
  (0 < m)%Q ->
  exists w,
    worst_case (revenue_volatility sqrtQ df) = Fin w
    /\ (w == m - 100 * s)%Q
    /\ ((w < 0)%Q <-> (1 < spec_cov s m)%Q).
Proof.
  intros Hmean Hstd Hpos.
  assert (Hnz : ~ (m == 0)%Q).
  { intros H. rewrite H in Hpos. apply (Qlt_irrefl 0). exact Hpos. }
  unfold revenue_volatility; cbn [worst_case]. rewrite Hmean, Hstd.
  rewrite (div_finite s Hnz).
  eexists. split; [reflexivity |].
  assert (Hw : (m + - (s / m * 100 * m) == m - 100 * s)%Q)
    by (field; exact Hnz).
  split; [exact Hw |].
  rewrite Hw. unfold spec_cov.
  assert (Hinv : (0 < / m)%Q) by (apply Qinv_lt_0_compat; exact Hpos).
  assert (Hone : (m * / m == 1)%Q) by (apply Qmult_inv_r; exact Hnz).
  unfold Qdiv. split; intros H; nra.
Qed.

Lemma worst_case_negative_witness :
  exists w,
    worst_case (revenue_volatility sqrt_exact
                  [mkOrder 1 1 0 1 0 "X" "completed";
                   mkOrder 2 1 0 3 0 "X" "completed";
                   mkOrder 3 2 0 5 0 "Y" "completed"]) = Fin w
    /\ (w == (9 # 3) - 100 * (2 # 1))%Q
    /\ ((w < 0)%Q <-> (1 < spec_cov (2 # 1) (9 # 3))%Q).
Proof.
  apply (@worst_case_negative sqrt_exact _ (9 # 3) (2 # 1));
    reflexivity.
Defined.

(** ** Rows of the category table *)

Lemma Sorted_restrict (A : Type) (P : A -> Prop) (R R' : A -> A -> Prop)
      (l : list A) :
  (forall a b, P a -> P b -> R a b -> R' a b) ->
  Forall P l -> Sorted R l -> Sorted R' l.
Proof.
  intros Himp Hall Hsorted. induction Hsorted as [| a l Hl IH Hhd].
  - constructor.
  - inversion Hall as [| ? ? Ha Hrest]; subst.
    constructor; [apply IH; exact Hrest |].
    destruct Hhd as [| b l' Hab]; constructor.
    inversion Hrest; subst. apply Himp; assumption.
Qed.

Lemma Qle_bool_total (x y : Q) : Qle_bool x y = false -> Qle_bool y x = true.
Proof.
  intros H. apply Qle_bool_iff.
  destruct (Qlt_le_dec y x) as [Hlt | Hle].
  - apply Qlt_le_weak. exact Hlt.
  - apply Qle_bool_iff in Hle. congruence.
Qed.

Lemma unique_length_bounds (l : list Z) :
  l <> [] ->
  (1 <= List.length (unique Z.eqb l) <= List.length l)%nat.
Proof.
  intros Hne. split.
  - destruct l as [| a rest]; [congruence | simpl; lia].
  - clear Hne. induction l as [| a rest IH]; simpl; [lia |].
    pose proof (filter_length_le (fun k' => negb (k' =? a)) (unique Z.eqb rest)).
    lia.
Qed.

Lemma category_row_origin (df : frame) (row : category_row) :
  In row (category_analysis df) ->
  exists rows,
    In (category row, rows) (by_category df)
    /\ Order_count row = Z.of_nat (List.length rows)
    /\ Unique_Customers row
       = Z.of_nat (List.length (unique Z.eqb (map customer_id rows)))
    /\ Total_Revenue row = Float.round_q 2 (Qsum (map order_value rows)).
Proof.
  intros Hin.
  apply (Permutation_in _ (category_analysis_perm df)) in Hin.
  unfold with_shares in Hin. apply in_map_iff in Hin.
  destruct Hin as ([[[[c n] rev] avg] uniq] & <- & Hagg).
  unfold category_aggregate in Hagg. apply in_map_iff in Hagg.
  destruct Hagg as ([c' rows] & Heq & Hg).
  inversion Heq; subst. exists rows. simpl. repeat split. exact Hg.
Qed.

(** The category table has one row for every category of the orders and
    none twice; in every row there is at least one distinct customer and
    never more distinct customers than orders; and the rows are in
    descending order of total revenue. *)
Theorem category_table_invariants (df : frame) :
  NoDup (map category (category_analysis df))
  /\ (forall c, In c (map category (category_analysis df))
                <-> In c (map product_category df))
  /\ Forall (fun row => 1 <= Unique_Customers row <= Order_count row)
            (category_analysis df)
  /\ Sorted (fun a b => (Total_Revenue b <= Total_Revenue a)%Q)
            (category_analysis df).
Proof.
  assert (Hcat : Permutation (map category (category_analysis df))
                             (map fst (by_category df))).
  { eapply perm_trans;
      [apply Permutation_map, category_analysis_perm |].
    unfold with_shares, category_aggregate. rewrite !map_map.
    erewrite map_ext; [apply Permutation_refl |].
    intros [c rows]. reflexivity. }
  split; [| split; [| split]].
  - eapply Permutation_NoDup; [apply Permutation_sym; exact Hcat |].
    apply groupby_keys_NoDup. apply String.eqb_eq.
  - intros c. split; intros Hin.
    + apply (Permutation_in _ Hcat) in Hin.
      apply in_map_iff in Hin. destruct Hin as ([c' rows] & <- & Hg).
      apply (groupby_In String.eqb string_leb String.eqb_eq
                        product_category df c' rows Hg).
    + apply (Permutation_in _ (Permutation_sym Hcat)).
      apply in_map_iff in Hin. destruct Hin as (o & <- & Ho).
      apply (in_map fst) with (x := (product_category o,
               filter (fun row => String.eqb (product_category row)
                                             (product_category o)) df)).
      apply groupby_covers; [apply String.eqb_eq | exact Ho].
  - apply Forall_forall. intros row Hrow.
    destruct (category_row_origin df row Hrow) as (rows & Hg & -> & -> & _).
    destruct (category_group df _ rows Hg) as [_ Hne].
    assert (Hids : map customer_id rows <> [])
      by (destruct rows; [congruence | discriminate]).
    pose proof (unique_length_bounds Hids) as Hb.
    rewrite length_map in Hb. lia.
  - unfold category_analysis, sort_by_revenue_desc.
    eapply Sorted_restrict with (P := fun _ => True);
      [| apply Forall_forall; intros; exact I
       | apply sort_keys_Sorted; intros a b; apply Qle_bool_total].
    intros a b _ _ H. apply Qle_bool_iff. exact H.
Qed.

(** ** Order shares *)

Lemma Qsum_inject (zs : list Z) :
  (Qsum (map inject_Z zs) == inject_Z (Zsum zs))%Q.
Proof.
  induction zs as [| z rest IH]; [reflexivity |].
  cbn [map Zsum fold_right]. rewrite Qsum_cons, IH, inject_Z_plus.
  reflexivity.
Qed.

Lemma with_shares_order_pct (agg : list (string * Z * Q * float * Z)) :
  Forall (fun row =>
            Order_pct row
            = share_pct (inject_Z (Order_count row))
                        (Qsum (map (fun a => inject_Z (agg_count a)) agg)))
         (with_shares agg).
Proof.
  unfold with_shares. apply Forall_map. apply Forall_forall.
  intros [[[[c n] rev] avg] uniq] _. reflexivity.
Qed.

(** Unlike the revenue shares, the order shares of a non-empty table are
    always numbers, and they add up to 100 up to 0.05 per category. *)
Theorem order_shares_total (df : frame) :
  df <> [] ->
  exists total_pct,
    fsum_skipna (map Order_pct (category_analysis df)) = Fin total_pct
    /\ Forall (fun p => Float.is_nan p = false)
              (map Order_pct (category_analysis df))
    /\ (100 - inject_Z (Z.of_nat (List.length (category_analysis df)))
              * (1 # 20)
        <= total_pct
        <= 100 + inject_Z (Z.of_nat (List.length (category_analysis df)))
                 * (1 # 20))%Q.
Proof.
  intros Hne.
  pose proof (category_analysis_perm df) as Hperm.
  set (table := category_analysis df) in *.
  set (agg := category_aggregate df) in *.
  set (total := Qsum (map (fun a => inject_Z (agg_count a)) agg)).
  assert (Hcounts : (Qsum (map inject_Z (map Order_count table)) == total)%Q).
  { rewrite (Qsum_perm (Permutation_map inject_Z
                          (Permutation_map Order_count Hperm))).
    rewrite with_shares_count. subst total. rewrite map_map. reflexivity. }
  assert (Htotal : (total == inject_Z (Z.of_nat (List.length df)))%Q).
  { rewrite <- Hcounts, Qsum_inject. subst table.
    rewrite order_counts_total. reflexivity. }
  assert (Htnz : ~ (total == 0)%Q).
  { rewrite Htotal. intros H. unfold Qeq in H. simpl in H.
    destruct df; [congruence | simpl List.length in H; lia]. }
  assert (Hpct : map Order_pct table
                 = map Fin (map (Float.round_q 1)
                              (map (fun x => x / total * 100)%Q
                                   (map inject_Z (map Order_count table))))).
  { rewrite !map_map. apply map_ext_in. intros row Hrow.
    pose proof (with_shares_order_pct agg) as Hall.
    rewrite Forall_forall in Hall.
    rewrite (Hall row) by (eapply Permutation_in; eassumption).
    apply share_pct_finite. exact Htnz. }
  eexists. split; [rewrite Hpct; apply fsum_finite |]. split.
  - rewrite Hpct. apply Forall_map. apply Forall_forall.
    intros q _. reflexivity.
  - pose proof (rounded_sum_near
                  (map (fun x => x / total * 100)%Q
                       (map inject_Z (map Order_count table)))) as Hnear.
    rewrite !length_map in Hnear.
    rewrite (Qsum_shares (map inject_Z (map Order_count table)) Htnz) in Hnear.
    rewrite Hcounts in Hnear.
    assert (Hfull : (total / total * 100 == 100)%Q) by (field; exact Htnz).
    rewrite Hfull in Hnear. exact Hnear.
Qed.

Lemma order_shares_total_witness :
  exists total_pct,
    fsum_skipna (map Order_pct (category_analysis sample_orders))
    = Fin total_pct
    /\ (100 - 3 * (1 # 20) <= total_pct <= 100 + 3 * (1 # 20))%Q.
Proof.
  destruct (@order_shares_total sample_orders) as (t & Hsum & _ & Hnear);
    [discriminate |].
  exists t. split; [exact Hsum | exact Hnear].
Defined.

(** ** Rounding to binary64 *)

Lemma pow2_pos (e : Z) : (0 < Binary64.pow2 e)%Q.
Proof. unfold Binary64.pow2. apply Qpower_0_lt. reflexivity. Qed.

Lemma pow2_nonneg_exp (e : Z) :
  0 <= e -> (Binary64.pow2 e == inject_Z (2 ^ e))%Q.
Proof.
  intros He. unfold Binary64.pow2. symmetry.
  apply (Zpower_Qpower 2 e He).
Qed.

Lemma pow2_opp (e : Z) : (Binary64.pow2 (- e) == / Binary64.pow2 e)%Q.
Proof. unfold Binary64.pow2. apply Qpower_opp. Qed.

Lemma pow2_le (a b : Z) : a <= b -> (Binary64.pow2 a <= Binary64.pow2 b)%Q.
Proof.
  intros H. unfold Binary64.pow2. apply Qpower_le_compat_l; [exact H |].
  discriminate.
Qed.

(** The binade exponent is a lower bound: [2 ^ ilog2 x <= |x|]. *)
Lemma ilog2_lower (x : Q) :
  ~ (x == 0)%Q -> (Binary64.pow2 (Binary64.ilog2 x) <= Qabs x)%Q.
Proof.
  intros Hx. unfold Binary64.ilog2.
  set (n := Z.abs (Qnum x)). set (d := Z.pos (Qden x)).
  destruct (Qle_bool (Binary64.pow2 (Z.log2 n - Z.log2 d)) (Qabs x)) eqn:E.
  - apply Qle_bool_iff. exact E.
  - clear E.
    assert (Hn : 0 < n).
    { subst n. destruct x as [num den]. unfold Qeq in Hx. simpl in *. lia. }
    assert (Hd : 0 < d) by (subst d; lia).
    destruct (Z.log2_spec n Hn) as [Hlo _].
    destruct (Z.log2_spec d Hd) as [_ Hhi].
    pose proof (Z.log2_nonneg n) as Han. pose proof (Z.log2_nonneg d) as Hbn.
    replace (Z.log2 n - Z.log2 d - 1) with (Z.log2 n - Z.succ (Z.log2 d)) by lia.
    unfold Binary64.pow2. rewrite Qpower_minus by discriminate.
    rewrite <- !(Zpower_Qpower 2) by lia.
    assert (Habs : Qabs x = n # Qden x) by (destruct x; reflexivity).
    rewrite Habs.
    assert (Hp : 0 < 2 ^ Z.succ (Z.log2 d)) by lia.
    apply Qle_shift_div_r.
    { change 0%Q with (inject_Z 0). rewrite <- Zlt_Qlt. exact Hp. }
    set (A := 2 ^ Z.log2 n) in *. set (B := 2 ^ Z.succ (Z.log2 d)) in *.
    unfold Qle, Qmult, inject_Z. cbn [Qnum Qden].
    change (Z.pos (Qden x * 1)) with (Z.pos (Qden x) * 1).
    fold d. nia.
Qed.

Lemma round_half_even_le (z : Q) (N : Z) :
  (z <= inject_Z N)%Q -> Float.round_half_even z <= N.
Proof.
  intros Hz. unfold Float.round_half_even.
  pose proof (Qfloor_le z) as Hfl. pose proof (Qlt_floor z) as Hfu.
  assert (Hf : Qfloor z <= N).
  { rewrite Zle_Qle. eapply Qle_trans; eassumption. }
  destruct (Qcompare_spec (z - inject_Z (Qfloor z)) (1 # 2)) as [He | Hl | Hg].
  - destruct (Z.even (Qfloor z)); [exact Hf |].
    destruct (Z.eq_dec (Qfloor z) N) as [Heq | Hne]; [| lia].
    exfalso. rewrite Heq in He. lra.
  - exact Hf.
  - destruct (Z.eq_dec (Qfloor z) N) as [Heq | Hne]; [| lia].
    exfalso. rewrite Heq in Hg. lra.
Qed.

Lemma round_half_even_nonneg (z : Q) :
  (0 <= z)%Q -> 0 <= Float.round_half_even z.
Proof.
  intros Hz. unfold Float.round_half_even.
  assert (Hf : 0 <= Qfloor z).
  { change 0 with (Qfloor 0). apply Qfloor_resp_le. exact Hz. }
  destruct (Qcompare _ _); [destruct (Z.even _) | |]; lia.
Qed.

(** Rounding to binary64 keeps a value between zero and an integer of at
    most 52 bits. *)
Lemma nearest_bounded (x : Q) (k : Z) :
  (0 <= x <= inject_Z k)%Q -> k <= 2 ^ 52 ->
  (0 <= Binary64.nearest x <= inject_Z k)%Q.
Proof.
  intros [H0 Hk] Hk52. unfold Binary64.nearest.
  destruct (Qeq_bool x 0) eqn:Ez.
  - split; [apply Qle_refl |]. apply Qeq_bool_iff in Ez. rewrite <- Ez. exact Hk.
  - assert (Hx : ~ (x == 0)%Q).
    { intros H. apply Qeq_bool_iff in H. congruence. }
    rewrite Qred_correct.
    assert (He : Binary64.ilog2 x <= 52).
    { destruct (Z_le_gt_dec (Binary64.ilog2 x) 52) as [Hle | Hgt];
        [exact Hle | exfalso].
      pose proof (ilog2_lower Hx) as Hlow.
      rewrite Qabs_pos in Hlow by exact H0.
      assert (Hp : (Binary64.pow2 53 <= Binary64.pow2 (Binary64.ilog2 x))%Q)
        by (apply pow2_le; lia).
      rewrite (pow2_nonneg_exp (e := 53)) in Hp by lia.
      assert (Hc : (inject_Z (2 ^ 53) <= inject_Z k)%Q).
      { eapply Qle_trans; [exact Hp |]. eapply Qle_trans; eassumption. }
      rewrite <- Zle_Qle in Hc. lia. }
    unfold Binary64.ulp.
    set (E := Z.max (Binary64.ilog2 x - 52) (-1074)).
    assert (HE : E <= 0) by (subst E; lia).
    assert (Hu : (Binary64.pow2 E == / inject_Z (2 ^ (- E)))%Q).
    { replace E with (- (- E)) at 1 by lia.
      rewrite pow2_opp, pow2_nonneg_exp by lia. reflexivity. }
    assert (HP : (0 < inject_Z (2 ^ (- E)))%Q).
    { change 0%Q with (inject_Z 0). rewrite <- Zlt_Qlt.
      apply Z.pow_pos_nonneg; lia. }
    set (P := inject_Z (2 ^ (- E))) in *.
    set (m := Float.round_half_even (x / Binary64.pow2 E)).
    assert (Hscaled : (x / Binary64.pow2 E == x * P)%Q).
    { rewrite Hu. field. intros H. rewrite H in HP. apply (Qlt_irrefl 0 HP). }
    assert (Hm0 : 0 <= m).
    { apply round_half_even_nonneg. rewrite Hscaled.
      apply Qmult_le_0_compat; [exact H0 | apply Qlt_le_weak; exact HP]. }
    assert (Hmk : m <= k * 2 ^ (- E)).
    { apply round_half_even_le. rewrite Hscaled, inject_Z_mult. fold P.
      apply Qmult_le_compat_r; [exact Hk | apply Qlt_le_weak; exact HP]. }
    rewrite Hu. fold P.
    rewrite Zle_Qle in Hm0, Hmk. rewrite inject_Z_mult in Hmk. fold P in Hmk.
    change (inject_Z 0) with 0%Q in Hm0.
    split.
    + apply Qle_shift_div_l; [exact HP |]. rewrite Qmult_0_l. exact Hm0.
    + apply Qle_shift_div_r; [exact HP |]. exact Hmk.
Qed.

Lemma of_Q_bounded (x : Q) (k : Z) :
  (0 <= x <= inject_Z k)%Q -> k <= 2 ^ 52 ->
  exists y, Binary64.of_Q x = Fin y /\ (0 <= y <= inject_Z k)%Q.
Proof.
  intros Hx Hk. destruct (nearest_bounded Hx Hk) as [H0 Hy].
  unfold Binary64.of_Q.
  destruct (Qle_bool (Binary64.pow2 1024) (Qabs (Binary64.nearest x))) eqn:E.
  - exfalso. apply Qle_bool_iff in E. rewrite Qabs_pos in E by exact H0.
    rewrite (pow2_nonneg_exp (e := 1024)) in E by lia.
    assert (Hc : (inject_Z (2 ^ 1024) <= inject_Z k)%Q)
      by (eapply Qle_trans; eassumption).
    rewrite <- Zle_Qle in Hc.
    assert (2 ^ 52 < 2 ^ 1024) by (apply Z.pow_lt_mono_r; lia). lia.
  - eexists. split; [reflexivity | split; assumption].
Qed.

(** A part of a whole, in percent and rounded to one decimal, is a
    number between 0 and 100. *)
Lemma rate_pct_bounds (x t : Q) :
  (0 < t)%Q -> (0 <= x <= t)%Q ->
  exists q, rate_pct (Fin x) (Fin t) = Fin q /\ (0 <= q <= 100)%Q.
Proof.
  intros Ht [Hx0 Hxt].
  assert (Htz : Qeq_bool t 0 = false).
  { destruct (Qeq_bool t 0) eqn:E; [| reflexivity].
    apply Qeq_bool_iff in E. rewrite E in Ht. discriminate Ht. }
  unfold rate_pct, Binary64.round, Binary64.div, Binary64.mul.
  cbn [Float.div]. rewrite Htz. cbn [Binary64.rounded].
  destruct (@of_Q_bounded (x / t) 1) as (y1 & -> & H1lo & H1hi); [| lia |].
  { split.
    - apply Qle_shift_div_l; [exact Ht | lra].
    - apply Qle_shift_div_r; [exact Ht |]. change (inject_Z 1) with 1%Q. lra. }
  change (inject_Z 1) with 1%Q in H1hi.
  cbn [Float.mul Binary64.rounded].
  destruct (@of_Q_bounded (y1 * 100) 100) as (y2 & -> & H2lo & H2hi); [| lia |].
  { change (inject_Z 100) with 100%Q. lra. }
  change (inject_Z 100) with 100%Q in H2hi.
  change (inject_Z (10 ^ Z.of_nat 1)) with 10%Q.
  cbn [Float.mul Binary64.rounded].
  destruct (@of_Q_bounded (y2 * 10) 1000) as (y3 & -> & H3lo & H3hi); [| lia |].
  { change (inject_Z 1000) with 1000%Q. lra. }
  cbn [Binary64.rint Float.div].
  change (Qeq_bool 10 0) with false. cbv iota. cbn [Binary64.rounded].
  pose proof (round_half_even_nonneg H3lo) as Hm0.
  pose proof (round_half_even_le H3hi) as Hm1.
  set (m := Float.round_half_even y3) in *.
  rewrite Zle_Qle in Hm0, Hm1.
  change (inject_Z 0) with 0%Q in Hm0. change (inject_Z 1000) with 1000%Q in Hm1.
  destruct (@of_Q_bounded (inject_Z m / 10) 100) as (y4 & -> & H4);
    [| lia | exists y4; split; [reflexivity | exact H4]].
  change (inject_Z 100) with 100%Q.
  assert (Hdiv : (inject_Z m / 10 == inject_Z m * (1 # 10))%Q)
    by (field; discriminate).
  rewrite Hdiv. lra.
Qed.

(** The two rates of a row need not add up to 100: with 23 returns among
    80 orders the table holds 28.7 and 71.2. *)
Lemma rates_of_23_in_80 :
  rate_pct (Float.of_Z 23) (Float.of_Z 80) = Binary64.of_Q 28.7
  /\ rate_pct (Float.sub (Float.of_Z 80) (Float.of_Z 23)) (Float.of_Z 80)
     = Binary64.of_Q 71.2.
Proof. split; vm_compute; reflexivity. Qed.

(** ** Rows of the return table *)

Lemma return_cells_shape (T R : Z) :
  1 <= T -> 0 <= R <= T ->
  exists rate completed completion,
    return_cells (Float.of_Z T) (Float.of_Z R)
    = [Float.of_Z T; Float.of_Z R; Fin rate; Fin completed; Fin completion]
    /\ Fin rate = rate_pct (Float.of_Z R) (Float.of_Z T)
    /\ (0 <= rate <= 100)%Q
    /\ (completed == inject_Z (T - R))%Q
    /\ Fin completion = rate_pct (Fin completed) (Float.of_Z T)
    /\ (0 <= completion <= 100)%Q.
Proof.
  intros HT HR.
  assert (HTq : (0 < inject_Z T)%Q).
  { change 0%Q with (inject_Z 0). rewrite <- Zlt_Qlt. lia. }
  assert (HR0 : (0 <= inject_Z R)%Q).
  { change 0%Q with (inject_Z 0). rewrite <- Zle_Qle. lia. }
  assert (HRT : (inject_Z R <= inject_Z T)%Q) by (rewrite <- Zle_Qle; lia).
  unfold return_cells, Float.of_Z, Float.sub. cbn [Float.neg Float.add].
  destruct (@rate_pct_bounds (inject_Z R) (inject_Z T) HTq)
    as (rate & Hrate & Hrb); [split; assumption |].
  destruct (@rate_pct_bounds (inject_Z T + - inject_Z R) (inject_Z T) HTq)
    as (completion & Hcompletion & Hcb); [lra |].
  exists rate, (inject_Z T + - inject_Z R)%Q, completion.
  rewrite Hrate, Hcompletion.
  split; [reflexivity |]. split; [reflexivity |]. split; [exact Hrb |].
  split; [| split; [reflexivity | exact Hcb]].
  unfold Z.sub. rewrite inject_Z_plus, inject_Z_opp. reflexivity.
Qed.

Lemma cell_desc_before_total (a b : float) :
  cell_desc_before a b = false -> cell_desc_before b a = true.
Proof.
  destruct a as [x | | |], b as [y | | |]; simpl; try discriminate; auto.
  apply Qle_bool_total.
Qed.

(** The return table of the category page is always produced and no
    category appears twice in it; in every row the returns are between 0
    and the number of orders, the completed orders are the difference of
    the two counts, the return rate and the completion rate are the
    binary64 values of part / whole * 100 rounded to one decimal, and
    both are numbers between 0 and 100; the rows are in descending order
    of return rate. *)
Theorem return_table_invariants (df : frame) :
  exists table,
    return_analysis df = ret table
    /\ NoDup (map fst (df_rows table))
    /\ Forall (fun row =>
                 exists T R rate completed completion,
                   snd row = [Float.of_Z T; Float.of_Z R; Fin rate;
                              Fin completed; Fin completion]
                   /\ 1 <= T /\ 0 <= R <= T
                   /\ Fin rate = rate_pct (Float.of_Z R) (Float.of_Z T)
                   /\ (0 <= rate <= 100)%Q
                   /\ (completed == inject_Z (T - R))%Q
                   /\ Fin completion
                      = rate_pct (Fin completed) (Float.of_Z T)
                   /\ (0 <= completion <= 100)%Q)
              (df_rows table)
    /\ Sorted (fun a b => Float.leb (rate_cell b) (rate_cell a) = true)
              (df_rows table).
Proof.
  eexists. split; [apply return_analysis_rows |]. cbn [df_rows].
  set (cmp := fun a b : string * list float =>
                cell_desc_before (nth 2 (snd a) NaN) (nth 2 (snd b) NaN)).
  pose proof (sort_keys_perm cmp (map return_row (by_category df))) as Hperm.
  assert (Hrows : Forall (fun row =>
                 exists T R rate completed completion,
                   snd row = [Float.of_Z T; Float.of_Z R; Fin rate;
                              Fin completed; Fin completion]
                   /\ 1 <= T /\ 0 <= R <= T
                   /\ Fin rate = rate_pct (Float.of_Z R) (Float.of_Z T)
                   /\ (0 <= rate <= 100)%Q
                   /\ (completed == inject_Z (T - R))%Q
                   /\ Fin completion
                      = rate_pct (Fin completed) (Float.of_Z T)
                   /\ (0 <= completion <= 100)%Q)
              (sort_keys cmp (map return_row (by_category df)))).
  { apply Forall_forall. intros row Hrow.
    apply (Permutation_in _ Hperm) in Hrow.
    apply in_map_iff in Hrow. destruct Hrow as ([c rows] & <- & Hg).
    destruct (category_group df c rows Hg) as [_ Hne].
    assert (HT : 1 <= Z.of_nat (List.length rows))
      by (destruct rows; [congruence | simpl List.length; lia]).
    pose proof (count_true_bounds is_cancelled_or_returned rows) as HR.
    destruct (return_cells_shape HT HR)
      as (rate & completed & completion & Hcells & Hrate & Hrb & Hdone
          & Hcompletion & Hcb).
    exists (Z.of_nat (List.length rows)),
      (count_true is_cancelled_or_returned rows),
      rate, completed, completion.
    unfold return_row. cbn [snd].
    split; [exact Hcells |].
    split; [exact HT | split; [exact HR | split; [exact Hrate |]]].
    split; [exact Hrb | split; [exact Hdone |]].
    split; [exact Hcompletion | exact Hcb]. }
  split; [| split; [exact Hrows |]].
  - eapply Permutation_NoDup;
      [apply Permutation_map, Permutation_sym; exact Hperm |].
    rewrite map_map. unfold return_row. cbn [fst].
    apply groupby_keys_NoDup. apply String.eqb_eq.
  - eapply Sorted_restrict
      with (P := fun row => exists q, rate_cell row = Fin q)
           (R := fun a b => cmp a b = true).
    + intros a b [qa Ha] [qb Hb]. unfold cmp, rate_cell in *.
      rewrite Ha, Hb. simpl. auto.
    + revert Hrows. apply Forall_impl.
      intros row (T & R & rate & completed & completion & Hcells & _).
      exists rate. unfold rate_cell.
      apply (f_equal (fun cells => nth 2 cells NaN)) in Hcells.
      exact Hcells.
    + apply sort_keys_Sorted. intros a b. apply cell_desc_before_total.
Qed.

(** ** Seasons *)

Lemma get_season_in_order (month : Z) : In (get_season month) season_order.
Proof.
  unfold get_season, season_order.
  repeat match goal with
         | |- context [if ?c then _ else _] => destruct c
         end; simpl; tauto.
Qed.

(** Months 1 to 12 fall into the four seasons in blocks of three,
    December opening the cycle; every other integer is taken as Fall
    without an error. *)
Theorem get_season_cycle (month : Z) :
  In (get_season month) season_order
  /\ (1 <= month <= 12 ->
      get_season month
      = nth (Z.to_nat ((month mod 12) / 3)) season_order ""%string)
  /\ (month < 1 \/ 12 < month -> get_season month = "Fall"%string).
Proof.
  split; [| split].
  - apply get_season_in_order.
  - intros Hm.
    assert (Hcases : month = 1 \/ month = 2 \/ month = 3 \/ month = 4
                     \/ month = 5 \/ month = 6 \/ month = 7 \/ month = 8
                     \/ month = 9 \/ month = 10 \/ month = 11 \/ month = 12)
      by lia.
    repeat (destruct Hcases as [-> | Hcases]; [reflexivity |]).
    subst month. reflexivity.
  - intros Hout. unfold get_season. cbn [existsb].
    repeat match goal with
           | |- context [month =? ?k] =>
               destruct (Z.eqb_spec month k); [exfalso; lia |]
           end.
    reflexivity.
Qed.

Lemma get_season_cycle_witness :
  get_season 12 = "Winter"%string /\ get_season 0 = "Fall"%string.
Proof.
  destruct (get_season_cycle 12) as (_ & Hin & _).
  destruct (get_season_cycle 0) as (_ & _ & Hout).
  split; [rewrite Hin by lia; reflexivity | apply Hout; lia].
Defined.

Lemma find_keyed (B : Type) (F : string -> B) (l : string) (ks : list string) :
  In l ks ->
  find (fun x : string * B => String.eqb (fst x) l) (map (fun k => (k, F k)) ks)
  = Some (l, F l).
Proof.
  induction ks as [| k rest IH]; [intros [] |].
  intros Hin. cbn [map find fst].
  destruct (String.eqb_spec k l) as [-> | Hneq]; [reflexivity |].
  apply IH. destruct Hin as [H | H]; [congruence | exact H].
Qed.

Lemma existsb_eqb_In (l : string) (ks : list string) :
  existsb (String.eqb l) ks = true <-> In l ks.
Proof.
  rewrite existsb_exists. split.
  - intros (k & Hk & E). apply String.eqb_eq in E. subst. exact Hk.
  - intros H. exists l. split; [exact H | apply String.eqb_refl].
Qed.

Lemma NoDup_season_order : NoDup season_order.
Proof.
  unfold season_order.
  repeat (apply NoDup_cons;
          [simpl; intros H;
           repeat (destruct H as [H | H]; [discriminate H |]); exact H |]).
  apply NoDup_nil.
Qed.

Section SeasonFacts.

Variable month_of : Z -> Z.

Lemma revenue_by_season (df : frame) :
  revenue_by (Season month_of) df
  = map (fun k => (k, Fin (season_sum month_of df k)))
        (season_keys month_of df).
Proof.
  unfold revenue_by, groupby, season_keys, season_sum. rewrite map_map. reflexivity.
Qed.

Lemma season_keys_In (df : frame) (s : string) :
  In s (season_keys month_of df) <-> exists o, In o df /\ Season month_of o = s.
Proof.
  unfold season_keys. split.
  - intros H. apply (Permutation_in _ (sort_keys_perm _ _)) in H.
    rewrite (unique_In String.eqb string_leb String.eqb_eq) in H.
    apply in_map_iff in H. destruct H as (o & Ho & Hin).
    exists o. split; assumption.
  - intros (o & Hin & <-).
    apply (Permutation_in _ (Permutation_sym (sort_keys_perm _ _))).
    apply (unique_In String.eqb string_leb String.eqb_eq).
    apply in_map. exact Hin.
Qed.

Lemma season_keys_NoDup (df : frame) : NoDup (season_keys month_of df).
Proof.
  unfold season_keys.
  eapply Permutation_NoDup; [apply Permutation_sym, sort_keys_perm |].
  apply unique_NoDup. apply String.eqb_eq.
Qed.

Lemma seasonal_labels (df : frame) :
  map fst (seasonal_rev month_of df)
  = filter (fun s => existsb (fun o => String.eqb (Season month_of o) s) df)
           season_order.
Proof.
  unfold seasonal_rev, reindex. rewrite map_map. cbn [fst]. rewrite map_id.
  apply filter_ext. intros s. unfold in_index.
  apply eq_true_iff_eq.
  rewrite existsb_eqb_In, revenue_by_season, map_map. cbn [fst].
  rewrite map_id, season_keys_In, existsb_exists.
  split; intros (o & Ho & E); exists o; split; try assumption.
  - apply String.eqb_eq. exact E.
  - apply String.eqb_eq. exact E.
Qed.

Lemma seasonal_labels_keys (df : frame) :
  Permutation (map fst (seasonal_rev month_of df)) (season_keys month_of df).
Proof.
  apply NoDup_Permutation.
  - rewrite seasonal_labels. apply NoDup_filter. apply NoDup_season_order.
  - apply season_keys_NoDup.
  - intros s. rewrite seasonal_labels, filter_In, season_keys_In,
      existsb_exists.
    split.
    + intros (_ & o & Ho & E). exists o. split; [exact Ho |].
      apply String.eqb_eq. exact E.
    + intros (o & Ho & <-). split.
      * apply get_season_in_order.
      * exists o. split; [exact Ho | apply String.eqb_refl].
Qed.

Lemma seasonal_values (df : frame) :
  seasonal_rev month_of df
  = map (fun s => (s, Fin (season_sum month_of df s)))
        (map fst (seasonal_rev month_of df)).
Proof.
  unfold seasonal_rev at 1. unfold reindex.
  fold (reindex (filter (in_index (revenue_by (Season month_of) df))
                        season_order)
                (revenue_by (Season month_of) df)).
  assert (Hlabels : map fst (seasonal_rev month_of df)
                    = filter (in_index (revenue_by (Season month_of) df))
                             season_order).
  { unfold seasonal_rev, reindex. rewrite map_map. cbn [fst].
    apply map_id. }
  rewrite Hlabels. unfold reindex. apply map_ext_in. intros s Hs.
  assert (Hkey : In s (season_keys month_of df)).
  { apply (Permutation_in _ (seasonal_labels_keys df)).
    rewrite Hlabels. exact Hs. }
  rewrite revenue_by_season.
  rewrite (find_keyed (fun k => Fin (season_sum month_of df k)) s _ Hkey).
  reflexivity.
Qed.

Lemma seasonal_values_sum (df : frame) :
  exists values,
    map snd (seasonal_rev month_of df) = map Fin values
    /\ (Qsum values == Qsum (map order_value df))%Q.
Proof.
  exists (map (season_sum month_of df) (map fst (seasonal_rev month_of df))).
  split.
  - rewrite (seasonal_values df) at 1. rewrite !map_map. reflexivity.
  - rewrite (Qsum_perm (Permutation_map (season_sum month_of df)
                                        (seasonal_labels_keys df))).
    unfold season_sum.
    apply (group_sums String.eqb String.eqb_eq (Season month_of) order_value).
    + apply season_keys_NoDup.
    + intros o Ho. apply season_keys_In. exists o. split; [exact Ho |].
      reflexivity.
Qed.

(** The seasonal revenue table lists the seasons that have orders, in
    the order Winter, Spring, Summer, Fall; its entries are numbers, and
    they add up to the total revenue: no order is lost by the
    re-indexing. *)
Theorem seasonal_revenue_conserved (df : frame) :
  map fst (seasonal_rev month_of df)
  = filter (fun s => existsb (fun o => String.eqb (Season month_of o) s) df)
           season_order
  /\ exists values,
       map snd (seasonal_rev month_of df) = map Fin values
       /\ (Qsum values == Qsum (map order_value df))%Q.
Proof.
  split; [apply seasonal_labels | apply seasonal_values_sum].
Qed.

End SeasonFacts.

(** ** The label of the largest value *)

Lemma filter_finite (s : series) :
  finite_series s ->
  filter (fun x => negb (Float.is_nan (snd x))) s = s.
Proof.
  intros H. apply filter_all. revert H. apply Forall_impl.
  intros [l v] [q Hq]. simpl in *. subst v. reflexivity.
Qed.

Lemma idxmax_from_spec (s : series) :
  forall best,
    finite_series (best :: s) ->
    exists q,
      In (idxmax_from best s, Fin q) (best :: s)
      /\ forall x q', In x (best :: s) -> snd x = Fin q' -> (q' <= q)%Q.
Proof.
  induction s as [| x rest IH]; intros best Hfin.
  - inversion Hfin as [| ? ? [q Hq] _]; subst.
    exists q. simpl. split.
    + left. destruct best as [l v]. simpl in *. congruence.
    + intros y q' [<- | []] Hy. rewrite Hq in Hy. inversion Hy.
      apply Qle_refl.
  - inversion Hfin as [| ? ? [qb Hb] Hrest]; subst.
    inversion Hrest as [| ? ? [qx Hx] Hrest']; subst.
    cbn [idxmax_from]. rewrite Hb, Hx. cbn [Float.ltb].
    destruct (Qle_bool qx qb) eqn:E; cbn [negb].
    + destruct (IH best) as (q & Hin & Hmax).
      { constructor; [exists qb; exact Hb | exact Hrest']. }
      exists q. split.
      * destruct Hin as [Hin | Hin]; [left; exact Hin | right; right; exact Hin].
      * intros y q' Hy Hyq.
        destruct Hy as [<- | [<- | Hy]].
        -- apply (Hmax best q'); [left; reflexivity | exact Hyq].
        -- rewrite Hx in Hyq. inversion Hyq; subst.
           apply Qle_bool_iff in E.
           eapply Qle_trans; [exact E |].
           apply (Hmax best qb); [left; reflexivity | exact Hb].
        -- apply (Hmax y q'); [right; exact Hy | exact Hyq].
    + destruct (IH x) as (q & Hin & Hmax).
      { constructor; [exists qx; exact Hx | exact Hrest']. }
      exists q. split; [right; exact Hin |].
      intros y q' Hy Hyq.
      destruct Hy as [<- | Hy].
      * rewrite Hb in Hyq. inversion Hyq; subst.
        apply Qle_bool_total in E. apply Qle_bool_iff in E.
        eapply Qle_trans; [exact E |].
        apply (Hmax x qx); [left; reflexivity | exact Hx].
      * apply (Hmax y q'); assumption.
Qed.

Lemma idxmax_spec (s : series) :
  finite_series s -> s <> [] ->
  exists l q,
    idxmax s = ret l
    /\ In (l, Fin q) s
    /\ forall x q', In x s -> snd x = Fin q' -> (q' <= q)%Q.
Proof.
  intros Hfin Hne. unfold idxmax. rewrite (filter_finite Hfin).
  destruct s as [| best rest]; [congruence |].
  destruct (idxmax_from_spec Hfin) as (q & Hin & Hmax).
  exists (idxmax_from best rest), q. split; [reflexivity |].
  split; assumption.
Qed.

(** For a non-empty table the peak season is a season that has orders
    and whose revenue is at least that of every season in the table; on
    an empty table looking for the peak raises. *)
Theorem peak_season_is_largest (month_of : Z -> Z) (df : frame) :
  (df <> [] ->
   exists s q,
     peak_season month_of df = ret s
     /\ In (s, Fin q) (seasonal_rev month_of df)
     /\ (exists o, In o df /\ Season month_of o = s)
     /\ forall s' q', In (s', Fin q') (seasonal_rev month_of df) ->
                      (q' <= q)%Q)
  /\ peak_season month_of []
     = raise (ValueError "attempt to get argmax of an empty sequence").
Proof.
  split; [| reflexivity].
  intros Hne.
  destruct (seasonal_values_sum month_of df) as (values & Hvalues & _).
  assert (Hfin : finite_series (seasonal_rev month_of df)).
  { unfold finite_series. apply Forall_forall. intros x Hx.
    apply (in_map snd) in Hx. rewrite Hvalues in Hx.
    apply in_map_iff in Hx. destruct Hx as (q & Hq & _).
    exists q. symmetry. exact Hq. }
  assert (Hsome : seasonal_rev month_of df <> []).
  { destruct df as [| o rest]; [congruence |].
    intros Hnil.
    assert (Hin : In (Season month_of o)
                     (map fst (seasonal_rev month_of (o :: rest)))).
    { apply (Permutation_in _
               (Permutation_sym (seasonal_labels_keys month_of (o :: rest)))).
      apply season_keys_In. exists o. split; [left |]; reflexivity. }
    rewrite Hnil in Hin. exact Hin. }
  destruct (idxmax_spec Hfin Hsome) as (s & q & Hpeak & Hin & Hmax).
  exists s, q. split; [exact Hpeak |]. split; [exact Hin |]. split.
  - apply (season_keys_In month_of df).
    apply (Permutation_in _ (seasonal_labels_keys month_of df)).
    apply (in_map fst) in Hin. exact Hin.
  - intros s' q' Hin'. apply (Hmax (s', Fin q') q' Hin'). reflexivity.
Qed.

Lemma peak_season_is_largest_witness :
  exists s q,
    peak_season (fun t => (t / one_day) mod 12 + 1) sample_orders = ret s
    /\ In (s, Fin q)
          (seasonal_rev (fun t => (t / one_day) mod 12 + 1) sample_orders).
Proof.
  destruct (peak_season_is_largest
              (fun t => (t / one_day) mod 12 + 1) sample_orders)
    as [Hpeak _].
  destruct Hpeak as (s & q & Hs & Hin & _); [discriminate |].
  exists s, q. split; assumption.
Defined.

(** ** Segment counts *)

Lemma value_counts_perm (values : list string) :
  Permutation (value_counts values)
              (map (fun v => (v, count_true (String.eqb v) values))
                   (unique String.eqb values)).
Proof. apply sort_keys_perm. Qed.

Lemma count_as_group (v : string) (values : list string) :
  count_true (String.eqb v) values
  = Z.of_nat (List.length (filter (fun x => String.eqb x v) values)).
Proof.
  unfold count_true. f_equal. f_equal. apply filter_ext.
  intros x. apply String.eqb_sym.
Qed.

(** The segment counts list every segment that occurs among the scored
    customers once, with a count of at least 1; the counts add up to the
    number of customers and are in descending order. *)
Theorem segment_counts_total (table : list scored_row) :
  Zsum (map snd (segment_counts table)) = Z.of_nat (List.length table)
  /\ NoDup (map fst (segment_counts table))
  /\ (forall label, In label (map fst (segment_counts table))
                    <-> exists s, In s table /\ Segment s = label)
  /\ Forall (fun entry => 1 <= snd entry) (segment_counts table)
  /\ Sorted (fun a b => snd b <= snd a) (segment_counts table).
Proof.
  set (values := map Segment table).
  set (raw := map (fun v => (v, count_true (String.eqb v) values))
                  (unique String.eqb values)).
  assert (Hperm : Permutation (segment_counts table) raw).
  { unfold segment_counts. fold values.
    eapply perm_trans; [apply sort_keys_perm | apply value_counts_perm]. }
  assert (Hkeys : map fst raw = unique String.eqb values).
  { subst raw. rewrite map_map. apply map_id. }
  split; [| split; [| split; [| split]]].
  - rewrite (Zsum_perm (Permutation_map snd Hperm)).
    subst raw. rewrite map_map. cbn [snd].
    erewrite map_ext by (intros v; apply count_as_group).
    rewrite (Zsum_sizes
               (fun v => List.length (filter (fun x => String.eqb x v) values))).
    rewrite (group_sizes String.eqb String.eqb_eq (fun x : string => x)).
    + subst values. rewrite length_map. reflexivity.
    + apply unique_NoDup. apply String.eqb_eq.
    + intros x Hx. apply (unique_In String.eqb string_leb String.eqb_eq).
      exact Hx.
  - eapply Permutation_NoDup;
      [apply Permutation_map, Permutation_sym; exact Hperm |].
    rewrite Hkeys. apply unique_NoDup. apply String.eqb_eq.
  - intros label. split.
    + intros Hin.
      apply (Permutation_in _ (Permutation_map fst Hperm)) in Hin.
      rewrite Hkeys in Hin.
      rewrite (unique_In String.eqb string_leb String.eqb_eq) in Hin.
      subst values. apply in_map_iff in Hin.
      destruct Hin as (s & Hs & Hin). exists s. split; assumption.
    + intros (s & Hs & <-).
      apply (Permutation_in _ (Permutation_sym (Permutation_map fst Hperm))).
      rewrite Hkeys.
      apply (unique_In String.eqb string_leb String.eqb_eq).
      subst values. apply in_map. exact Hs.
  - apply Forall_forall. intros entry Hentry.
    apply (Permutation_in _ Hperm) in Hentry. subst raw.
    apply in_map_iff in Hentry. destruct Hentry as (v & <- & Hv).
    rewrite (unique_In String.eqb string_leb String.eqb_eq) in Hv.
    cbn [snd]. unfold count_true.
    assert (Hmem : In v (filter (String.eqb v) values)).
    { apply filter_In. split; [exact Hv | apply String.eqb_refl]. }
    destruct (filter (String.eqb v) values); [destruct Hmem |].
    simpl List.length. lia.
  - unfold segment_counts.
    eapply Sorted_restrict with (P := fun _ => True);
      [| apply Forall_forall; intros; exact I
       | apply sort_keys_Sorted; intros a b; cbn beta; lia].
    intros a b _ _ H. apply Z.leb_le. exact H.
Qed.

(** ** Order statistics of the revenue page *)

Lemma sort_Q_sorted (xs : list Q) : StronglySorted Qle (sort_Q xs).
Proof.
  apply Sorted_StronglySorted; [intros x y z; apply Qle_trans |].
  unfold sort_Q.
  eapply Sorted_restrict with (P := fun _ => True);
    [| apply Forall_forall; intros; exact I
     | apply sort_keys_Sorted; apply Qle_bool_total].
  intros a b _ _ H. apply Qle_bool_iff. exact H.
Qed.

Lemma sort_Q_perm (xs : list Q) : Permutation (sort_Q xs) xs.
Proof. apply sort_keys_perm. Qed.

Lemma sorted_nth_le (l : list Q) :
  StronglySorted Qle l ->
  forall i j d,
    (i <= j < List.length l)%nat -> (nth i l d <= nth j l d)%Q.
Proof.
  induction 1 as [| a l Hsorted IH Hall]; intros i j d Hij.
  - simpl in Hij. lia.
  - destruct i as [| i], j as [| j]; simpl in *; try lia.
    + apply Qle_refl.
    + rewrite Forall_forall in Hall. apply Hall. apply nth_In. lia.
    + apply IH. lia.
Qed.

(** Position, lower neighbour and weight of a quantile. *)
Lemma quantile_between (l : list Q) (k q : Z) :
  StronglySorted Qle l -> l <> [] -> 0 <= k <= q -> 0 < q ->
  let lo := Z.to_nat ((Z.of_nat (List.length l) - 1) * k / q) in
  (lo < List.length l)%nat
  /\ (nth lo l 0 <= quantile l k q)%Q
  /\ (quantile l k q <= nth (S lo) l (nth lo l 0))%Q
  /\ (nth lo l 0 <= nth (S lo) l (nth lo l 0))%Q.
Proof.
  intros Hsorted Hne Hk Hq lo.
  assert (Hn : (1 <= List.length l)%nat)
    by (destruct l; [congruence | simpl; lia]).
  set (n := Z.of_nat (List.length l)) in *.
  set (pos := (n - 1) * k) in *.
  assert (Hpos : 0 <= pos <= (n - 1) * q) by (subst pos n; nia).
  assert (Hlo : 0 <= pos / q <= n - 1).
  { split; [apply Z.div_pos; lia |].
    apply Z.div_le_upper_bound; [lia | nia]. }
  assert (Hlt : (lo < List.length l)%nat) by (subst lo n; lia).
  assert (Hab : (nth lo l 0 <= nth (S lo) l (nth lo l 0))%Q).
  { destruct (Nat.lt_ge_cases (S lo) (List.length l)) as [Hin | Hout].
    - rewrite (nth_indep l (nth lo l 0%Q) 0%Q Hin).
      apply (sorted_nth_le Hsorted). lia.
    - rewrite (nth_overflow l (nth lo l 0%Q) Hout). apply Qle_refl. }
  assert (Hr : 0 <= pos mod q < q) by (apply Z.mod_pos_bound; lia).
  assert (Hfrac : (0 <= inject_Z (pos mod q) / inject_Z q <= 1)%Q).
  { assert (Hq0 : (0 < inject_Z q)%Q)
      by (change 0%Q with (inject_Z 0); rewrite <- Zlt_Qlt; lia).
    split.
    - apply Qle_shift_div_l; [exact Hq0 |].
      rewrite Qmult_0_l. change 0%Q with (inject_Z 0).
      rewrite <- Zle_Qle. lia.
    - apply Qle_shift_div_r; [exact Hq0 |].
      rewrite Qmult_1_l. rewrite <- Zle_Qle. lia. }
  unfold quantile. fold n. fold pos.
  replace (Z.to_nat (pos / q + 1)) with (S lo) by (subst lo; lia).
  fold lo.
  set (a := nth lo l 0%Q) in *. set (b := nth (S lo) l a) in *.
  set (w := (inject_Z (pos mod q) / inject_Z q)%Q) in *.
  split; [exact Hlt |]. split; [| split; [| exact Hab]]; nra.
Qed.

Lemma weight_le (r1 q1 r2 q2 : Z) :
  0 < q1 -> 0 < q2 -> r1 * q2 <= r2 * q1 ->
  (inject_Z r1 / inject_Z q1 <= inject_Z r2 / inject_Z q2)%Q.
Proof.
  intros H1 H2 Hle.
  assert (Hq1 : (0 < inject_Z q1)%Q)
    by (change 0%Q with (inject_Z 0); rewrite <- Zlt_Qlt; lia).
  assert (Hq2 : (0 < inject_Z q2)%Q)
    by (change 0%Q with (inject_Z 0); rewrite <- Zlt_Qlt; lia).
  apply Qle_shift_div_r; [exact Hq1 |].
  assert (Hswap : (inject_Z r2 / inject_Z q2 * inject_Z q1
                   == inject_Z r2 * inject_Z q1 / inject_Z q2)%Q).
  { field. intros H. rewrite H in Hq2. apply (Qlt_irrefl 0). exact Hq2. }
  rewrite Hswap. apply Qle_shift_div_l; [exact Hq2 |].
  rewrite <- !inject_Z_mult, <- Zle_Qle. exact Hle.
Qed.

(** A quantile at a lower level is not larger. *)
Lemma quantile_monotone (l : list Q) (k1 q1 k2 q2 : Z) :
  StronglySorted Qle l -> l <> [] ->
  0 <= k1 <= q1 -> 0 <= k2 <= q2 -> 0 < q1 -> 0 < q2 ->
  k1 * q2 <= k2 * q1 ->
  (quantile l k1 q1 <= quantile l k2 q2)%Q.
Proof.
  intros Hsorted Hne Hk1 Hk2 Hq1 Hq2 Hlevel.
  destruct (quantile_between Hsorted Hne Hk1 Hq1) as (Hlt1 & Hlo1 & Hhi1 & Hab1).
  destruct (quantile_between Hsorted Hne Hk2 Hq2) as (Hlt2 & Hlo2 & Hhi2 & Hab2).
  assert (Hn : (1 <= List.length l)%nat)
    by (destruct l; [congruence | simpl; lia]).
  set (n := Z.of_nat (List.length l)) in *.
  set (pos1 := (n - 1) * k1) in *. set (pos2 := (n - 1) * k2) in *.
  assert (Hpos : pos1 * q2 <= pos2 * q1) by (subst pos1 pos2 n; nia).
  assert (Hp1 : 0 <= pos1) by (subst pos1 n; nia).
  assert (Hp2 : 0 <= pos2) by (subst pos2 n; nia).
  pose proof (Z.mul_div_le pos1 q1 Hq1) as Hd1.
  assert (Hd1' : pos1 < q1 * (pos1 / q1) + q1).
  { pose proof (Z.mod_pos_bound pos1 q1 Hq1).
    pose proof (Z.div_mod pos1 q1). lia. }
  pose proof (Z.mul_div_le pos2 q2 Hq2) as Hd2.
  assert (Hd2' : pos2 < q2 * (pos2 / q2) + q2).
  { pose proof (Z.mod_pos_bound pos2 q2 Hq2).
    pose proof (Z.div_mod pos2 q2). lia. }
  assert (H01 : 0 <= pos1 / q1) by (apply Z.div_pos; lia).
  assert (H02 : 0 <= pos2 / q2) by (apply Z.div_pos; lia).
  assert (Hlo : pos1 / q1 <= pos2 / q2).
  { apply Z.div_le_lower_bound; [lia | nia]. }
  set (lo1 := Z.to_nat (pos1 / q1)) in *.
  set (lo2 := Z.to_nat (pos2 / q2)) in *.
  destruct (Z.eq_dec (pos1 / q1) (pos2 / q2)) as [Heq | Hneq].
  - assert (Hsame : lo1 = lo2) by (subst lo1 lo2; congruence).
    unfold quantile. fold n. fold pos1. fold pos2.
    replace (Z.to_nat (pos1 / q1 + 1)) with (S lo1) by (subst lo1; lia).
    replace (Z.to_nat (pos2 / q2 + 1)) with (S lo2) by (subst lo2; lia).
    fold lo1. fold lo2. rewrite <- Hsame in *.
    assert (Hw : (inject_Z (pos1 mod q1) / inject_Z q1
                  <= inject_Z (pos2 mod q2) / inject_Z q2)%Q).
    { apply weight_le; try assumption.
      rewrite !Z.mod_eq by lia. rewrite <- Heq. nia. }
    set (a := nth lo1 l 0%Q) in *. set (b := nth (S lo1) l a) in *.
    nra.
  - assert (Hstep : (S lo1 <= lo2)%nat) by (subst lo1 lo2; lia).
    eapply Qle_trans; [exact Hhi1 |].
    eapply Qle_trans; [| exact Hlo2].
    rewrite (nth_indep l (nth lo1 l 0%Q) 0%Q) by lia.
    apply (sorted_nth_le Hsorted). lia.
Qed.

Lemma Qmin2_le (a b : Q) : (Qmin2 a b <= a)%Q /\ (Qmin2 a b <= b)%Q.
Proof.
  unfold Qmin2. destruct (Qle_bool a b) eqn:E.
  - apply Qle_bool_iff in E. split; [apply Qle_refl | exact E].
  - apply Qle_bool_total in E. apply Qle_bool_iff in E.
    split; [exact E | apply Qle_refl].
Qed.

Lemma Qmax2_ge (a b : Q) : (a <= Qmax2 a b)%Q /\ (b <= Qmax2 a b)%Q.
Proof.
  unfold Qmax2. destruct (Qle_bool a b) eqn:E.
  - apply Qle_bool_iff in E. split; [exact E | apply Qle_refl].
  - apply Qle_bool_total in E. apply Qle_bool_iff in E.
    split; [apply Qle_refl | exact E].
Qed.

Lemma fold_min_lower (rest : list Q) (x : Q) :
  Forall (fun y => fold_left Qmin2 rest x <= y)%Q (x :: rest).
Proof.
  revert x. induction rest as [| y rest IH]; intros x.
  - constructor; [apply Qle_refl | constructor].
  - cbn [fold_left]. specialize (IH (Qmin2 x y)).
    inversion IH as [| ? ? Hm Hrest]; subst.
    destruct (Qmin2_le x y) as [Hx Hy].
    constructor; [eapply Qle_trans; eassumption |].
    constructor; [eapply Qle_trans; eassumption | exact Hrest].
Qed.

Lemma fold_max_upper (rest : list Q) (x : Q) :
  Forall (fun y => y <= fold_left Qmax2 rest x)%Q (x :: rest).
Proof.
  revert x. induction rest as [| y rest IH]; intros x.
  - constructor; [apply Qle_refl | constructor].
  - cbn [fold_left]. specialize (IH (Qmax2 x y)).
    inversion IH as [| ? ? Hm Hrest]; subst.
    destruct (Qmax2_ge x y) as [Hx Hy].
    constructor; [eapply Qle_trans; eassumption |].
    constructor; [eapply Qle_trans; eassumption | exact Hrest].
Qed.

Lemma series_quantile_value (xs : list Q) (k q : Z) :
  xs <> [] ->
  series_quantile xs k q = Fin (quantile (sort_Q xs) k q)
  /\ sort_Q xs <> [].
Proof.
  intros Hne.
  assert (Hs : sort_Q xs <> []).
  { intros Hnil. pose proof (sort_Q_perm xs) as Hperm. rewrite Hnil in Hperm.
    apply Permutation_nil in Hperm. contradiction. }
  split; [| exact Hs].
  unfold series_quantile. destruct (sort_Q xs); [congruence | reflexivity].
Qed.

(** For a non-empty table the five figures of the box plot are numbers
    in the order minimum, first quartile, median, third quartile,
    maximum, and the interquartile range is their difference and is not
    negative. *)
Theorem revenue_summary_ordered (df : frame) :
  df <> [] ->
  exists mn q1 med q3 mx,
    stat_min (revenue_stats df) = Fin mn
    /\ stat_q1 (revenue_stats df) = Fin q1
    /\ stat_median (revenue_stats df) = Fin med
    /\ stat_q3 (revenue_stats df) = Fin q3
    /\ stat_max (revenue_stats df) = Fin mx
    /\ stat_iqr (revenue_stats df) = Fin (q3 - q1)
    /\ (mn <= q1)%Q /\ (q1 <= med)%Q /\ (med <= q3)%Q /\ (q3 <= mx)%Q
    /\ (0 <= q3 - q1)%Q.
Proof.
  intros Hne. unfold revenue_stats. cbn [stat_min stat_q1 stat_median stat_q3
                                         stat_max stat_iqr].
  set (xs := map order_value df).
  assert (Hxs : xs <> []) by (subst xs; destruct df; [congruence | discriminate]).
  destruct (series_quantile_value 1 4 Hxs) as [Hq1 Hs].
  destruct (series_quantile_value 1 2 Hxs) as [Hmed _].
  destruct (series_quantile_value 3 4 Hxs) as [Hq3 _].
  rewrite Hq1, Hmed, Hq3.
  pose proof (sort_Q_sorted xs) as Hsorted.
  assert (Hmem : forall i d, (i < List.length (sort_Q xs))%nat ->
                             In (nth i (sort_Q xs) d) xs).
  { intros i d Hi. apply (Permutation_in _ (sort_Q_perm xs)).
    apply nth_In. exact Hi. }
  destruct xs as [| x rest] eqn:Exs; [congruence |].
  cbn [series_min series_max_value].
  pose proof (fold_min_lower rest x) as Hmin.
  pose proof (fold_max_upper rest x) as Hmax.
  rewrite Forall_forall in Hmin, Hmax.
  do 5 eexists.
  repeat (split; [reflexivity |]).
  assert (H14 : 0 <= 1 <= 4) by lia. assert (H12 : 0 <= 1 <= 2) by lia.
  assert (H34 : 0 <= 3 <= 4) by lia.
  destruct (quantile_between Hsorted Hs H14 ltac:(lia))
    as (Hlt1 & Hlo1 & _ & _).
  destruct (quantile_between Hsorted Hs H34 ltac:(lia))
    as (Hlt3 & _ & Hhi3 & _).
  assert (Ha : (quantile (sort_Q (x :: rest)) 1 4
                <= quantile (sort_Q (x :: rest)) 1 2)%Q)
    by (apply quantile_monotone; try assumption; lia).
  assert (Hb : (quantile (sort_Q (x :: rest)) 1 2
                <= quantile (sort_Q (x :: rest)) 3 4)%Q)
    by (apply quantile_monotone; try assumption; lia).
  split; [| split; [exact Ha | split; [exact Hb | split]]].
  - eapply Qle_trans; [| exact Hlo1]. apply Hmin. apply Hmem. exact Hlt1.
  - eapply Qle_trans; [exact Hhi3 |]. apply Hmax.
    match goal with
    | |- In (nth (S ?lo) ?l ?d) _ =>
        destruct (Nat.lt_ge_cases (S lo) (List.length l)) as [Hin | Hout];
        [apply Hmem; exact Hin
        | rewrite (nth_overflow l d Hout); apply Hmem; exact Hlt3]
    end.
  - lra.
Qed.

Lemma revenue_summary_ordered_witness :
  exists q1 q3,
    stat_q1 (revenue_stats sample_orders) = Fin q1
    /\ stat_q3 (revenue_stats sample_orders) = Fin q3
    /\ (0 <= q3 - q1)%Q.
Proof.
  destruct (@revenue_summary_ordered sample_orders)
    as (mn & q1 & med & q3 & mx & _ & H1 & _ & H3 & _ & _ & _ & _ & _ & _ & Hiqr);
    [discriminate |].
  exists q1, q3. repeat split; assumption.
Defined.

(** ** Witnesses for the tables that cannot be scored *)


(** An order table whose orders all carry the same timestamp cannot be
    scored, as long as the six quantile edges of a constant column
    coincide: when the timestamp leaves room for the reference date every
    customer of the RFM table has a recency of one day and the recency
    scoring raises the exception about the number of labels; otherwise
    line 291 already raises. *)
Theorem shared_timestamp_raises (quantiles : list Q -> nat -> list Q)
        (df : frame) (t : Z) :
  constant_quantiles quantiles ->
  df <> [] ->
  Forall (fun o => order_date o = t) df ->
  (t + one_day <= timestamp_max ->
   exists rows,
     rfm df = ret rows
     /\ rows <> []
     /\ Forall (fun row => Recency row = Some 1) rows
     /\ score_rfm quantiles rows = raise err_label_count
     /\ rfm_scored quantiles df = raise err_label_count)
  /\ (timestamp_max < t + one_day ->
      rfm_scored quantiles df = raise err_timestamp_bounds).
Proof.
  intros Hconst Hne Hall.
  assert (Hmax : series_max (map order_date df) = Some t).
  { apply shared_timestamp_max; [exact Hne |].
    rewrite Forall_forall in Hall. exact Hall. }
  split.
  - intros Hfit.
    assert (Hrange : dates_in_range df = true).
    { unfold dates_in_range. rewrite Hmax.
      apply andb_true_iff. split; [apply Z.leb_le; exact Hfit |].
      apply forallb_forall. intros o Ho.
      rewrite Forall_forall in Hall. rewrite (Hall o Ho).
      apply Z.leb_le. unfold timedelta_max, one_day. lia. }
    pose proof (rfm_in_range df Hrange) as Hrfm.
    pose proof (rfm_aggregate_nonempty Hne) as Hrows.
    pose proof (shared_timestamp_recency Hne Hall) as Hone.
    assert (Hscore : score_rfm quantiles (rfm_aggregate df)
                     = raise err_label_count).
    { unfold score_rfm.
      rewrite (@constant_recency_raises_with quantiles (rfm_aggregate df) 1
                                             Hconst Hrows Hone).
      reflexivity. }
    exists (rfm_aggregate df).
    split; [exact Hrfm |]. split; [exact Hrows |]. split; [exact Hone |].
    split; [exact Hscore |].
    unfold rfm_scored. rewrite Hrfm. exact Hscore.
  - intros Hlate. unfold rfm_scored.
    rewrite (proj2 (reference_date_overflow df Hmax Hlate)). reflexivity.
Qed.

Lemma shared_timestamp_raises_witness :
  rfm_scored quantile_edges same_day_orders = raise err_label_count.
Proof.
  destruct (@shared_timestamp_raises quantile_edges same_day_orders (day 10))
    as [Hfit _].
  - exact quantile_edges_constant.
  - discriminate.
  - repeat constructor.
  - destruct Hfit as (rows & _ & _ & _ & _ & Hraises).
    + vm_compute. discriminate.
    + exact Hraises.
Defined.

(** ** Pareto cut of a single category *)

Lemma single_share_exceeds (r : Q) : num_categories_80 [r] = 0%nat.
Proof.
  unfold num_categories_80, cumsum_revenue_pct, cumsum, series_sum.
  cbn [cumsum_from map Qsum fold_right].
  assert (Hsame : (0 + r == r + 0)%Q) by ring.
  unfold Float.div.
  destruct (Qeq_bool (r + 0) 0) eqn:E.
  - apply Qeq_bool_iff in E.
    assert (Hz : (0 + r == 0)%Q) by (rewrite Hsame; exact E).
    unfold Float.inf_signed. rewrite (proj1 (Qeq_alt _ _) Hz). reflexivity.
  - assert (Hnz : ~ (r + 0 == 0)%Q).
    { intros H. apply Qeq_bool_iff in H. congruence. }
    cbn [Float.mul filter Float.leb].
    assert (Hr : ~ (r == 0)%Q).
    { intros H. apply Hnz. rewrite H. reflexivity. }
    assert (Hfull : ((0 + r) / (r + 0) * 100 == 100)%Q) by (field; exact Hr).
    destruct (Qle_bool ((0 + r) / (r + 0) * 100) 80) eqn:El; [| reflexivity].
    apply Qle_bool_iff in El. rewrite Hfull in El.
    exfalso. apply (Qlt_not_le 80 100); [reflexivity | exact El].
Qed.

(** When all orders belong to one category, the 80% set is empty and the
    single category is reported in the 20% set, whatever its revenue. *)
Theorem pareto_single_category (df : frame) (c : string) :
  df <> [] ->
  Forall (fun o => product_category o = c) df ->
  map category (category_analysis df) = [c]
  /\ pareto df = (0%nat, 1%nat).
Proof.
  intros Hne Hall. rewrite Forall_forall in Hall.
  assert (Hcat : Permutation (map category (category_analysis df))
                             (map fst (by_category df))).
  { eapply perm_trans;
      [apply Permutation_map, category_analysis_perm |].
    unfold with_shares, category_aggregate. rewrite !map_map.
    erewrite map_ext; [apply Permutation_refl |].
    intros [c' rows]. reflexivity. }
  assert (Hkeys : forall k, In k (map category (category_analysis df)) -> k = c).
  { intros k Hk. apply (Permutation_in _ Hcat) in Hk.
    apply in_map_iff in Hk. destruct Hk as ([c' rows] & <- & Hg).
    destruct (category_group df c' rows Hg) as [-> Hrows].
    unfold orders_in_category in Hrows. simpl.
    destruct (filter (fun o => String.eqb (product_category o) c') df)
      as [| o rest] eqn:E; [congruence |].
    assert (Ho : In o (filter (fun o => String.eqb (product_category o) c') df))
      by (rewrite E; left; reflexivity).
    apply filter_In in Ho. destruct Ho as [Ho Hc].
    apply String.eqb_eq in Hc. rewrite <- Hc. apply Hall. exact Ho. }
  assert (Hnd : NoDup (map category (category_analysis df))).
  { eapply Permutation_NoDup; [apply Permutation_sym; exact Hcat |].
    apply groupby_keys_NoDup. apply String.eqb_eq. }
  assert (Hsome : map category (category_analysis df) <> []).
  { destruct df as [| o rest]; [congruence |]. intros Hnil.
    assert (Hin : In (product_category o) (map fst (by_category (o :: rest)))).
    { apply (in_map fst) with (x := (product_category o,
               filter (fun row => String.eqb (product_category row)
                                             (product_category o)) (o :: rest))).
      apply groupby_covers; [apply String.eqb_eq | left; reflexivity]. }
    apply (Permutation_in _ (Permutation_sym Hcat)) in Hin.
    rewrite Hnil in Hin. exact Hin. }
  pose proof (NoDup_constant Hnd Hkeys) as Hle.
  destruct (category_analysis df) as [| row [| row' rest]] eqn:E;
    simpl in Hsome, Hle; try congruence; try lia.
  split.
  - simpl. f_equal. apply Hkeys. left. reflexivity.
  - unfold pareto. rewrite E. cbn [map]. unfold num_categories_20.
    rewrite single_share_exceeds. reflexivity.
Qed.

Lemma pareto_single_category_witness : pareto one_in_three = (0%nat, 1%nat).
Proof.
  refine (proj2 (@pareto_single_category one_in_three "X" _ _));
    [discriminate | repeat constructor].
Defined.

(** ** Dropping duplicate edges with five labels *)

(** With as many labels as quantiles, allowing duplicate edges to be
    dropped never rescues a call: the binning returns a result under
    [duplicates="drop"] exactly when it does under [duplicates="raise"],
    and then the same result.  A dropped edge always ends in the
    exception about the number of labels. *)
Theorem qcut_drop_never_rescues (x : list (option Q)) (q : nat)
        (labels : list Z) (cats : list (option Z)) :
  List.length labels = q ->
  (qcut x q labels DupDrop = ret cats <-> qcut x q labels DupRaise = ret cats).
Proof.
  intros Hlabels. unfold qcut, qcut_with.
  destruct (sort_Q (dropna x)) as [| v sorted]; [tauto |].
  set (bins := quantile_edges (v :: sorted) q).
  assert (Hbins : List.length bins = S q).
  { subst bins. unfold quantile_edges. rewrite length_map, length_seq.
    reflexivity. }
  unfold bins_to_cuts.
  destruct ((List.length (unique Qeq_bool bins) <? List.length bins)%nat
            && negb (List.length bins =? 2)%nat) eqn:Ecut; [| tauto].
  cbn [bind raise ret].
  apply andb_true_iff in Ecut. destruct Ecut as [Hlt _].
  apply Nat.ltb_lt in Hlt.
  split; [| discriminate].
  destruct (negb (List.length (unique Z.eqb labels) =? List.length labels)%nat);
    [discriminate |].
  assert (Hsome : (1 <= List.length (unique Qeq_bool bins))%nat).
  { destruct bins as [| b bs]; [discriminate Hbins | simpl; lia]. }
  assert (Hcount : (List.length labels
                    =? List.length (unique Qeq_bool bins) - 1)%nat = false).
  { apply Nat.eqb_neq. lia. }
  rewrite Hcount. discriminate.
Qed.

Lemma qcut_drop_never_rescues_witness :
  qcut (recency_column (rfm_aggregate same_day_orders)) 5 [5; 4; 3; 2; 1]
       DupDrop
  <> ret [Some 5; Some 5; Some 5; Some 5; Some 5].
Proof.
  intros H.
  apply (proj1 (@qcut_drop_never_rescues _ 5 [5; 4; 3; 2; 1] _ eq_refl)) in H.
  vm_compute in H. discriminate H.
Defined.

(** ** The most recent customer *)

Lemma latest_row_recency_one (df : frame) :
  df <> [] ->
  exists row, In row (rfm_aggregate df) /\ Recency row = Some 1.
Proof.
  intros Hne.
  destruct (series_max_some (xs := map order_date df)) as [latest Hlatest].
  { destruct df; [congruence | discriminate]. }
  destruct (series_max_spec _ Hlatest) as [Hin Hall].
  apply in_map_iff in Hin. destruct Hin as (o & Hdate & Ho).
  set (rows := filter (fun row => Z.eqb (customer_id row) (customer_id o)) df).
  assert (Hg : In (customer_id o, rows) (groupby Z.eqb Z.leb customer_id df))
    by (apply groupby_covers; [apply Z.eqb_eq | exact Ho]).
  exists {| rfm_customer := customer_id o;
            Recency := days_since (reference_value df)
                                  (series_max (map order_date rows));
            Frequency := Z.of_nat (List.length rows);
            Monetary := Qsum (map order_value rows) |}.
  split.
  - unfold rfm_aggregate. apply in_map_iff.
    exists (customer_id o, rows). split; [reflexivity | exact Hg].
  - cbn [Recency].
    assert (Horows : In o rows).
    { subst rows. apply filter_In. split; [exact Ho | apply Z.eqb_refl]. }
    destruct (series_max_some (xs := map order_date rows)) as [l Hl].
    { destruct rows; [destruct Horows | discriminate]. }
    destruct (series_max_spec _ Hl) as [Hlin Hlall].
    rewrite Forall_forall in Hall, Hlall.
    assert (Hle : l <= latest).
    { apply Hall. apply in_map_iff in Hlin. destruct Hlin as (o' & <- & Ho').
      apply in_map. subst rows. apply filter_In in Ho'. apply Ho'. }
    assert (Hge : latest <= l).
    { apply Hlall. rewrite <- Hdate. apply in_map. exact Horows. }
    unfold reference_value. rewrite Hlatest, Hl. simpl. f_equal.
    replace (latest + one_day - l) with one_day by lia. reflexivity.
Qed.

(** For a non-empty order table the RFM table is computed whenever the
    order dates leave room for the reference date, and in every RFM table
    that is computed some customer has a recency of exactly one day: the
    customer of the latest order. *)
Theorem latest_customer_recency_one (df : frame) :
  df <> [] ->
  (dates_in_range df = true -> exists rows, rfm df = ret rows)
  /\ (forall rows,
        rfm df = ret rows ->
        exists row, In row rows /\ Recency row = Some 1).
Proof.
  intros Hne. split.
  - intros Hrange. eexists. apply rfm_in_range. exact Hrange.
  - intros rows Hrows. apply rfm_inv in Hrows. subst rows.
    apply latest_row_recency_one. exact Hne.
Qed.

Lemma latest_customer_recency_one_witness :
  exists rows row,
    rfm sample_orders = ret rows /\ In row rows /\ Recency row = Some 1.
Proof.
  assert (Hne : sample_orders <> []) by discriminate.
  destruct (latest_customer_recency_one Hne) as [Hreturns Hrow].
  destruct (Hreturns eq_refl) as [rows Hrfm].
  destruct (Hrow rows Hrfm) as (row & Hin & Hone).
  exists rows, row. split; [exact Hrfm |]. split; assumption.
Defined.

(** ** Recency scores follow recency *)

Lemma bins_to_cuts_form (x : list (option Q)) (bins : list Q)
      (labels : list Z) (dup : duplicates_policy) (cats : list (option Z)) :
  bins_to_cuts x bins labels dup = ret cats ->
  exists bins', cats = map (fun v => label_of labels (bin_id bins' v)) x.
Proof.
  unfold bins_to_cuts.
  match goal with
  | |- bind ?m _ = _ -> _ => destruct m as [e | bins']
  end; simpl; [discriminate |].
  destruct (negb _); [discriminate |].
  destruct (negb _); [discriminate |].
  intros H. inversion H. exists bins'. reflexivity.
Qed.

Lemma searchsorted_left_mono (bins : list Q) (x y : Q) :
  (x <= y)%Q ->
  (searchsorted_left bins x <= searchsorted_left bins y)%nat.
Proof.
  intros Hxy. induction bins as [| b rest IH]; simpl; [lia |].
  destruct (Qle_bool x b) eqn:Ex; [lia |].
  destruct (Qle_bool y b) eqn:Ey; [| lia].
  apply Qle_bool_iff in Ey.
  assert (Hxb : Qle_bool x b = true)
    by (apply Qle_bool_iff; eapply Qle_trans; eassumption).
  congruence.
Qed.

Lemma bin_id_mono (bins : list Q) (x y : Q) (i j : nat) :
  bin_id bins (Some x) = Some i ->
  bin_id bins (Some y) = Some j ->
  (x <= y)%Q -> (1 <= i <= j)%nat.
Proof.
  unfold bin_id. intros Hi Hj Hxy.
  destruct bins as [| b0 rest]; [simpl in Hi; discriminate Hi |].
  set (bins := b0 :: rest) in *.
  assert (Hread : forall v k,
             (if ((if Qeq_bool v b0 then 1%nat else searchsorted_left bins v)
                  =? 0)%nat
                 || ((if Qeq_bool v b0 then 1%nat else searchsorted_left bins v)
                     =? List.length bins)%nat
              then None else Some (if Qeq_bool v b0 then 1%nat
                                   else searchsorted_left bins v)) = Some k ->
             k = (if Qeq_bool v b0 then 1%nat else searchsorted_left bins v)
             /\ (1 <= k)%nat).
  { intros v k.
    set (idx := if Qeq_bool v b0 then 1%nat else searchsorted_left bins v).
    intros H.
    destruct (idx =? 0)%nat eqn:E0; [discriminate H |].
    destruct (idx =? List.length bins)%nat; [discriminate H |].
    apply Nat.eqb_neq in E0. cbn [orb] in H.
    assert (Hk : idx = k) by congruence.
    split; [symmetry; exact Hk | lia]. }
  destruct (Hread x i Hi) as [Hix Hi1].
  destruct (Hread y j Hj) as [Hjy Hj1].
  split; [exact Hi1 |].
  destruct (Qeq_bool x b0) eqn:Ex; [lia |].
  destruct (Qeq_bool y b0) eqn:Ey.
  - exfalso. apply Qeq_bool_iff in Ey.
    assert (Hxb : Qle_bool x b0 = true)
      by (apply Qle_bool_iff; rewrite <- Ey; exact Hxy).
    subst bins. simpl in Hix. rewrite Hxb in Hix. lia.
  - rewrite Hix, Hjy. apply searchsorted_left_mono. exact Hxy.
Qed.

Lemma reversed_label (i : nat) (r : Z) :
  (1 <= i)%nat ->
  nth_error [5; 4; 3; 2; 1] (i - 1) = Some r ->
  r = 6 - Z.of_nat i.
Proof.
  intros Hi H.
  destruct i as [| [| [| [| [| [| i]]]]]]; simpl in H; try lia;
    try (inversion H; reflexivity).
  destruct i; discriminate H.
Qed.

Lemma zip_scores_recency (g : rfm_row -> option Z) (rows : list rfm_row) :
  forall rs fs ms,
    map Some rs = map g rows ->
    Forall (fun s => Some (R_score s) = g (rfm_base s))
           (zip_scores rows rs fs ms).
Proof.
  induction rows as [| row rows' IH];
    intros [| r rs] [| f fs] [| m ms] Hmap; simpl; try constructor.
  - simpl in Hmap. injection Hmap as Hr Hrest. cbn [R_score rfm_base].
    exact Hr.
  - simpl in Hmap. injection Hmap as Hr Hrest. apply IH. exact Hrest.
Qed.

(** In a scored table, whatever the rows that were scored and whatever
    the function that computes the bin edges, a customer who bought more
    recently never has a lower recency score: the scores fall as the days
    since the last order rise. *)
Theorem recency_score_monotone (quantiles : list Q -> nat -> list Q)
        (rows : list rfm_row) (table : list scored_row) :
  score_rfm quantiles rows = ret table ->
  forall s1 s2 d1 d2,
    In s1 table -> In s2 table ->
    Recency (rfm_base s1) = Some d1 ->
    Recency (rfm_base s2) = Some d2 ->
    d1 <= d2 ->
    R_score s2 <= R_score s1.
Proof.
  unfold score_rfm.
  destruct (score_recency_with quantiles rows) as [e | rs] eqn:Er;
    cbn [bind]; [discriminate |].
  destruct (score_by_rank_with quantiles (frequency_column rows))
    as [e | fs]; cbn [bind]; [discriminate |].
  destruct (score_by_rank_with quantiles (monetary_column rows))
    as [e | ms]; cbn [bind]; [discriminate |].
  intros Htable. inversion Htable as [Ht]. clear Htable.
  unfold score_recency_with in Er.
  destruct (qcut_with quantiles (recency_column rows) 5 [5; 4; 3; 2; 1]
                      DupDrop)
    as [e | cats] eqn:Eq; cbn [bind] in Er; [discriminate |].
  apply astype_int_spec in Er.
  unfold qcut_with in Eq.
  destruct (sort_Q (dropna (recency_column rows))); [discriminate |].
  apply bins_to_cuts_form in Eq. destruct Eq as [bins Hcats].
  set (g := fun row : rfm_row =>
              label_of [5; 4; 3; 2; 1]
                       (bin_id bins (option_map inject_Z (Recency row)))).
  assert (Hmap : map Some rs = map g rows).
  { rewrite <- Er, Hcats. unfold recency_column. rewrite map_map.
    reflexivity. }
  pose proof (zip_scores_recency g rows rs fs ms Hmap) as Hall.
  rewrite Forall_forall in Hall.
  intros s1 s2 d1 d2 H1 H2 Hd1 Hd2 Hle.
  pose proof (Hall s1 H1) as Hs1. pose proof (Hall s2 H2) as Hs2.
  unfold g in Hs1, Hs2. rewrite Hd1 in Hs1. rewrite Hd2 in Hs2.
  cbn [option_map] in Hs1, Hs2.
  destruct (bin_id bins (Some (inject_Z d1))) as [i |] eqn:Ei;
    [| discriminate Hs1].
  destruct (bin_id bins (Some (inject_Z d2))) as [j |] eqn:Ej;
    [| discriminate Hs2].
  assert (Hq : (inject_Z d1 <= inject_Z d2)%Q) by (rewrite <- Zle_Qle; exact Hle).
  destruct (@bin_id_mono bins _ _ i j Ei Ej Hq) as [Hi Hij].
  cbn [label_of] in Hs1, Hs2.
  symmetry in Hs1, Hs2.
  apply reversed_label in Hs1; [| exact Hi].
  apply reversed_label in Hs2; [| lia].
  lia.
Qed.

Lemma recency_score_monotone_witness :
  exists table,
    rfm_scored quantile_edges sample_orders = ret table
    /\ forall s1 s2 d1 d2,
         In s1 table -> In s2 table ->
         Recency (rfm_base s1) = Some d1 ->
         Recency (rfm_base s2) = Some d2 ->
         d1 <= d2 ->
         R_score s2 <= R_score s1.
Proof.
  eexists. split; [vm_compute; reflexivity |].
  apply (@recency_score_monotone quantile_edges (rfm_aggregate sample_orders)).
  vm_compute. reflexivity.
Defined.

(** ** Frequency and monetary scores follow the values *)

Lemma count_true_app (A : Type) (p : A -> bool) (l1 l2 : list A) :
  count_true p (l1 ++ l2) = count_true p l1 + count_true p l2.
Proof.
  unfold count_true. rewrite filter_app, length_app. lia.
Qed.

Lemma count_true_rev (A : Type) (p : A -> bool) (l : list A) :
  count_true p (rev l) = count_true p l.
Proof.
  unfold count_true. rewrite filter_rev, length_rev. reflexivity.
Qed.

Lemma count_true_cons (A : Type) (p : A -> bool) (a : A) (l : list A) :
  count_true p (a :: l) = (if p a then 1 else 0) + count_true p l.
Proof.
  unfold count_true. simpl. destruct (p a); simpl List.length; lia.
Qed.

Lemma count_true_nonneg (A : Type) (p : A -> bool) (l : list A) :
  0 <= count_true p l.
Proof. unfold count_true. lia. Qed.

(** A rank lies between the number of smaller values plus one and the
    number of values that are not larger. *)
Lemma rank_from_bounds (all : list Q) :
  forall rest seen,
    all = rev seen ++ rest ->
    Forall2 (fun x r =>
               (inject_Z (1 + count_below x all) <= r)%Q
               /\ (r <= inject_Z (count_below x all + count_equal x all))%Q)
            rest (rank_from all seen rest).
Proof.
  induction rest as [| x tl IH]; intros seen Hall; [constructor |].
  cbn [rank_from]. constructor.
  - fold (count_below x all). fold (count_equal x seen).
    rewrite <- !Zle_Qle.
    pose proof (count_true_nonneg (fun y => Qeq_bool y x) seen) as Hseen.
    fold (count_equal x seen) in Hseen.
    assert (Heq : count_equal x seen + 1 <= count_equal x all).
    { unfold count_equal. rewrite Hall, count_true_app, count_true_rev,
        count_true_cons.
      assert (Hx : Qeq_bool x x = true) by (apply Qeq_bool_iff; reflexivity).
      rewrite Hx.
      pose proof (count_true_nonneg (fun y => Qeq_bool y x) tl). lia. }
    lia.
  - apply IH. rewrite Hall. simpl. rewrite <- app_assoc. reflexivity.
Qed.

Lemma count_not_larger (x y : Q) (l : list Q) :
  (x < y)%Q -> count_below x l + count_equal x l <= count_below y l.
Proof.
  intros Hxy. unfold count_below, count_equal.
  induction l as [| z rest IH]; [unfold count_true; simpl; lia |].
  rewrite !count_true_cons.
  assert (Hz : (if negb (Qle_bool x z) then 1 else 0)
               + (if Qeq_bool z x then 1 else 0)
               <= (if negb (Qle_bool y z) then 1 else 0)).
  { destruct (Qle_bool y z) eqn:Ey.
    - apply Qle_bool_iff in Ey.
      assert (Hxz : (x < z)%Q) by (eapply Qlt_le_trans; eassumption).
      assert (E1 : Qle_bool x z = true)
        by (apply Qle_bool_iff, Qlt_le_weak; exact Hxz).
      assert (E2 : Qeq_bool z x = false).
      { destruct (Qeq_bool z x) eqn:E; [| reflexivity].
        apply Qeq_bool_iff in E. rewrite E in Hxz.
        exfalso. apply (Qlt_irrefl x). exact Hxz. }
      rewrite E1, E2. simpl. lia.
    - simpl. destruct (Qle_bool x z) eqn:E1; simpl.
      + destruct (Qeq_bool z x); lia.
      + destruct (Qeq_bool z x) eqn:E2; [| lia].
        apply Qeq_bool_iff in E2.
        assert (Hle : Qle_bool x z = true)
          by (apply Qle_bool_iff; rewrite E2; apply Qle_refl).
        congruence. }
  lia.
Qed.

Lemma straight_label (i : nat) (r : Z) :
  (1 <= i)%nat ->
  nth_error [1; 2; 3; 4; 5] (i - 1) = Some r ->
  r = Z.of_nat i.
Proof.
  intros Hi H.
  destruct i as [| [| [| [| [| [| i]]]]]]; simpl in H; try lia;
    try (inversion H; reflexivity).
  destruct i; discriminate H.
Qed.

(** Scores taken from ranks respect the strict order of the values. *)
Lemma score_by_rank_monotone (quantiles : list Q -> nat -> list Q)
      (col : list Q) (scores : list Z) :
  score_by_rank_with quantiles col = ret scores ->
  exists ranks G,
    map Some scores = map G ranks
    /\ Forall2 (fun x r =>
                  (inject_Z (1 + count_below x col) <= r)%Q
                  /\ (r <= inject_Z (count_below x col + count_equal x col))%Q)
               col ranks
    /\ forall r1 r2 s1 s2,
         (r1 <= r2)%Q -> G r1 = Some s1 -> G r2 = Some s2 -> s1 <= s2.
Proof.
  unfold score_by_rank_with. intros H.
  destruct (qcut_with quantiles (map Some (rank_first col)) 5 [1; 2; 3; 4; 5]
                      DupDrop)
    as [e | cats] eqn:Eq; cbn [bind] in H; [discriminate |].
  apply astype_int_spec in H.
  unfold qcut_with in Eq.
  destruct (sort_Q (dropna (map Some (rank_first col)))); [discriminate |].
  apply bins_to_cuts_form in Eq. destruct Eq as [bins Hcats].
  exists (rank_first col),
    (fun r => label_of [1; 2; 3; 4; 5] (bin_id bins (Some r))).
  split; [| split].
  - rewrite <- H, Hcats, map_map. reflexivity.
  - apply (@rank_from_bounds col col []). reflexivity.
  - intros r1 r2 s1 s2 Hle H1 H2.
    destruct (bin_id bins (Some r1)) as [i |] eqn:Ei; [| discriminate H1].
    destruct (bin_id bins (Some r2)) as [j |] eqn:Ej; [| discriminate H2].
    destruct (@bin_id_mono bins _ _ i j Ei Ej Hle) as [Hi Hij].
    cbn [label_of] in H1, H2.
    apply straight_label in H1; [| exact Hi].
    apply straight_label in H2; [| lia].
    lia.
Qed.

Lemma ranks_ordered (col : list Q) (x1 x2 r1 r2 : Q) :
  (x1 < x2)%Q ->
  (r1 <= inject_Z (count_below x1 col + count_equal x1 col))%Q ->
  (inject_Z (1 + count_below x2 col) <= r2)%Q ->
  (r1 <= r2)%Q.
Proof.
  intros Hx H1 H2.
  pose proof (count_not_larger col Hx) as Hc.
  eapply Qle_trans; [exact H1 |]. eapply Qle_trans; [| exact H2].
  rewrite <- Zle_Qle. lia.
Qed.

Lemma Forall2_of_map (A B C : Type) (f : A -> B) (R : B -> C -> Prop)
      (l : list A) (l' : list C) :
  Forall2 R (map f l) l' -> Forall2 (fun a c => R (f a) c) l l'.
Proof.
  revert l'. induction l as [| a rest IH]; intros l' H.
  - inversion H. constructor.
  - simpl in H. inversion H; subst. constructor; [assumption |].
    apply IH. assumption.
Qed.

Lemma zip_scores_frequency (G : Q -> option Z) (P : rfm_row -> Q -> Prop)
      (rows : list rfm_row) :
  forall ranks rs fs ms,
    map Some fs = map G ranks ->
    Forall2 P rows ranks ->
    Forall (fun s => exists r, P (rfm_base s) r /\ G r = Some (F_score s))
           (zip_scores rows rs fs ms).
Proof.
  induction rows as [| row rows' IH];
    intros ranks [| r rs] [| f fs] [| m ms] Hmap Hall; simpl;
    try constructor.
  - inversion Hall as [| ? rk ? ranks' Hp Hrest]; subst.
    simpl in Hmap. injection Hmap as Hf _.
    exists rk. cbn [rfm_base F_score]. split; [exact Hp | symmetry; exact Hf].
  - inversion Hall as [| ? rk ? ranks' Hp Hrest]; subst.
    simpl in Hmap. injection Hmap as _ Hfs.
    apply (IH ranks'); assumption.
Qed.

Lemma zip_scores_monetary (G : Q -> option Z) (P : rfm_row -> Q -> Prop)
      (rows : list rfm_row) :
  forall ranks rs fs ms,
    map Some ms = map G ranks ->
    Forall2 P rows ranks ->
    Forall (fun s => exists r, P (rfm_base s) r /\ G r = Some (M_score s))
           (zip_scores rows rs fs ms).
Proof.
  induction rows as [| row rows' IH];
    intros ranks [| r rs] [| f fs] [| m ms] Hmap Hall; simpl;
    try constructor.
  - inversion Hall as [| ? rk ? ranks' Hp Hrest]; subst.
    simpl in Hmap. injection Hmap as Hm _.
    exists rk. cbn [rfm_base M_score]. split; [exact Hp | symmetry; exact Hm].
  - inversion Hall as [| ? rk ? ranks' Hp Hrest]; subst.
    simpl in Hmap. injection Hmap as _ Hms.
    apply (IH ranks'); assumption.
Qed.

(** In a scored table, whatever the rows that were scored and whatever
    the function that computes the bin edges, a customer with strictly
    more orders never has a lower frequency score, and a customer with a
    strictly larger monetary value never has a lower monetary score. *)
Theorem value_scores_monotone (quantiles : list Q -> nat -> list Q)
        (rows : list rfm_row) (table : list scored_row) :
  score_rfm quantiles rows = ret table ->
  forall s1 s2,
    In s1 table -> In s2 table ->
    (Frequency (rfm_base s1) < Frequency (rfm_base s2) ->
     F_score s1 <= F_score s2)
    /\ ((Monetary (rfm_base s1) < Monetary (rfm_base s2))%Q ->
        M_score s1 <= M_score s2).
Proof.
  unfold score_rfm.
  destruct (score_recency_with quantiles rows) as [e | rs];
    cbn [bind]; [discriminate |].
  destruct (score_by_rank_with quantiles (frequency_column rows))
    as [e | fs] eqn:Ef; cbn [bind]; [discriminate |].
  destruct (score_by_rank_with quantiles (monetary_column rows))
    as [e | ms] eqn:Em; cbn [bind]; [discriminate |].
  intros Htable. inversion Htable as [Ht]. clear Htable.
  destruct (score_by_rank_monotone _ _ Ef)
    as (franks & FG & Hfmap & Hfb & Hfmono).
  destruct (score_by_rank_monotone _ _ Em)
    as (mranks & MG & Hmmap & Hmb & Hmmono).
  unfold frequency_column in Hfb. apply Forall2_of_map in Hfb.
  unfold monetary_column in Hmb. apply Forall2_of_map in Hmb.
  pose proof (@zip_scores_frequency FG _ rows franks rs fs ms Hfmap Hfb)
    as HF.
  pose proof (@zip_scores_monetary MG _ rows mranks rs fs ms Hmmap Hmb)
    as HM.
  rewrite Forall_forall in HF, HM.
  intros s1 s2 H1 H2. split.
  - intros Hlt.
    destruct (HF s1 H1) as (r1 & [_ Hup1] & Hs1).
    destruct (HF s2 H2) as (r2 & [Hlo2 _] & Hs2).
    apply (Hfmono r1 r2); [| exact Hs1 | exact Hs2].
    eapply ranks_ordered; [| exact Hup1 | exact Hlo2].
    rewrite <- Zlt_Qlt. exact Hlt.
  - intros Hlt.
    destruct (HM s1 H1) as (r1 & [_ Hup1] & Hs1).
    destruct (HM s2 H2) as (r2 & [Hlo2 _] & Hs2).
    apply (Hmmono r1 r2); [| exact Hs1 | exact Hs2].
    eapply ranks_ordered; [exact Hlt | exact Hup1 | exact Hlo2].
Qed.

Lemma value_scores_monotone_witness :
  exists table,
    rfm_scored quantile_edges sample_orders = ret table
    /\ forall s1 s2,
         In s1 table -> In s2 table ->
         (Frequency (rfm_base s1) < Frequency (rfm_base s2) ->
          F_score s1 <= F_score s2)
         /\ ((Monetary (rfm_base s1) < Monetary (rfm_base s2))%Q ->
             M_score s1 <= M_score s2).
Proof.
  eexists. split; [vm_compute; reflexivity |].
  apply (@value_scores_monotone quantile_edges (rfm_aggregate sample_orders)).
  vm_compute. reflexivity.
Defined.

(** Equal values can receive different scores: the rank breaks ties by
    position. *)
Lemma equal_frequency_different_scores :
  exists table s1 s2,
    rfm_table sample_orders = ret table
    /\ In s1 table /\ In s2 table
    /\ Frequency (rfm_base s1) = Frequency (rfm_base s2)
    /\ F_score s1 <> F_score s2.
Proof.
  eexists. eexists. eexists.
  split; [vm_compute; reflexivity |].
  split; [left; reflexivity |].
  split; [right; left; reflexivity |].
  split; [reflexivity | discriminate].
Qed.
